(** * Contract verifier: a shallow embedding of [src/verify-contracts.ts]

    The development follows the source file from top to bottom: the
    JavaScript runtime pieces it relies on (strings, [Map], regular
    expressions, binary64 numbers), the Levenshtein similarity code, the
    cycle detector, the markdown parser, the four checks and the report.
    The theorems about them come after all the definitions.

    Strings are modelled as Rocq [string]s (sequences of 8-bit characters):
    the model is that of ASCII text.  [\s], [\w], [trim] and [toLowerCase]
    are the ASCII parts of their JavaScript counterparts, which also know
    the Unicode spaces (U+00A0, U+FEFF and the like) and letters.  The
    fields [name], [serviceMethods] and [apiRoutes] of [ParsedContract],
    which only feed the statistics of the report, are left out of the
    contracts that the checks read. *)

From Stdlib Require Import Arith ZArith List String Ascii Bool Lia.
From Stdlib Require Import Floats Uint63 DecimalString.
Import ListNotations.

Open Scope string_scope.
Open Scope list_scope.
Open Scope nat_scope.

Infix "+++" := String.append (right associativity, at level 60).

(* ====================================================================== *)
(** ** JavaScript strings *)
(* ====================================================================== *)

Module JsString.

(** [\s] on ASCII: tab, line feed, vertical tab, form feed, carriage return,
    space. *)
Definition isSpace (c : ascii) : bool :=
  let n := nat_of_ascii c in
  ((9 <=? n) && (n <=? 13)) || (n =? 32).

Definition isUpper (c : ascii) : bool :=
  let n := nat_of_ascii c in (65 <=? n) && (n <=? 90).

Definition isLower (c : ascii) : bool :=
  let n := nat_of_ascii c in (97 <=? n) && (n <=? 122).

Definition isDigit (c : ascii) : bool :=
  let n := nat_of_ascii c in (48 <=? n) && (n <=? 57).

(** [\w] = [A-Za-z0-9_]. *)
Definition isWord (c : ascii) : bool :=
  isUpper c || isLower c || isDigit c || Ascii.eqb c "_".

Definition lowerChar (c : ascii) : ascii :=
  if isUpper c then ascii_of_nat (nat_of_ascii c + 32) else c.

(** [s.toLowerCase()] on ASCII: the letters A to Z. *)
Fixpoint toLowerCase (s : string) : string :=
  match s with
  | EmptyString => EmptyString
  | String c r => String (lowerChar c) (toLowerCase r)
  end.

Fixpoint trimStart (s : string) : string :=
  match s with
  | EmptyString => EmptyString
  | String c r => if isSpace c then trimStart r else s
  end.

Fixpoint trimEnd (s : string) : string :=
  match s with
  | EmptyString => EmptyString
  | String c r =>
      match trimEnd r with
      | EmptyString => if isSpace c then EmptyString else String c EmptyString
      | r' => String c r'
      end
  end.

(** [s.trim()] on ASCII: the white space removed is that of [isSpace]. *)
Definition trim (s : string) : string := trimEnd (trimStart s).

(** [s.startsWith(p)] *)
Definition startsWith (s p : string) : bool := String.prefix p s.

(** [s.includes(p)] *)
Fixpoint includes (s p : string) : bool :=
  String.prefix p s ||
  match s with
  | EmptyString => false
  | String _ r => includes r p
  end.

(** [s.endsWith(p)] *)
Fixpoint endsWith (s p : string) : bool :=
  String.eqb s p ||
  match s with
  | EmptyString => false
  | String _ r => endsWith r p
  end.

(** [s.split(sep)] for a one-character separator: the pieces between the
    separators, always at least one piece. *)
Fixpoint split (sep : ascii) (s : string) : list string :=
  match s with
  | EmptyString => [EmptyString]
  | String c r =>
      if Ascii.eqb c sep then EmptyString :: split sep r
      else match split sep r with
           | p :: ps => String c p :: ps
           | [] => [String c EmptyString]
           end
  end.

(** [xs.join(sep)] *)
Fixpoint join (sep : string) (xs : list string) : string :=
  match xs with
  | [] => EmptyString
  | [x] => x
  | x :: rest => x +++ sep +++ join sep rest
  end.

(** Number of line feeds in [s]: [(s.match(/\n/g) || []).length]. *)
Fixpoint countNewlines (s : string) : nat :=
  match s with
  | EmptyString => 0
  | String c r => (if Ascii.eqb c "010" then 1 else 0) + countNewlines r
  end.

(** Decimal rendering of a natural number inside a template literal. *)
Definition ofNat (n : nat) : string := NilEmpty.string_of_uint (Nat.to_uint n).

Definition ofZ (z : Z) : string := NilEmpty.string_of_int (Z.to_int z).

End JsString.

(* ====================================================================== *)
(** ** JavaScript regular expressions (the fragment the verifier uses) *)
(* ====================================================================== *)

Module Regex.

Inductive regex : Type :=
  | Eps
  | Cls (p : ascii -> bool)          (* one character of a class *)
  | Cat (r1 r2 : regex)
  | Alt (r1 r2 : regex)              (* r1|r2, r1 tried first *)
  | Star (r : regex)                 (* greedy r* *)
  | StarLazy (r : regex)             (* r*? *)
  | Grp (n : nat) (r : regex)        (* capturing group number n *)
  | Bol                              (* ^ without the m flag *)
  | Eol.                             (* $ without the m flag *)

(** Captures: group number to (start, end) offsets, most recent first. *)
Definition caps : Type := list (nat * (nat * nat)).

(** Backtracking matcher in continuation-passing style.  [s] is the rest
    of the input and [pos] its offset.  A [Star] iteration that consumes
    nothing is rejected, as in ECMAScript's RepeatMatcher, so an
    iteration count of [List.length s] is never exceeded. *)
Fixpoint run {R : Type} (r : regex) (s : list ascii) (pos : nat) (cs : caps)
         (k : list ascii -> nat -> caps -> option R) {struct r} : option R :=
  match r with
  | Eps => k s pos cs
  | Cls p =>
      match s with
      | c :: s' => if p c then k s' (S pos) cs else None
      | [] => None
      end
  | Cat r1 r2 => run r1 s pos cs (fun s1 p1 c1 => run r2 s1 p1 c1 k)
  | Alt r1 r2 =>
      match run r1 s pos cs k with
      | Some x => Some x
      | None => run r2 s pos cs k
      end
  | Star r1 =>
      (fix loop (fuel : nat) (s : list ascii) (pos : nat) (cs : caps) : option R :=
         match fuel with
         | 0 => k s pos cs
         | S f =>
             match run r1 s pos cs
                     (fun s1 p1 c1 => if p1 =? pos then None else loop f s1 p1 c1) with
             | Some x => Some x
             | None => k s pos cs
             end
         end) (List.length s) s pos cs
  | StarLazy r1 =>
      (fix loop (fuel : nat) (s : list ascii) (pos : nat) (cs : caps) : option R :=
         match k s pos cs with
         | Some x => Some x
         | None =>
             match fuel with
             | 0 => None
             | S f =>
                 run r1 s pos cs
                   (fun s1 p1 c1 => if p1 =? pos then None else loop f s1 p1 c1)
             end
         end) (List.length s) s pos cs
  | Grp n r1 => run r1 s pos cs (fun s1 p1 c1 => k s1 p1 ((n, (pos, p1)) :: c1))
  | Bol => if pos =? 0 then k s pos cs else None
  | Eol => match s with [] => k s pos cs | _ :: _ => None end
  end.

(** One match: start offset, end offset, captures. *)
Record result : Type := mkResult { index : nat; stop : nat; groups : caps }.

Definition matchAt (r : regex) (s : list ascii) (pos : nat) : option result :=
  run r s pos [] (fun _ e cs => Some (mkResult pos e cs)).

(** Leftmost match at or after [pos]; [s] is the input from [pos] on. *)
Fixpoint search (r : regex) (s : list ascii) (pos : nat) : option result :=
  match matchAt r s pos with
  | Some m => Some m
  | None =>
      match s with
      | [] => None
      | _ :: s' => search r s' (S pos)
      end
  end.

(** All matches of a [g] regex, left to right, as a [while (re.exec(s))]
    loop or a global [replace] visits them.  After an empty match the scan
    moves on by one character (the regexes of the verifier never match the
    empty string). *)
Fixpoint execAllFrom (fuel : nat) (r : regex) (s : list ascii) (pos : nat)
  : list result :=
  match fuel with
  | 0 => []
  | S f =>
      match search r s pos with
      | None => []
      | Some m =>
          let rest := skipn (stop m - pos) s in
          m :: (if stop m =? index m
                then match rest with
                     | [] => []
                     | _ :: rest' => execAllFrom f r rest' (S (stop m))
                     end
                else execAllFrom f r rest (stop m))
      end
  end.

Definition chars (s : string) : list ascii := list_ascii_of_string s.

(** First match of [r] in [s]: [r.exec(s)] with [lastIndex = 0]. *)
Definition exec (r : regex) (s : string) : option result :=
  search r (chars s) 0.

Definition execAll (r : regex) (s : string) : list result :=
  execAllFrom (S (String.length s)) r (chars s) 0.

(** [r.test(s)] *)
Definition test (r : regex) (s : string) : bool :=
  match exec r s with Some _ => true | None => false end.

Fixpoint lookup (n : nat) (cs : caps) : option (nat * nat) :=
  match cs with
  | [] => None
  | (m, span) :: rest => if m =? n then Some span else lookup n rest
  end.

(** [match[n]]: [None] is JavaScript's [undefined]. *)
Definition group (s : string) (m : result) (n : nat) : option string :=
  match lookup n (groups m) with
  | Some (b, e) => Some (substring b (e - b) s)
  | None => None
  end.

(** [match[n]] for a group that always takes part in a match. *)
Definition group' (s : string) (m : result) (n : nat) : string :=
  match group s m n with Some g => g | None => EmptyString end.

(** [match[0]] *)
Definition whole (s : string) (m : result) : string :=
  substring (index m) (stop m - index m) s.

(** [s.substring(0, match.index)] *)
Definition before (s : string) (m : result) : string :=
  substring 0 (index m) s.

(** [s.replace(r, rep)] for a regex without the [g] flag. *)
Definition replaceFirst (r : regex) (s rep : string) : string :=
  match exec r s with
  | None => s
  | Some m =>
      substring 0 (index m) s +++ rep +++
      substring (stop m) (String.length s - stop m) s
  end.

Fixpoint stitch (s rep : string) (from : nat) (ms : list result) : string :=
  match ms with
  | [] => substring from (String.length s - from) s
  | m :: rest =>
      substring from (index m - from) s +++ rep +++ stitch s rep (stop m) rest
  end.

(** [s.replace(r, rep)] for a regex with the [g] flag. *)
Definition replaceAll (r : regex) (s rep : string) : string :=
  stitch s rep 0 (execAll r s).

(** *** Building blocks *)

Definition chr (c : ascii) : regex := Cls (Ascii.eqb c).
Definition notChr (c : ascii) : regex := Cls (fun x => negb (Ascii.eqb c x)).

Fixpoint lit (s : string) : regex :=
  match s with
  | EmptyString => Eps
  | String c r => Cat (chr c) (lit r)
  end.

Definition plus (r : regex) : regex := Cat r (Star r).
Definition opt (r : regex) : regex := Alt r Eps.

Fixpoint seq (rs : list regex) : regex :=
  match rs with
  | [] => Eps
  | [r] => r
  | r :: rest => Cat r (seq rest)
  end.

Fixpoint alts (rs : list regex) : regex :=
  match rs with
  | [] => Cls (fun _ => false)
  | [r] => r
  | r :: rest => Alt r (alts rest)
  end.

Definition space : regex := Cls JsString.isSpace.      (* \s *)
Definition word : regex := Cls JsString.isWord.        (* \w *)
Definition anyChar : regex := Cls (fun _ => true).     (* [\s\S] *)

End Regex.

(* ====================================================================== *)
(** ** JavaScript [Map] and [Set] keyed by strings

    Both iterate in insertion order, which the verifier relies on; they are
    lists without repeated keys.  Setting an existing key keeps its place. *)
(* ====================================================================== *)

Module JsMap.
Section Ops.
Context {V : Type}.

Definition t : Type := list (string * V).

Fixpoint get (m : t) (k : string) : option V :=
  match m with
  | [] => None
  | (k', v) :: rest => if String.eqb k' k then Some v else get rest k
  end.

Definition has (m : t) (k : string) : bool :=
  match get m k with Some _ => true | None => false end.

Fixpoint set (m : t) (k : string) (v : V) : t :=
  match m with
  | [] => [(k, v)]
  | (k', v') :: rest =>
      if String.eqb k' k then (k, v) :: rest else (k', v') :: set rest k v
  end.

Definition keys (m : t) : list string := map fst m.

(** [new Map(entries)] *)
Definition ofEntries (es : list (string * V)) : t :=
  fold_left (fun m e => set m (fst e) (snd e)) es [].

Definition size (m : t) : nat := List.length m.

End Ops.
Arguments t : clear implicits.
End JsMap.

Module JsSet.
Definition t : Type := list string.

Definition has (s : t) (x : string) : bool := existsb (String.eqb x) s.

Definition add (s : t) (x : string) : t := if has s x then s else s ++ [x].

Definition delete (s : t) (x : string) : t :=
  filter (fun y => negb (String.eqb x y)) s.

(** [new Set(xs)] *)
Definition ofList (xs : list string) : t := fold_left add xs [].
End JsSet.

(* ====================================================================== *)
(** ** JavaScript numbers: IEEE 754 binary64 *)
(* ====================================================================== *)

Module JsNumber.
(** A length or a small count as a number. *)
Definition ofNat (n : nat) : float := PrimFloat.of_uint63 (Uint63.of_Z (Z.of_nat n)).

(** [`${Math.round(x)}`]: the integer nearest to [x], ties upwards. *)
Definition roundToString (x : float) : string :=
  match Prim2SF x with
  | S754_zero _ => "0"
  | S754_infinity s => if s then "-Infinity" else "Infinity"
  | S754_nan => "NaN"
  | S754_finite s m e =>
      let mz := if s then Z.neg m else Z.pos m in
      JsString.ofZ
        (if (0 <=? e)%Z then (mz * 2 ^ e)%Z
         else ((2 * mz + 2 ^ (- e)) / 2 ^ (- e + 1))%Z)
  end.
End JsNumber.

(* ====================================================================== *)
(** ** Levenshtein distance for fuzzy matching *)
(* ====================================================================== *)

(** The value stored in [matrix[i][j]], from [b.charAt(i - 1)],
    [a.charAt(j - 1)], [matrix[i-1][j-1]], [matrix[i][j-1]] and
    [matrix[i-1][j]]. *)
Definition cell (bc ac : ascii) (diag left up : nat) : nat :=
  if Ascii.eqb bc ac then diag
  else Nat.min (diag + 1) (Nat.min (left + 1) (up + 1)).

(** The inner loop over [j]: cells 1.. of row [i] are appended one by one;
    [prev] is row [i-1] from column [j-1] on, [left] is [matrix[i][j-1]]. *)
Fixpoint fillRow (bc : ascii) (a : list ascii) (prev : list nat) (left : nat)
  : list nat :=
  match a, prev with
  | ac :: a', diag :: ((up :: _) as prev') =>
      let v := cell bc ac diag left up in
      v :: fillRow bc a' prev' v
  | _, _ => []
  end.

(** The outer loop over [i]: rows [i], [i+1], ... given row [i-1]. *)
Fixpoint fillRows (a b : list ascii) (i : nat) (prev : list nat)
  : list (list nat) :=
  match b with
  | [] => []
  | bc :: b' =>
      let row := i :: fillRow bc a prev i in
      row :: fillRows a b' (S i) row
  end.

Definition matrix (a b : list ascii) : list (list nat) :=
  let row0 := List.seq 0 (S (List.length a)) in
  row0 :: fillRows a b 1 row0.

Definition levenshteinDistance (a b : string) : nat :=
  let a' := list_ascii_of_string a in
  let b' := list_ascii_of_string b in
  nth (List.length a') (nth (List.length b') (matrix a' b') []) 0.

Definition similarityRatio (a b : string) : float :=
  let maxLen := Nat.max (String.length a) (String.length b) in
  if maxLen =? 0 then 1%float
  else (1 - JsNumber.ofNat (levenshteinDistance a b) / JsNumber.ofNat maxLen)%float.

(** [ratio >= threshold && ratio < 1] *)
Definition inSimilarRange (threshold ratio : float) : bool :=
  PrimFloat.leb threshold ratio && PrimFloat.ltb ratio 1%float.

(** [[name1, name2].sort().join('|')] *)
Definition pairKey (name1 name2 : string) : string :=
  JsString.join "|" (if String.ltb name2 name1 then [name2; name1] else [name1; name2]).

Record similarState : Type := mkSimilarState {
  similar : list (string * string * float);
  seenPairs : JsSet.t
}.

(** Body of the loop over [j]. *)
Definition similarStep (threshold : float) (name1 : string)
           (st : similarState) (name2 : string) : similarState :=
  if String.eqb name1 name2 then st
  else
    let key := pairKey name1 name2 in
    if JsSet.has (seenPairs st) key then st
    else
      let ratio := similarityRatio (JsString.toLowerCase name1)
                                   (JsString.toLowerCase name2) in
      if inSimilarRange threshold ratio
      then mkSimilarState (similar st ++ [(name1, name2, ratio)])
                          (JsSet.add (seenPairs st) key)
      else st.

(** The loop over [i]: [uniqueNames[i]] against every later name. *)
Fixpoint similarLoop (threshold : float) (uniqueNames : list string)
         (st : similarState) : similarState :=
  match uniqueNames with
  | [] => st
  | name1 :: rest =>
      similarLoop threshold rest (fold_left (similarStep threshold name1) rest st)
  end.

Definition findSimilarNames (names : list string) (threshold : float)
  : list (string * string * float) :=
  similar (similarLoop threshold (JsSet.ofList names) (mkSimilarState [] [])).

(* ====================================================================== *)
(** ** Graph cycle detection *)
(* ====================================================================== *)

Definition Graph : Type := JsMap.t (list string).

Record dfsState : Type := mkDfs {
  cycles : list (list string);
  visited : JsSet.t;
  recStack : JsSet.t
}.

(** [path.indexOf(x)], [None] for [-1]. *)
Fixpoint indexOf (path : list string) (x : string) : option nat :=
  match path with
  | [] => None
  | y :: rest =>
      if String.eqb y x then Some 0
      else match indexOf rest x with Some i => Some (S i) | None => None end
  end.

(** [graph.get(node) || []] *)
Definition neighborsOf (graph : Graph) (node : string) : list string :=
  match JsMap.get graph node with Some ns => ns | None => [] end.

(** The loop over the neighbours of a node inside [dfs]; [visit] is the
    recursive call [dfs(neighbor, [...path])] and [path] the path after
    [path.push(node)]. *)
Fixpoint dfsNeighbors (visit : string -> list string -> dfsState -> option dfsState)
         (path : list string) (neighbors : list string) (st : dfsState)
  : option dfsState :=
  match neighbors with
  | [] => Some st
  | neighbor :: rest =>
      if negb (JsSet.has (visited st) neighbor) then
        match visit neighbor path st with
        | Some st' => dfsNeighbors visit path rest st'
        | None => None
        end
      else if JsSet.has (recStack st) neighbor then
        match indexOf path neighbor with
        | Some cycleStart =>
            let cycle := skipn cycleStart path ++ [neighbor] in
            dfsNeighbors visit path rest
              (mkDfs (cycles st ++ [cycle]) (visited st) (recStack st))
        | None => dfsNeighbors visit path rest st
        end
      else dfsNeighbors visit path rest st
  end.

(** The recursive [dfs] closure.  [fuel] bounds the depth of the recursion;
    [None] means the bound was too small. *)
Fixpoint dfs (fuel : nat) (graph : Graph) (node : string) (path : list string)
         (st : dfsState) : option dfsState :=
  match fuel with
  | 0 => None
  | S f =>
      let path' := path ++ [node] in
      let st1 := mkDfs (cycles st) (JsSet.add (visited st) node)
                       (JsSet.add (recStack st) node) in
      match dfsNeighbors (dfs f graph) path' (neighborsOf graph node) st1 with
      | Some st2 =>
          Some (mkDfs (cycles st2) (visited st2) (JsSet.delete (recStack st2) node))
      | None => None
      end
  end.

(** Every node the search can reach: the keys and all the neighbours. *)
Definition universe (graph : Graph) : list string :=
  JsMap.keys graph ++ List.concat (map snd graph).

(** The loop over [graph.keys()]. *)
Fixpoint dfsRoots (fuel : nat) (graph : Graph) (roots : list string)
         (st : dfsState) : option dfsState :=
  match roots with
  | [] => Some st
  | node :: rest =>
      if negb (JsSet.has (visited st) node) then
        match dfs fuel graph node [] st with
        | Some st' => dfsRoots fuel graph rest st'
        | None => None
        end
      else dfsRoots fuel graph rest st
  end.

(** [detectCycles(graph)].  The recursion is at most as deep as there are
    nodes ([detectCycles_total] below shows the bound is never hit). *)
Definition detectCycles (graph : Graph) : option (list (list string)) :=
  match dfsRoots (S (List.length (universe graph))) graph (JsMap.keys graph)
                 (mkDfs [] [] []) with
  | Some st => Some (cycles st)
  | None => None
  end.

(* ====================================================================== *)
(** ** Types and interfaces *)
(* ====================================================================== *)

Module ImportInfo.
Record t : Type := mk { name : string; source : string; line : nat }.
End ImportInfo.

Inductive Kind : Type := KInterface | KType | KEnum | KConst.

Definition Kind_eqb (k1 k2 : Kind) : bool :=
  match k1, k2 with
  | KInterface, KInterface | KType, KType | KEnum, KEnum | KConst, KConst => true
  | _, _ => false
  end.

(** The string a kind prints as in a template literal. *)
Definition Kind_toString (k : Kind) : string :=
  match k with
  | KInterface => "interface"
  | KType => "type"
  | KEnum => "enum"
  | KConst => "const"
  end.

Module PropertyInfo.
Record t : Type := mk { name : string; type : string; optional : bool }.
End PropertyInfo.

Module TypeDefinition.
Record t : Type := mk {
  name : string;
  kind : Kind;
  properties : list PropertyInfo.t;
  rawContent : string;
  line : nat
}.
End TypeDefinition.

Module ParsedContract.
Record t : Type := mk {
  filePath : string;
  imports : list ImportInfo.t;
  types : list TypeDefinition.t
}.
End ParsedContract.

Inductive Severity : Type := SevError | SevWarning.

Inductive Category : Type := CatImport | CatNaming | CatTypeShape | CatCircularDep.

Definition Severity_eqb (s1 s2 : Severity) : bool :=
  match s1, s2 with
  | SevError, SevError | SevWarning, SevWarning => true
  | _, _ => false
  end.

Module VerificationIssue.
Record t : Type := mk {
  severity : Severity;
  category : Category;
  message : string;
  file : string;
  line : option nat;
  suggestion : option string
}.
End VerificationIssue.

Module DependencyNode.
Record t : Type := mk { name : string; dependencies : list string }.
End DependencyNode.

Module Stats.
Record t : Type := mk {
  totalContracts : nat;
  totalTypes : nat;
  totalImports : nat
}.
End Stats.

Module VerificationReport.
Record t : Type := mk {
  timestamp : Z;
  primitivesFile : string;
  contractFiles : list string;
  issues : list VerificationIssue.t;
  stats : Stats.t;
  dependencyGraph : list DependencyNode.t;
  passed : bool
}.
End VerificationReport.

Module SharedPrimitives.
Record t : Type := mk {
  types : JsMap.t TypeDefinition.t;
  filePath : string
}.
End SharedPrimitives.

(* ====================================================================== *)
(** ** Contract parser *)
(* ====================================================================== *)

Module Patterns.
Import Regex.

(** The regular expressions of the parser.  Each comment shows the source
    literal with blanks between its parts; Q stands for the double quote. *)

(** [['Q]] and [[^'Q]] *)
Definition quote : regex :=
  Cls (fun c => Ascii.eqb c "'" || Ascii.eqb c "034").
Definition notQuote : regex :=
  Cls (fun c => negb (Ascii.eqb c "'" || Ascii.eqb c "034")).

(** [[a-zA-Z_$]] and [[a-zA-Z0-9_$]] *)
Definition identStart : regex :=
  Cls (fun c => JsString.isUpper c || JsString.isLower c
                || Ascii.eqb c "_" || Ascii.eqb c "$").
Definition identPart : regex :=
  Cls (fun c => JsString.isUpper c || JsString.isLower c || JsString.isDigit c
                || Ascii.eqb c "_" || Ascii.eqb c "$").

(** [/import \s* \{ ([^}]+) \} \s* from \s* ['Q] ([^'Q]+) ['Q] /gs] *)
Definition importRegex : regex :=
  seq [lit "import"; Star space; chr "{"; Grp 1 (plus (notChr "}")); chr "}";
       Star space; lit "from"; Star space; quote; Grp 2 (plus notQuote); quote].

(** [/\/\/[^\n]*/g] *)
Definition lineComment : regex := seq [lit "//"; Star (notChr "010")].

(** [/\/\*[\s\S]*?\*\//g] *)
Definition blockComment : regex := seq [lit "/*"; StarLazy anyChar; lit "*/"].

(** [/\s+/g] *)
Definition spaces : regex := plus space.

(** [/^[a-zA-Z_$][a-zA-Z0-9_$]*/] *)
Definition identPrefix : regex := seq [Bol; identStart; Star identPart].

(** [/\s+as\s+\w+/] *)
Definition asAlias : regex := seq [plus space; lit "as"; plus space; plus word].

(** [/^[a-zA-Z_$][a-zA-Z0-9_$]*$/] *)
Definition identifier : regex := seq [Bol; identStart; Star identPart; Eol].

(** [(?:<[^>]+>)?] *)
Definition typeParams : regex := opt (seq [chr "<"; plus (notChr ">"); chr ">"]).

(** [/export \s+ interface \s+ (\w+) (?:<[^>]+>)? (?:\s+extends\s+[^{]+)?
      \s* \{ ( [^}]* (?: \{ [^}]* \} [^}]* )* ) \} /gs] *)
Definition interfaceRegex : regex :=
  seq [lit "export"; plus space; lit "interface"; plus space; Grp 1 (plus word);
       typeParams;
       opt (seq [plus space; lit "extends"; plus space; plus (notChr "{")]);
       Star space; chr "{";
       Grp 2 (seq [Star (notChr "}");
                   Star (seq [chr "{"; Star (notChr "}"); chr "}"; Star (notChr "}")])]);
       chr "}"].

(** [/export\s+type\s+(\w+)(?:<[^>]+>)?\s*=\s*([^;]+);/g] *)
Definition typeRegex : regex :=
  seq [lit "export"; plus space; lit "type"; plus space; Grp 1 (plus word);
       typeParams; Star space; chr "="; Star space; Grp 2 (plus (notChr ";")); chr ";"].

(** [/export\s+enum\s+(\w+)\s*\{([^}]+)\}/g] *)
Definition enumRegex : regex :=
  seq [lit "export"; plus space; lit "enum"; plus space; Grp 1 (plus word);
       Star space; chr "{"; Grp 2 (plus (notChr "}")); chr "}"].

(** [/export\s+const\s+(\w+)\s*=\s*\{/g] *)
Definition constRegex : regex :=
  seq [lit "export"; plus space; lit "const"; plus space; Grp 1 (plus word);
       Star space; chr "="; Star space; chr "{"].

(** [/(\w+)(\?)?:\s*([^;]+);/g] *)
Definition propRegex : regex :=
  seq [Grp 1 (plus word); opt (Grp 2 (chr "?")); chr ":"; Star space;
       Grp 3 (plus (notChr ";")); chr ";"].

End Patterns.

(** [line = startLine + lineOffset], with [lineOffset] the number of line
    feeds of [code] before the match. *)
Definition lineOf (code : string) (startLine : nat) (m : Regex.result) : nat :=
  startLine + JsString.countNewlines (Regex.before code m).

Definition nonEmpty (s : string) : bool := negb (String.eqb s "").

Definition extractImports (code : string) (startLine : nat) : list ImportInfo.t :=
  flat_map
    (fun m =>
       let source := Regex.group' code m 2 in
       let line := lineOf code startLine m in
       let importContent :=
         Regex.replaceAll Patterns.blockComment
           (Regex.replaceAll Patterns.lineComment (Regex.group' code m 1) "") "" in
       let importedItems :=
         filter (Regex.test Patterns.identPrefix)
           (map (fun s => Regex.replaceAll Patterns.spaces s " ")
              (filter nonEmpty
                 (map JsString.trim (JsString.split "," importContent)))) in
       flat_map
         (fun name =>
            let cleanName := JsString.trim (Regex.replaceFirst Patterns.asAlias name "") in
            if nonEmpty cleanName && Regex.test Patterns.identifier cleanName
            then [ImportInfo.mk cleanName source line]
            else [])
         importedItems)
    (Regex.execAll Patterns.importRegex code).

Definition extractProperties (body : string) : list PropertyInfo.t :=
  map
    (fun m =>
       PropertyInfo.mk (Regex.group' body m 1)
                       (JsString.trim (Regex.group' body m 3))
                       (match Regex.group body m 2 with
                        | Some q => String.eqb q "?"
                        | None => false
                        end))
    (Regex.execAll Patterns.propRegex body).

Definition extractTypes (code : string) (startLine : nat) : list TypeDefinition.t :=
  (* Extract interfaces *)
  map (fun m =>
         TypeDefinition.mk (Regex.group' code m 1) KInterface
                           (extractProperties (Regex.group' code m 2))
                           (Regex.whole code m) (lineOf code startLine m))
      (Regex.execAll Patterns.interfaceRegex code)
  (* Extract type aliases *)
  ++ map (fun m =>
            TypeDefinition.mk (Regex.group' code m 1) KType []
                              (Regex.whole code m) (lineOf code startLine m))
         (Regex.execAll Patterns.typeRegex code)
  (* Extract enums *)
  ++ map (fun m =>
            let enumValues :=
              filter (fun v => nonEmpty (PropertyInfo.name v))
                (map (fun v =>
                        let parts := JsString.split "=" (JsString.trim v) in
                        PropertyInfo.mk (JsString.trim (hd "" parts)) "enum-value" false)
                   (JsString.split "," (Regex.group' code m 2))) in
            TypeDefinition.mk (Regex.group' code m 1) KEnum enumValues
                              (Regex.whole code m) (lineOf code startLine m))
         (Regex.execAll Patterns.enumRegex code)
  (* Extract const declarations *)
  ++ map (fun m =>
            TypeDefinition.mk (Regex.group' code m 1) KConst []
                              (Regex.whole code m) (lineOf code startLine m))
         (Regex.execAll Patterns.constRegex code).

(** The state of the line loop of [parseContract]. *)
Record parseState : Type := mkParse {
  inCodeBlock : bool;
  codeBlockContent : string;
  codeBlockStartLine : nat;
  importsAcc : list ImportInfo.t;
  typesAcc : list TypeDefinition.t
}.

(** One turn of the loop, on line [line] with number [lineNum = i + 1]. *)
Definition parseLine (st : parseState) (lineNum : nat) (line : string) : parseState :=
  let trimmed := JsString.trim line in
  if JsString.startsWith trimmed "```typescript" || JsString.startsWith trimmed "```ts"
  then mkParse true "" lineNum (importsAcc st) (typesAcc st)
  else if String.eqb trimmed "```" && inCodeBlock st
  then mkParse false (codeBlockContent st) (codeBlockStartLine st)
         (importsAcc st ++ extractImports (codeBlockContent st) (codeBlockStartLine st))
         (typesAcc st ++ extractTypes (codeBlockContent st) (codeBlockStartLine st))
  else if inCodeBlock st
  then mkParse true (codeBlockContent st +++ line +++ String "010" "")
         (codeBlockStartLine st) (importsAcc st) (typesAcc st)
  else st.

Fixpoint parseLines (st : parseState) (lineNum : nat) (lines : list string)
  : parseState :=
  match lines with
  | [] => st
  | line :: rest => parseLines (parseLine st lineNum line) (S lineNum) rest
  end.

(** [parseContract] once the file has been read. *)
Definition parseContractContent (filePath content : string) : ParsedContract.t :=
  let lines := JsString.split "010" content in
  let st := parseLines (mkParse false "" 0 [] []) 1 lines in
  ParsedContract.mk filePath (importsAcc st) (typesAcc st).

(** The file system: [None] when [fs.readFileSync] throws. *)
Definition FileSystem : Type := string -> option string.

Definition parseContract (fs : FileSystem) (filePath : string)
  : option ParsedContract.t :=
  match fs filePath with
  | Some content => Some (parseContractContent filePath content)
  | None => None
  end.

(* ====================================================================== *)
(** ** Shared primitives parser *)
(* ====================================================================== *)

Definition typesByNameMap (ts : list TypeDefinition.t) : JsMap.t TypeDefinition.t :=
  fold_left (fun m t => JsMap.set m (TypeDefinition.name t) t) ts [].

Definition parseSharedPrimitives (fs : FileSystem) (filePath : string)
  : option SharedPrimitives.t :=
  match fs filePath with
  | None => None
  | Some content =>
      if JsString.endsWith filePath ".md" then
        match parseContract fs filePath with
        | Some contract =>
            Some (SharedPrimitives.mk (typesByNameMap (ParsedContract.types contract))
                                      filePath)
        | None => None
        end
      else
        Some (SharedPrimitives.mk (typesByNameMap (extractTypes content 1)) filePath)
  end.

(* ====================================================================== *)
(** ** Verification logic *)
(* ====================================================================== *)

(** [path.basename(p)] of Node's POSIX [path] module: the last segment of
    [p], trailing slashes ignored. *)
Module Path.
Fixpoint dropTrailingSlashes (s : string) : string :=
  match s with
  | EmptyString => EmptyString
  | String c r =>
      match dropTrailingSlashes r with
      | EmptyString => if Ascii.eqb c "/" then EmptyString else String c EmptyString
      | r' => String c r'
      end
  end.

Definition basename (p : string) : string :=
  last (JsString.split "/" (dropTrailingSlashes p)) EmptyString.
End Path.

Definition externalLibraries : list string :=
  ["zod"; "express"; "prisma"; "@prisma/client"; "date-fns"; "lodash"].

(** The map from every known type name to the file that declares it. *)
Definition availableTypes (contracts : list ParsedContract.t)
           (primitives : SharedPrimitives.t) : JsMap.t string :=
  fold_left
    (fun m contract =>
       fold_left
         (fun m type => JsMap.set m (TypeDefinition.name type)
                                  (ParsedContract.filePath contract))
         (ParsedContract.types contract) m)
    contracts
    (JsMap.ofEntries
       (map (fun k => (k, SharedPrimitives.filePath primitives))
            (JsMap.keys (SharedPrimitives.types primitives)))).

Definition unresolvedImportIssue (contract : ParsedContract.t) (imp : ImportInfo.t)
  : VerificationIssue.t :=
  VerificationIssue.mk SevError CatImport
    ("Unresolved import: '" +++ ImportInfo.name imp +++ "' from '"
       +++ ImportInfo.source imp +++ "'")
    (ParsedContract.filePath contract)
    (Some (ImportInfo.line imp))
    (Some ("Ensure '" +++ ImportInfo.name imp
             +++ "' is defined in shared primitives or another contract")).

(** Body of the loop over the imports of one contract. *)
Definition importStep (available : JsMap.t string) (contract : ParsedContract.t)
           (issues : list VerificationIssue.t) (imp : ImportInfo.t)
  : list VerificationIssue.t :=
  if JsSet.has externalLibraries (ImportInfo.source imp)
     || JsString.startsWith (ImportInfo.source imp) "@"
  then issues
  else if JsString.startsWith (ImportInfo.source imp) "."
          && negb (JsString.includes (ImportInfo.source imp) "shared")
  then issues
  else if JsMap.has available (ImportInfo.name imp)
  then issues
  else issues ++ [unresolvedImportIssue contract imp].

Definition checkImportResolution (contracts : list ParsedContract.t)
           (primitives : SharedPrimitives.t) : list VerificationIssue.t :=
  let available := availableTypes contracts primitives in
  fold_left
    (fun issues contract =>
       fold_left (importStep available contract) (ParsedContract.imports contract) issues)
    contracts [].

(** Body of the loop over [other] while collecting the dependencies. *)
Definition depStep (contract : ParsedContract.t) (imp : ImportInfo.t)
           (deps : list string) (other : ParsedContract.t) : list string :=
  if String.eqb (ParsedContract.filePath other) (ParsedContract.filePath contract)
  then deps
  else if existsb (fun t => String.eqb (TypeDefinition.name t) (ImportInfo.name imp))
                  (ParsedContract.types other)
  then
    let otherName := Path.basename (ParsedContract.filePath other) in
    if existsb (String.eqb otherName) deps then deps else deps ++ [otherName]
  else deps.

Definition dependenciesOf (contracts : list ParsedContract.t)
           (contract : ParsedContract.t) : list string :=
  fold_left (fun deps imp => fold_left (depStep contract imp) contracts deps)
            (ParsedContract.imports contract) [].

(** The first loop of [checkCircularDependencies]: the graph, by
    [graph.set(contractName, deps)], and the nodes of the report.  The graph
    is keyed by the base name of the file: a later contract with the same
    base name replaces the dependencies of the earlier one. *)
Definition buildGraph (contracts : list ParsedContract.t)
  : Graph * list DependencyNode.t :=
  fold_left
    (fun '(graph, nodes) contract =>
       let deps := dependenciesOf contracts contract in
       let contractName := Path.basename (ParsedContract.filePath contract) in
       (JsMap.set graph contractName deps,
        nodes ++ [DependencyNode.mk contractName deps]))
    contracts ([], []).

Definition circularIssue (cycle : list string) : VerificationIssue.t :=
  VerificationIssue.mk SevError CatCircularDep
    ("Circular dependency detected: " +++ JsString.join " -> " cycle)
    (hd "" cycle)
    None
    (Some "Refactor to break the circular dependency, possibly by extracting shared types to primitives").

(** [detectCycles] always returns ([detectCycles_total]); the [None] branch
    is never taken. *)
Definition checkCircularDependencies (contracts : list ParsedContract.t)
  : list DependencyNode.t * list VerificationIssue.t :=
  let '(graph, nodes) := buildGraph contracts in
  let cycles := match detectCycles graph with Some cs => cs | None => [] end in
  (nodes, map circularIssue cycles).

(** *** Naming consistency *)

Module NameEntry.
Record t : Type := mk { name : string; file : string; line : nat }.
End NameEntry.

Definition allTypeNames (contracts : list ParsedContract.t)
           (primitives : SharedPrimitives.t) : list NameEntry.t :=
  map (fun '(name, type) =>
         NameEntry.mk name (SharedPrimitives.filePath primitives)
                      (TypeDefinition.line type))
      (SharedPrimitives.types primitives)
  ++ flat_map
       (fun contract =>
          map (fun type =>
                 NameEntry.mk (TypeDefinition.name type)
                              (ParsedContract.filePath contract)
                              (TypeDefinition.line type))
              (ParsedContract.types contract))
       contracts.

(** [/^PRE\w+POST$/] *)
Definition wordsBetween (pre post : string) : Regex.regex :=
  Regex.seq [Regex.Bol; Regex.lit pre; Regex.plus Regex.word; Regex.lit post; Regex.Eol].

Definition expectedPatternPairs : list (Regex.regex * Regex.regex) :=
  [ (wordsBetween "Create" "Input", wordsBetween "Update" "Input");
    (wordsBetween "Create" "Request", wordsBetween "Update" "Request");
    (wordsBetween "Create" "Response", wordsBetween "Update" "Response");
    (wordsBetween "" "Id", wordsBetween "" "Ref");
    (wordsBetween "" "Id", wordsBetween "" "Id");
    (wordsBetween "" "Ref", wordsBetween "" "Ref");
    (wordsBetween "" "Score", wordsBetween "" "Scores");
    (wordsBetween "I" "Service", wordsBetween "I" "Repository") ].

Definition recognizedSuffixes : list string :=
  ["Id"; "Ref"; "Input"; "Output"; "Request"; "Response"; "Type"; "Status";
   "Score"; "Scores"].

(** [/(Id|Ref|Input|Output|Request|Response|Type|Status|Score|Scores)$/] *)
Definition suffixRegex : Regex.regex :=
  Regex.seq [Regex.Grp 1 (Regex.alts (map Regex.lit recognizedSuffixes)); Regex.Eol].

Definition stripSuffix (n : string) : string := Regex.replaceFirst suffixRegex n "".

Definition isExpectedPair (n1 n2 : string) : bool :=
  existsb
    (fun '(pattern1, pattern2) =>
       (Regex.test pattern1 n1 && Regex.test pattern2 n2)
       || (Regex.test pattern2 n1 && Regex.test pattern1 n2))
    expectedPatternPairs
  || String.eqb (stripSuffix n1) (stripSuffix n2).

(** [allTypeNames.find(t => t.name === n)!]: the name is always found, since
    the names compared are those of [allTypeNames]. *)
Definition findEntry (entries : list NameEntry.t) (n : string) : NameEntry.t :=
  match find (fun t => String.eqb (NameEntry.name t) n) entries with
  | Some t => t
  | None => NameEntry.mk n "" 0
  end.

Set Warnings "-inexact-float".
Definition namingThreshold : float := 0.85%float.
Definition defaultThreshold : float := 0.8%float.
Set Warnings "inexact-float".

Definition similarNamesIssue (entries : list NameEntry.t)
           (pair : string * string * float) : VerificationIssue.t :=
  let '(name1, name2, ratio) := pair in
  let type1 := findEntry entries name1 in
  let type2 := findEntry entries name2 in
  VerificationIssue.mk SevWarning CatNaming
    ("Similar names detected: '" +++ name1 +++ "' and '" +++ name2 +++ "' ("
       +++ JsNumber.roundToString (ratio * 100)%float +++ "% similar)")
    (NameEntry.file type1)
    (Some (NameEntry.line type1))
    (Some ("Consider standardizing to one name. Found in: " +++ NameEntry.file type1
             +++ " and " +++ NameEntry.file type2)).

(** The similar pairs that get a warning: those not skipped by
    [if (isExpectedPair(name1, name2)) continue]. *)
Definition reportedPairs (names : list string) : list (string * string * float) :=
  filter (fun '(name1, name2, _) => negb (isExpectedPair name1 name2))
         (findSimilarNames names namingThreshold).

(** [/Ref$/] *)
Definition refSuffix : Regex.regex := Regex.seq [Regex.lit "Ref"; Regex.Eol].

Definition orphanRefIssue (contract : ParsedContract.t) (type : TypeDefinition.t)
           (entityName : string) : VerificationIssue.t :=
  VerificationIssue.mk SevWarning CatNaming
    ("Reference type '" +++ TypeDefinition.name type
       +++ "' has no corresponding full entity '" +++ entityName +++ "'")
    (ParsedContract.filePath contract)
    (Some (TypeDefinition.line type))
    (Some ("Consider defining '" +++ entityName
             +++ "' or renaming if this is not a reference type")).

(** Body of the second loop: issues and [warnedRefTypes] are threaded. *)
Definition refStep (entries : list NameEntry.t) (primitives : SharedPrimitives.t)
           (contract : ParsedContract.t)
           (st : list VerificationIssue.t * JsSet.t) (type : TypeDefinition.t)
  : list VerificationIssue.t * JsSet.t :=
  let '(issues, warnedRefTypes) := st in
  if JsString.endsWith (TypeDefinition.name type) "Ref"
     && Kind_eqb (TypeDefinition.kind type) KInterface
  then
    if JsSet.has warnedRefTypes (TypeDefinition.name type) then st
    else
      let entityName := Regex.replaceFirst refSuffix (TypeDefinition.name type) "" in
      let hasFullEntity :=
        existsb (fun t => String.eqb (NameEntry.name t) entityName) entries in
      let inPrimitives := JsMap.has (SharedPrimitives.types primitives) entityName in
      if negb hasFullEntity && negb inPrimitives
      then (issues ++ [orphanRefIssue contract type entityName],
            JsSet.add warnedRefTypes (TypeDefinition.name type))
      else st
  else st.

Definition checkNamingConsistency (contracts : list ParsedContract.t)
           (primitives : SharedPrimitives.t) : list VerificationIssue.t :=
  let entries := allTypeNames contracts primitives in
  let names := map NameEntry.name entries in
  let issues := map (similarNamesIssue entries) (reportedPairs names) in
  fst (fold_left
         (fun st contract =>
            fold_left (refStep entries primitives contract)
                      (ParsedContract.types contract) st)
         contracts (issues, [])).

(** *** Type shape compatibility *)

(** [/\s+/g] removed after lower-casing. *)
Definition normalize (t : string) : string :=
  Regex.replaceAll Patterns.spaces (JsString.toLowerCase t) "".

Definition equivalences : list (string * string) :=
  [("string", "String"); ("number", "Number"); ("boolean", "Boolean");
   ("Date", "string")].

Definition areTypesCompatible (type1 type2 : string) : bool :=
  if String.eqb (normalize type1) (normalize type2) then true
  else
    existsb
      (fun '(a, b) =>
         (String.eqb type1 a && String.eqb type2 b)
         || (String.eqb type1 b && String.eqb type2 a))
      equivalences.

(** One entry of [typesByName]: [{ type, file }]. *)
Module Definition_.
Record t : Type := mk { type : TypeDefinition.t; file : string }.
End Definition_.

(** [typesByName]: one single-entry array per primitive, then every contract
    type pushed onto the array of its name. *)
Definition typesByName (contracts : list ParsedContract.t)
           (primitives : SharedPrimitives.t) : JsMap.t (list Definition_.t) :=
  fold_left
    (fun m contract =>
       fold_left
         (fun m type =>
            let d := Definition_.mk type (ParsedContract.filePath contract) in
            let name := TypeDefinition.name type in
            match JsMap.get m name with
            | Some ds => JsMap.set m name (ds ++ [d])
            | None => JsMap.set m name [d]
            end)
         (ParsedContract.types contract) m)
    contracts
    (fold_left
       (fun m '(name, type) =>
          JsMap.set m name [Definition_.mk type (SharedPrimitives.filePath primitives)])
       (SharedPrimitives.types primitives) []).

(** [new Map(type.properties.map(p => [p.name, p]))] *)
Definition propsMap (t : TypeDefinition.t) : JsMap.t PropertyInfo.t :=
  JsMap.ofEntries (map (fun p => (PropertyInfo.name p, p)) (TypeDefinition.properties t)).

Definition missingPropertyIssue (name : string) (baseline current : Definition_.t)
           (propName : string) (prop : PropertyInfo.t) : VerificationIssue.t :=
  VerificationIssue.mk SevError CatTypeShape
    ("Type '" +++ name +++ "' is missing property '" +++ propName +++ "' in "
       +++ Definition_.file current)
    (Definition_.file current)
    (Some (TypeDefinition.line (Definition_.type current)))
    (Some ("Add property '" +++ propName +++ ": " +++ PropertyInfo.type prop
             +++ "' to match " +++ Definition_.file baseline)).

Definition typeMismatchIssue (name : string) (baseline current : Definition_.t)
           (propName : string) (baseProp prop : PropertyInfo.t) : VerificationIssue.t :=
  VerificationIssue.mk SevError CatTypeShape
    ("Type mismatch for '" +++ name +++ "." +++ propName +++ "': '"
       +++ PropertyInfo.type baseProp +++ "' in " +++ Definition_.file baseline
       +++ " vs '" +++ PropertyInfo.type prop +++ "' in " +++ Definition_.file current)
    (Definition_.file current)
    (Some (TypeDefinition.line (Definition_.type current)))
    (Some ("Ensure '" +++ propName +++ "' has consistent type across all definitions")).

Definition optionalityWord (optional : bool) : string :=
  if optional then "optional" else "required".

Definition optionalityIssue (name : string) (baseline current : Definition_.t)
           (propName : string) (baseProp prop : PropertyInfo.t) : VerificationIssue.t :=
  VerificationIssue.mk SevWarning CatTypeShape
    ("Optionality mismatch for '" +++ name +++ "." +++ propName +++ "': "
       +++ optionalityWord (PropertyInfo.optional baseProp) +++ " in "
       +++ Definition_.file baseline +++ " vs "
       +++ optionalityWord (PropertyInfo.optional prop) +++ " in "
       +++ Definition_.file current)
    (Definition_.file current)
    (Some (TypeDefinition.line (Definition_.type current)))
    (Some ("Ensure '" +++ propName +++ "' has consistent optionality")).

(** The first inner loop: baseline properties the current definition lacks. *)
Definition missingIssues (name : string) (baseline current : Definition_.t)
  : list VerificationIssue.t :=
  let currentProps := propsMap (Definition_.type current) in
  flat_map
    (fun '(propName, prop) =>
       if negb (JsMap.has currentProps propName)
       then [missingPropertyIssue name baseline current propName prop]
       else [])
    (propsMap (Definition_.type baseline)).

(** The second inner loop: properties of the current definition against the
    baseline property of the same name. *)
Definition sharedIssues (name : string) (baseline current : Definition_.t)
  : list VerificationIssue.t :=
  let baselineProps := propsMap (Definition_.type baseline) in
  flat_map
    (fun '(propName, prop) =>
       match JsMap.get baselineProps propName with
       | Some baseProp =>
           (if negb (String.eqb (PropertyInfo.type baseProp) (PropertyInfo.type prop))
               && negb (areTypesCompatible (PropertyInfo.type baseProp)
                                           (PropertyInfo.type prop))
            then [typeMismatchIssue name baseline current propName baseProp prop]
            else [])
           ++ (if negb (Bool.eqb (PropertyInfo.optional baseProp)
                                 (PropertyInfo.optional prop))
               then [optionalityIssue name baseline current propName baseProp prop]
               else [])
       | None => []
       end)
    (propsMap (Definition_.type current)).

(** Body of the loop over [typesByName]. *)
Definition compareDefinitions (name : string) (definitions : list Definition_.t)
  : list VerificationIssue.t :=
  if List.length definitions <=? 1 then []
  else
    let interfaces :=
      filter (fun d => Kind_eqb (TypeDefinition.kind (Definition_.type d)) KInterface)
             definitions in
    match interfaces with
    | baseline :: ((_ :: _) as others) =>
        flat_map
          (fun current => missingIssues name baseline current
                          ++ sharedIssues name baseline current)
          others
    | _ => []
    end.

Definition redefinedIssue (contract : ParsedContract.t) (imp : ImportInfo.t)
           (localDef primitiveDef : TypeDefinition.t) : VerificationIssue.t :=
  VerificationIssue.mk SevError CatTypeShape
    ("Import '" +++ ImportInfo.name imp +++ "' is redefined as "
       +++ Kind_toString (TypeDefinition.kind localDef)
       +++ " but primitives defines it as "
       +++ Kind_toString (TypeDefinition.kind primitiveDef))
    (ParsedContract.filePath contract)
    (Some (TypeDefinition.line localDef))
    (Some "Remove local definition and use the imported type, or rename to avoid conflict").

(** The last loop: imports that the contract declares again. *)
Definition redefinitionIssues (primitives : SharedPrimitives.t)
           (contract : ParsedContract.t) : list VerificationIssue.t :=
  flat_map
    (fun imp =>
       let localDef :=
         find (fun t => String.eqb (TypeDefinition.name t) (ImportInfo.name imp))
              (ParsedContract.types contract) in
       let primitiveDef :=
         JsMap.get (SharedPrimitives.types primitives) (ImportInfo.name imp) in
       match localDef, primitiveDef with
       | Some localDef, Some primitiveDef =>
           if negb (Kind_eqb (TypeDefinition.kind localDef)
                             (TypeDefinition.kind primitiveDef))
           then [redefinedIssue contract imp localDef primitiveDef]
           else []
       | _, _ => []
       end)
    (ParsedContract.imports contract).

Definition checkTypeShapeCompatibility (contracts : list ParsedContract.t)
           (primitives : SharedPrimitives.t) : list VerificationIssue.t :=
  flat_map (fun '(name, definitions) => compareDefinitions name definitions)
           (typesByName contracts primitives)
  ++ flat_map (redefinitionIssues primitives) contracts.

(* ====================================================================== *)
(** ** Report generation *)
(* ====================================================================== *)

Definition isError (i : VerificationIssue.t) : bool :=
  Severity_eqb (VerificationIssue.severity i) SevError.

(** [now] is the value of [new Date()]. *)
Definition generateReport (now : Z) (primitives : SharedPrimitives.t)
           (contracts : list ParsedContract.t) (issues : list VerificationIssue.t)
           (dependencyGraph : list DependencyNode.t) : VerificationReport.t :=
  let errorCount := List.length (filter isError issues) in
  VerificationReport.mk
    now
    (SharedPrimitives.filePath primitives)
    (map ParsedContract.filePath contracts)
    issues
    (Stats.mk
       (List.length contracts)
       (fold_left (fun sum c => sum + List.length (ParsedContract.types c)) contracts 0
        + JsMap.size (SharedPrimitives.types primitives))
       (fold_left (fun sum c => sum + List.length (ParsedContract.imports c)) contracts 0))
    dependencyGraph
    (errorCount =? 0).

(* ====================================================================== *)
(** ** Main verification function *)
(* ====================================================================== *)

Module VerifyContractsOptions.
Record t : Type := mk { primitivesPath : string; contractPaths : list string }.
End VerifyContractsOptions.

(** The loop that parses the contracts; the first unreadable file aborts. *)
Fixpoint parseContracts (fs : FileSystem) (paths : list string)
  : option (list ParsedContract.t) :=
  match paths with
  | [] => Some []
  | p :: rest =>
      match parseContract fs p with
      | None => None
      | Some c =>
          match parseContracts fs rest with
          | None => None
          | Some cs => Some (c :: cs)
          end
      end
  end.

(** The checks, in the order [verifyContracts] runs them. *)
Definition runChecks (now : Z) (primitives : SharedPrimitives.t)
           (contracts : list ParsedContract.t) : VerificationReport.t :=
  let importIssues := checkImportResolution contracts primitives in
  let '(graph, circularIssues) := checkCircularDependencies contracts in
  let allIssues :=
    importIssues ++ circularIssues
    ++ checkNamingConsistency contracts primitives
    ++ checkTypeShapeCompatibility contracts primitives in
  generateReport now primitives contracts allIssues graph.

(** [None] when reading a file throws. *)
Definition verifyContracts (fs : FileSystem) (now : Z)
           (options : VerifyContractsOptions.t) : option VerificationReport.t :=
  match parseSharedPrimitives fs (VerifyContractsOptions.primitivesPath options) with
  | None => None
  | Some primitives =>
      match parseContracts fs (VerifyContractsOptions.contractPaths options) with
      | None => None
      | Some contracts => Some (runChecks now primitives contracts)
      end
  end.

(* ====================================================================== *)
(** ** Service methods, API routes and the command line

    The parts of [parseContract] that no check reads, and the [verify]
    command of the command line, which runs [verifyContracts]. *)
(* ====================================================================== *)

Module ParameterInfo.
Record t : Type := mk { name : string; type : string; optional : bool }.
End ParameterInfo.

Module ServiceMethod.
Record t : Type := mk {
  name : string;
  parameters : list ParameterInfo.t;
  returnType : string;
  line : nat
}.
End ServiceMethod.

(** [requestType] and [responseType] are never set by the parser. *)
Module ApiRoute.
Record t : Type := mk { method : string; path : string; line : nat }.
End ApiRoute.

Module MorePatterns.
Import Regex.

(** [\S] *)
Definition notSpace : regex := Cls (fun c => negb (JsString.isSpace c)).

Definition httpMethods : list string := ["GET"; "POST"; "PUT"; "PATCH"; "DELETE"].

(** [/^ ### \s+ (GET|POST|PUT|PATCH|DELETE) \s+ (\S+) /] *)
Definition routeRegex : regex :=
  seq [Bol; lit "###"; plus space; Grp 1 (alts (map lit httpMethods)); plus space;
       Grp 2 (plus notSpace)].

(** [/export \s+ interface \s+ I \w+ Service \s* \{ ([^]*?) \n \} /] *)
Definition serviceRegex : regex :=
  seq [lit "export"; plus space; lit "interface"; plus space; chr "I"; plus word;
       lit "Service"; Star space; chr "{"; Grp 1 (StarLazy anyChar);
       chr "010"; chr "}"].

(** [/(\w+) \s* \( ( [^)] * ) \) \s* : \s* ([^;]+) ; /g] *)
Definition methodRegex : regex :=
  seq [Grp 1 (plus word); Star space; chr "("; Grp 2 (Star (notChr ")")); chr ")";
       Star space; chr ":"; Star space; Grp 3 (plus (notChr ";")); chr ";"].

(** [/(\w+) (\?)? : \s* ([^,]+) /g] *)
Definition paramRegex : regex :=
  seq [Grp 1 (plus word); opt (Grp 2 (chr "?")); chr ":"; Star space;
       Grp 3 (plus (notChr ","))].

End MorePatterns.

Definition extractParameters (paramsStr : string) : list ParameterInfo.t :=
  if String.eqb (JsString.trim paramsStr) "" then []
  else
    map
      (fun m =>
         ParameterInfo.mk (Regex.group' paramsStr m 1)
                          (JsString.trim (Regex.group' paramsStr m 3))
                          (match Regex.group paramsStr m 2 with
                           | Some q => String.eqb q "?"
                           | None => false
                           end))
      (Regex.execAll MorePatterns.paramRegex paramsStr).

Definition extractServiceMethods (code : string) (startLine : nat)
  : list ServiceMethod.t :=
  match Regex.exec MorePatterns.serviceRegex code with
  | None => []
  | Some interfaceMatch =>
      let body := Regex.group' code interfaceMatch 1 in
      map
        (fun m =>
           ServiceMethod.mk (Regex.group' body m 1)
                            (extractParameters (Regex.group' body m 2))
                            (JsString.trim (Regex.group' body m 3))
                            (lineOf body startLine m))
        (Regex.execAll MorePatterns.methodRegex body)
  end.

(** [None] is [null]. *)
Definition extractApiRoute (line : string) (lineNum : nat) : option ApiRoute.t :=
  match Regex.exec MorePatterns.routeRegex line with
  | None => None
  | Some routeMatch =>
      Some (ApiRoute.mk (Regex.group' line routeMatch 1)
                        (Regex.group' line routeMatch 2) lineNum)
  end.

(** The contract with every list that [parseContract] fills; the title
    ([name]) is left out. *)
Module ContractDetails.
Record t : Type := mk {
  filePath : string;
  imports : list ImportInfo.t;
  types : list TypeDefinition.t;
  serviceMethods : list ServiceMethod.t;
  apiRoutes : list ApiRoute.t
}.
End ContractDetails.

(** The state of the whole line loop of [parseContract]. *)
Record detailState : Type := mkDetail {
  block : parseState;
  methodsAcc : list ServiceMethod.t;
  routesAcc : list ApiRoute.t
}.

(** One turn of the whole loop: the two [continue] branches, then the
    accumulation of the block and the route of the line. *)
Definition detailLine (st : detailState) (lineNum : nat) (line : string) : detailState :=
  let b := block st in
  let trimmed := JsString.trim line in
  if JsString.startsWith trimmed "```typescript" || JsString.startsWith trimmed "```ts"
  then mkDetail (mkParse true "" lineNum (importsAcc b) (typesAcc b))
                (methodsAcc st) (routesAcc st)
  else if String.eqb trimmed "```" && inCodeBlock b
  then mkDetail
         (mkParse false (codeBlockContent b) (codeBlockStartLine b)
            (importsAcc b ++ extractImports (codeBlockContent b) (codeBlockStartLine b))
            (typesAcc b ++ extractTypes (codeBlockContent b) (codeBlockStartLine b)))
         (methodsAcc st
            ++ extractServiceMethods (codeBlockContent b) (codeBlockStartLine b))
         (routesAcc st)
  else
    let b' :=
      if inCodeBlock b
      then mkParse true (codeBlockContent b +++ line +++ String "010" "")
             (codeBlockStartLine b) (importsAcc b) (typesAcc b)
      else b in
    mkDetail b' (methodsAcc st)
      (match extractApiRoute line lineNum with
       | Some apiRoute => routesAcc st ++ [apiRoute]
       | None => routesAcc st
       end).

Fixpoint detailLines (st : detailState) (lineNum : nat) (lines : list string)
  : detailState :=
  match lines with
  | [] => st
  | line :: rest => detailLines (detailLine st lineNum line) (S lineNum) rest
  end.

(** [parseContract] with all its lists, once the file has been read. *)
Definition parseContractDetails (filePath content : string) : ContractDetails.t :=
  let lines := JsString.split "010" content in
  let st := detailLines (mkDetail (mkParse false "" 0 [] []) [] []) 1 lines in
  ContractDetails.mk filePath (importsAcc (block st)) (typesAcc (block st))
                     (methodsAcc st) (routesAcc st).

(** *** The [verify] command

    [existsSync] is [fs.existsSync]; [primitivesPath] is the resolved
    [--primitives] option and [contractPaths] what [glob] returns for the
    [--contracts] pattern.  The result is the exit code of the process: the
    messages printed and the choice between JSON and text do not bear on
    it. *)
Definition verifyCommand (existsSync : string -> bool) (fs : FileSystem) (now : Z)
           (primitivesPath : string) (contractPaths : list string) : nat :=
  if negb (existsSync primitivesPath) then 1
  else if List.length contractPaths =? 0 then 1
  else
    match verifyContracts fs now
            (VerifyContractsOptions.mk primitivesPath contractPaths) with
    | Some report => if VerificationReport.passed report then 0 else 1
    | None => 1   (* the [catch] branch *)
    end.

(* ====================================================================== *)
(** ** Vocabulary of the statements and example inputs *)
(* ====================================================================== *)


(** *** Import resolution *)

(** A type named [n] is declared by the primitives or by some contract. *)
Definition declared (contracts : list ParsedContract.t)
           (primitives : SharedPrimitives.t) (n : string) : Prop :=
  In n (JsMap.keys (SharedPrimitives.types primitives))
  \/ exists c t, In c contracts /\ In t (ParsedContract.types c)
                 /\ TypeDefinition.name t = n.

(** The exemptions [checkImportResolution] applies: the source is on the
    allowlist or starts with [@]; or it starts with a dot and does not
    contain [shared]. *)
Definition isExempt (source : string) : bool :=
  (JsSet.has externalLibraries source || JsString.startsWith source "@")
  || (JsString.startsWith source "." && negb (JsString.includes source "shared")).

(** The exemptions as the specification words them: a source on the
    allowlist, or a same-directory relative path that does not point at the
    shared vocabulary. *)
Definition exemptAsSpecified (source : string) : bool :=
  JsSet.has externalLibraries source
  || (JsString.startsWith source "./" && negb (JsString.includes source "shared")).

Definition importFlagged (available : JsMap.t string) (imp : ImportInfo.t) : bool :=
  negb (isExempt (ImportInfo.source imp))
  && negb (JsMap.has available (ImportInfo.name imp)).

Definition emptyPrimitives : SharedPrimitives.t := SharedPrimitives.mk [] "shared.types.ts".

(** A contract importing an undeclared name from a scoped package. *)
Definition scopedImport : ImportInfo.t := ImportInfo.mk "Foo" "@acme/types" 3.
Definition scopedContract : ParsedContract.t :=
  ParsedContract.mk "ORDER-CONTRACT.md" [scopedImport] [].

(** *** Documents *)

Definition nl : string := String "010" "".

(** The text of a document from its lines. *)
Definition document (lines : list string) : string := JsString.join nl lines.

(** A shared vocabulary in which an import is declared again by a contract
    with another kind. *)
Definition productIdAlias : TypeDefinition.t :=
  TypeDefinition.mk "ProductId" KType [] "export type ProductId = string;" 4.
Definition productIdEnum : TypeDefinition.t :=
  TypeDefinition.mk "ProductId" KEnum
    [PropertyInfo.mk "A" "enum-value" false] "export enum ProductId { A }" 9.
Definition productPrimitives : SharedPrimitives.t :=
  SharedPrimitives.mk [("ProductId", productIdAlias)] "shared.types.ts".
Definition productImport : ImportInfo.t :=
  ImportInfo.mk "ProductId" "../shared/shared.types" 6.
Definition productContract : ParsedContract.t :=
  ParsedContract.mk "PRODUCT-CONTRACT.md" [productImport] [productIdEnum].

(** A shared vocabulary with two names one letter apart. *)
Definition profilesDocument : string :=
  document
    [ "# Shared primitives";
      "";
      "```typescript";
      "export type UserProfile = string;";
      "export type UserProfiles = string[];";
      "export type OrderId = string;";
      "```";
      "" ].

Definition profilesFs : FileSystem :=
  fun path => if String.eqb path "shared-primitives.md" then Some profilesDocument else None.

(** *** Shape comparison *)

(** The definitions of every contract, in document order. *)
Definition contractDefinitions (contracts : list ParsedContract.t)
  : list Definition_.t :=
  flat_map
    (fun c => map (fun t => Definition_.mk t (ParsedContract.filePath c))
                  (ParsedContract.types c))
    contracts.

Definition definitionNamed (n : string) (d : Definition_.t) : bool :=
  String.eqb (TypeDefinition.name (Definition_.type d)) n.

(** All the definitions of the name [n]: the one of the shared vocabulary, if
    any, then those of the contracts in order. *)
Definition definitionsFor (contracts : list ParsedContract.t)
           (primitives : SharedPrimitives.t) (n : string) : list Definition_.t :=
  match JsMap.get (SharedPrimitives.types primitives) n with
  | Some t => [Definition_.mk t (SharedPrimitives.filePath primitives)]
  | None => []
  end
  ++ filter (definitionNamed n) (contractDefinitions contracts).

Definition isInterfaceDefinition (d : Definition_.t) : bool :=
  Kind_eqb (TypeDefinition.kind (Definition_.type d)) KInterface.

(** Scenario 2 of the specification: two contracts declare [UserRef], the
    second with one more field. *)
Definition userRefDocumentA : string :=
  document
    [ "# Accounts Contract";
      "";
      "```typescript";
      "export interface UserRef {";
      "  id: string;";
      "  email: string;";
      "}";
      "```";
      "" ].

Definition userRefDocumentB : string :=
  document
    [ "# Billing Contract";
      "";
      "```typescript";
      "export interface UserRef {";
      "  id: string;";
      "  email: string;";
      "  phone: string;";
      "}";
      "```";
      "" ].

Definition userRefFs : FileSystem :=
  fun path =>
    if String.eqb path "A-CONTRACT.md" then Some userRefDocumentA
    else if String.eqb path "B-CONTRACT.md" then Some userRefDocumentB
    else if String.eqb path "shared.types.ts" then Some ""
    else None.

Definition userRefA : ParsedContract.t :=
  parseContractContent "A-CONTRACT.md" userRefDocumentA.
Definition userRefB : ParsedContract.t :=
  parseContractContent "B-CONTRACT.md" userRefDocumentB.

Definition propertyNames (c : ParsedContract.t) : list (string * list string) :=
  map (fun t => (TypeDefinition.name t,
                 map PropertyInfo.name (TypeDefinition.properties t)))
      (ParsedContract.types c).

Definition missingPropertyMessage (n propName file : string) : string :=
  "Type '" +++ n +++ "' is missing property '" +++ propName +++ "' in " +++ file.

(** [typesByName.get(name).push(d)], creating the array when needed. *)
Definition pushDefinition (m : JsMap.t (list Definition_.t)) (d : Definition_.t)
  : JsMap.t (list Definition_.t) :=
  let name := TypeDefinition.name (Definition_.type d) in
  match JsMap.get m name with
  | Some ds => JsMap.set m name (ds ++ [d])
  | None => JsMap.set m name [d]
  end.

(** The first loop of [checkTypeShapeCompatibility]. *)
Definition primitiveDefinitions (primitives : SharedPrimitives.t)
  : JsMap.t (list Definition_.t) :=
  fold_left
    (fun m '(name, type) =>
       JsMap.set m name [Definition_.mk type (SharedPrimitives.filePath primitives)])
    (SharedPrimitives.types primitives) [].

Definition stringProperty (n : string) : PropertyInfo.t := PropertyInfo.mk n "string" false.

(** What the parser extracts from the two documents. *)
Definition userRefTypeA : TypeDefinition.t :=
  TypeDefinition.mk "UserRef" KInterface
    [stringProperty "id"; stringProperty "email"]
    (document ["export interface UserRef {"; "  id: string;"; "  email: string;"; "}"])
    3.
Definition userRefTypeB : TypeDefinition.t :=
  TypeDefinition.mk "UserRef" KInterface
    [stringProperty "id"; stringProperty "email"; stringProperty "phone"]
    (document ["export interface UserRef {"; "  id: string;"; "  email: string;";
               "  phone: string;"; "}"])
    3.
Definition userRefDefinitionA : Definition_.t := Definition_.mk userRefTypeA "A-CONTRACT.md".
Definition userRefDefinitionB : Definition_.t := Definition_.mk userRefTypeB "B-CONTRACT.md".

(** *** Naming pairs *)

(** The suffixes as the specification lists them: identifier, reference,
    input, output, request, response, type, status, and their plurals. *)
Definition suffixesAsSpecified : list string :=
  ["Id"; "Ref"; "Input"; "Output"; "Request"; "Response"; "Type"; "Status";
   "Ids"; "Refs"; "Inputs"; "Outputs"; "Requests"; "Responses"; "Types"; "Statuses"].

(** [s] without the prefix [p], when it has it. *)
Fixpoint dropPrefix (p s : list ascii) : option (list ascii) :=
  match p, s with
  | [], _ => Some s
  | c :: p', x :: s' => if Ascii.eqb c x then dropPrefix p' s' else None
  | _ :: _, [] => None
  end.

Fixpoint firstSome {A : Type} (xs : list (option A)) : option A :=
  match xs with
  | [] => None
  | Some x :: _ => Some x
  | None :: rest => firstSome rest
  end.

(** A contract declaring a type and its plural. *)
Definition paymentContract : ParsedContract.t :=
  ParsedContract.mk "PAYMENT-CONTRACT.md" []
    [ TypeDefinition.mk "PaymentTypes" KType [] "export type PaymentTypes = PaymentType[];" 5;
      TypeDefinition.mk "PaymentType" KType [] "export type PaymentType = string;" 4 ].

(** *** Dependency graphs *)

(** [u -> v] is an edge of the graph. *)
Definition edge (g : Graph) (u v : string) : Prop := In v (neighborsOf g u).

(** Consecutive nodes of [path] are joined by edges. *)
Fixpoint chain (g : Graph) (path : list string) : Prop :=
  match path with
  | u :: ((v :: _) as rest) => edge g u v /\ chain g rest
  | _ => True
  end.

(** A cycle of the graph, written as [detectCycles] reports it: a walk along
    at least one edge that ends on the node it starts from. *)
Definition closedWalk (g : Graph) (c : list string) : Prop :=
  exists v mid, c = v :: mid ++ [v] /\ chain g c.

Definition acyclic (g : Graph) : Prop := forall c, ~ closedWalk g c.

(** The nodes of the universe not visited yet: the measure of the search. *)
Definition unvisited (g : Graph) (st : dfsState) : list string :=
  filter (fun x => negb (JsSet.has (visited st) x)) (universe g).

(** The graph A -> B -> C -> A, and the orders in which a [Map] can hold its
    three keys. *)
Definition triangleOrders (a b c : string) : list Graph :=
  [ [(a, [b]); (b, [c]); (c, [a])];
    [(a, [b]); (c, [a]); (b, [c])];
    [(b, [c]); (a, [b]); (c, [a])];
    [(b, [c]); (c, [a]); (a, [b])];
    [(c, [a]); (a, [b]); (b, [c])];
    [(c, [a]); (b, [c]); (a, [b])] ].

(** A graph without cycle: a diamond with a tail. *)
Definition diamond : Graph :=
  [ ("orders.md", ["users.md"; "products.md"]);
    ("users.md", ["common.md"]);
    ("products.md", ["common.md"; "pricing.md"]);
    ("common.md", []) ].

Definition diamondRank (n : string) : nat :=
  if String.eqb n "orders.md" then 3
  else if String.eqb n "users.md" then 2
  else if String.eqb n "products.md" then 2
  else if String.eqb n "common.md" then 1
  else 0.

(** *** Edit distance *)

(** The recurrence the matrix implements, on the prefixes read so far (most
    recent character first): [editDistance rb ra] is the cell of the row of
    [rb] in the column of [ra]. *)
Fixpoint editDistance (rb : list ascii) : list ascii -> nat :=
  match rb with
  | [] => fun ra => List.length ra
  | bc :: rb' =>
      fix inner (ra : list ascii) : nat :=
        match ra with
        | [] => S (List.length rb')
        | ac :: ra' =>
            cell bc ac (editDistance rb' ra') (inner ra') (editDistance rb' ra)
        end
  end.

(** The row of [rb] from the column of [ra] on, [rest] being the characters
    of [a] still to come. *)
Fixpoint rowFrom (rb ra rest : list ascii) : list nat :=
  editDistance rb ra ::
  match rest with
  | [] => []
  | c :: rest' => rowFrom rb (c :: ra) rest'
  end.

(** *** Similar names *)

(** A declared name, as the extractor captures it with [(\w+)]. *)
Definition isIdentifierName (n : string) : bool :=
  forallb JsString.isWord (list_ascii_of_string n).


(** The similarity of two names, compared without case. *)
Definition nameSimilarity (name1 name2 : string) : float :=
  similarityRatio (JsString.toLowerCase name1) (JsString.toLowerCase name2).




Definition keyOf (e : string * string * float) : string :=
  pairKey (fst (fst e)) (snd (fst e)).



(** The names the naming check collects. *)
Definition declaredNames (contracts : list ParsedContract.t)
           (primitives : SharedPrimitives.t) : list string :=
  map NameEntry.name (allTypeNames contracts primitives).

(** A contract with two names one letter apart that no pattern pairs. *)
Definition customerDocument : string :=
  document
    [ "# Customer Contract";
      "";
      "```typescript";
      "export interface CustomerProfile {";
      "  id: string;";
      "}";
      "";
      "export type Order = string;";
      "export type CustomerProfiles = CustomerProfile[];";
      "```";
      "" ].

Definition customerFs : FileSystem :=
  fun path =>
    if String.eqb path "CUSTOMER-CONTRACT.md" then Some customerDocument
    else if String.eqb path "shared.types.ts" then Some ""
    else None.

Definition customerContract : ParsedContract.t :=
  parseContractContent "CUSTOMER-CONTRACT.md" customerDocument.

(** *** Line numbers *)

(** A contract with one fenced region: the import is on line 4 of the
    document and the interface on line 6. *)
Definition ordersDocument : string :=
  document
    [ "# Orders Contract";
      "";
      "```typescript";
      "import { OrderId } from '../shared/shared.types';";
      "";
      "export interface Order {";
      "  id: OrderId;";
      "}";
      "```";
      "" ].

(** A plain TypeScript vocabulary: the declarations are on lines 1 and 3. *)
Definition sharedTypesSource : string :=
  document
    [ "export type OrderId = string;";
      "";
      "export enum OrderStatus { Open, Paid, Shipped, Closed }";
      "" ].

(** Line [n] of a document, counted from 1. *)
Definition lineAt (content : string) (n : nat) : option string :=
  nth_error (JsString.split "010" content) (n - 1).

Definition importLines (c : ParsedContract.t) : list (string * nat) :=
  map (fun i => (ImportInfo.name i, ImportInfo.line i)) (ParsedContract.imports c).

Definition typeLines (ts : list TypeDefinition.t) : list (string * nat) :=
  map (fun t => (TypeDefinition.name t, TypeDefinition.line t)) ts.

(** Two names at the boundary: 20 letters, 3 of them different. *)
Definition boundaryNameA : string := "AbcdefghijklmnopqRST".
Definition boundaryNameB : string := "AbcdefghijklmnopqXYZ".

(** *** What a regular expression matches *)

(** [matches r pos w cs]: the expression [r] can match the word [w] at offset
    [pos], recording the captures [cs] (latest first). *)
Inductive matches : Regex.regex -> nat -> list ascii -> Regex.caps -> Prop :=
| M_Eps pos : matches Regex.Eps pos [] []
| M_Cls p pos c : p c = true -> matches (Regex.Cls p) pos [c] []
| M_Cat r1 r2 pos w1 w2 c1 c2 :
    matches r1 pos w1 c1 -> matches r2 (pos + List.length w1) w2 c2 ->
    matches (Regex.Cat r1 r2) pos (w1 ++ w2) (c2 ++ c1)
| M_AltL r1 r2 pos w c : matches r1 pos w c -> matches (Regex.Alt r1 r2) pos w c
| M_AltR r1 r2 pos w c : matches r2 pos w c -> matches (Regex.Alt r1 r2) pos w c
| M_StarNil r pos : matches (Regex.Star r) pos [] []
| M_StarCons r pos w1 w2 c1 c2 :
    matches r pos w1 c1 -> matches (Regex.Star r) (pos + List.length w1) w2 c2 ->
    matches (Regex.Star r) pos (w1 ++ w2) (c2 ++ c1)
| M_LazyNil r pos : matches (Regex.StarLazy r) pos [] []
| M_LazyCons r pos w1 w2 c1 c2 :
    matches r pos w1 c1 -> matches (Regex.StarLazy r) (pos + List.length w1) w2 c2 ->
    matches (Regex.StarLazy r) pos (w1 ++ w2) (c2 ++ c1)
| M_Grp n r pos w c :
    matches r pos w c ->
    matches (Regex.Grp n r) pos w ((n, (pos, pos + List.length w)) :: c)
| M_Bol pos : matches Regex.Bol pos [] []
| M_Eol pos : matches Regex.Eol pos [] [].

(** The bodies of the capturing groups numbered [n] inside an expression. *)
Fixpoint groupBodies (n : nat) (r : Regex.regex) : list Regex.regex :=
  match r with
  | Regex.Cat r1 r2 | Regex.Alt r1 r2 => groupBodies n r1 ++ groupBodies n r2
  | Regex.Star r1 | Regex.StarLazy r1 => groupBodies n r1
  | Regex.Grp m r1 => (if m =? n then [r1] else []) ++ groupBodies n r1
  | _ => []
  end.

(** A match of [r] inside the input [full]. *)
Definition matchOf (r : Regex.regex) (full : list ascii) (m : Regex.result) : Prop :=
  exists pre w post,
    full = pre ++ w ++ post
    /\ Regex.index m = List.length pre
    /\ Regex.stop m = Regex.index m + List.length w
    /\ matches r (Regex.index m) w (Regex.groups m).

(** The matcher is sound for [r]: whatever it returns comes from the
    continuation, called after a word that [r] matches. *)
Definition runSound (R : Type) (r : Regex.regex) : Prop :=
  forall s pos cs (k : list ascii -> nat -> Regex.caps -> option R) x,
    Regex.run r s pos cs k = Some x ->
    exists w s' c,
      s = w ++ s' /\ matches r pos w c
      /\ k s' (pos + List.length w) (c ++ cs) = Some x.

(** *** The search, seen from its end *)

(** A node the search is done with: visited and no longer on the recursion
    stack. *)
Definition finished (st : dfsState) (x : string) : Prop :=
  In x (visited st) /\ ~ In x (recStack st).

(** The edges out of finished nodes lead to finished nodes of lower rank. *)
Definition settled (g : Graph) (st : dfsState) : Prop :=
  exists rank : string -> nat,
    forall u v, finished st u -> edge g u v -> finished st v /\ rank v < rank u.

(** The largest rank among [ns]. *)
Definition maxRank (rank : string -> nat) (ns : list string) : nat :=
  fold_right (fun n m => Nat.max (rank n) m) 0 ns.

(** *** Edit scripts *)

(** [script a b n]: [a] is turned into [b] by [n] single-character
    insertions, deletions and substitutions, read from left to right. *)
Inductive script : list ascii -> list ascii -> nat -> Prop :=
| script_nil : script [] [] 0
| script_keep c a b n : script a b n -> script (c :: a) (c :: b) n
| script_substitute c d a b n : script a b n -> script (c :: a) (d :: b) (S n)
| script_delete c a b n : script a b n -> script (c :: a) b (S n)
| script_insert d a b n : script a b n -> script a (d :: b) (S n).

(** *** Identifiers and captures *)

(** A JavaScript identifier as the import filter accepts it: a letter, [_]
    or [$], then letters, digits, [_] or [$]. *)
Definition isIdentStart (c : ascii) : bool :=
  JsString.isUpper c || JsString.isLower c || Ascii.eqb c "_" || Ascii.eqb c "$".

Definition isIdentPart (c : ascii) : bool :=
  JsString.isUpper c || JsString.isLower c || JsString.isDigit c
  || Ascii.eqb c "_" || Ascii.eqb c "$".

Definition isJsIdentifier (s : string) : bool :=
  match list_ascii_of_string s with
  | [] => false
  | c :: rest => isIdentStart c && forallb isIdentPart rest
  end.

Definition isQuote (c : ascii) : bool := Ascii.eqb c "'" || Ascii.eqb c "034".

(** The groups that take part in every match of an expression. *)
Fixpoint mustGroups (r : Regex.regex) : list nat :=
  match r with
  | Regex.Cat r1 r2 => mustGroups r1 ++ mustGroups r2
  | Regex.Alt r1 r2 => filter (fun n => existsb (Nat.eqb n) (mustGroups r2)) (mustGroups r1)
  | Regex.Grp n r1 => n :: mustGroups r1
  | _ => []
  end.

(** An import over four lines, with an alias and a type-only item. *)
Definition aliasedImportCode : string :=
  document ["// shared"; "import {"; "  Money as Amount,"; "  type Currency";
            "} from '../shared/types';"].

(** *** Shapes of the extracted declarations *)

(** A member of an enumeration as [extractTypes] records it. *)
Definition isEnumMember (p : PropertyInfo.t) : bool :=
  nonEmpty (PropertyInfo.name p)
  && String.eqb (PropertyInfo.type p) "enum-value"
  && negb (PropertyInfo.optional p).

(** A non-empty name made of the characters of [\w]. *)
Definition isWordName (n : string) : bool := nonEmpty n && isIdentifierName n.

(** The properties recorded for a declaration fit its kind. *)
Definition propertiesFitKind (t : TypeDefinition.t) : bool :=
  match TypeDefinition.kind t with
  | KInterface =>
      forallb (fun p => isWordName (PropertyInfo.name p)) (TypeDefinition.properties t)
  | KEnum => forallb isEnumMember (TypeDefinition.properties t)
  | KType | KConst =>
      match TypeDefinition.properties t with [] => true | _ :: _ => false end
  end.

(** *** Fences *)

(** The line opens a TypeScript block; the line closes a block. *)
Definition isOpener (line : string) : bool :=
  JsString.startsWith (JsString.trim line) "```typescript"
  || JsString.startsWith (JsString.trim line) "```ts".

Definition isCloser (line : string) : bool := String.eqb (JsString.trim line) "```".

(** The content of a block, as the loop accumulates it: every line followed
    by a line feed. *)
Definition blockCode (body : list string) : string :=
  fold_left (fun code line => code +++ line +++ nl) body "".

(** A contract whose only block is never closed. *)
Definition unclosedDocument : string :=
  document ["# Orders"; "```typescript"; "export type OrderId = string;"; ""].

(** *** Runs *)

(** The file can be read. *)
Definition readable (fs : FileSystem) (path : string) : Prop := fs path <> None.

(** *** Dependencies *)


(** *** Agreeing definitions *)

Definition sameProperty (p q : PropertyInfo.t) : bool :=
  String.eqb (PropertyInfo.name p) (PropertyInfo.name q)
  && String.eqb (PropertyInfo.type p) (PropertyInfo.type q)
  && Bool.eqb (PropertyInfo.optional p) (PropertyInfo.optional q).

Fixpoint sameProperties (ps qs : list PropertyInfo.t) : bool :=
  match ps, qs with
  | [], [] => true
  | p :: ps', q :: qs' => sameProperty p q && sameProperties ps' qs'
  | _, _ => false
  end.

(** Every definition the shape check looks at, under the name it is filed
    under: those of the shared vocabulary, then those of the contracts. *)
Definition keyedDefinitions (contracts : list ParsedContract.t)
           (primitives : SharedPrimitives.t) : list (string * Definition_.t) :=
  map (fun '(name, type) =>
         (name, Definition_.mk type (SharedPrimitives.filePath primitives)))
      (SharedPrimitives.types primitives)
  ++ map (fun d => (TypeDefinition.name (Definition_.type d), d))
         (contractDefinitions contracts).

(** The interface definitions filed under one name all list the same
    properties. *)
Definition interfacesAgree (contracts : list ParsedContract.t)
           (primitives : SharedPrimitives.t) : bool :=
  let all := keyedDefinitions contracts primitives in
  forallb
    (fun e =>
       forallb
         (fun e' =>
            implb (String.eqb (fst e) (fst e')
                   && isInterfaceDefinition (snd e) && isInterfaceDefinition (snd e'))
                  (sameProperties
                     (TypeDefinition.properties (Definition_.type (snd e)))
                     (TypeDefinition.properties (Definition_.type (snd e')))))
         all)
    all.

(** Two contracts that declare the same interface. *)
Definition accountsContract : ParsedContract.t :=
  ParsedContract.mk "ACCOUNTS-CONTRACT.md" [] [userRefTypeA].
Definition billingContract : ParsedContract.t :=
  ParsedContract.mk "BILLING-CONTRACT.md" [] [userRefTypeA].

(** *** Reference types without entity *)

(** [name.replace(/Ref$/, '')] *)
Definition entityName (n : string) : string := Regex.replaceFirst refSuffix n "".

(** The name is declared by the shared vocabulary or by a contract. *)
Definition declaredAnywhere (contracts : list ParsedContract.t)
           (primitives : SharedPrimitives.t) (n : string) : bool :=
  existsb (fun e => String.eqb (NameEntry.name e) n) (allTypeNames contracts primitives)
  || JsMap.has (SharedPrimitives.types primitives) n.

(** An interface named [...Ref] whose entity is declared nowhere. *)
Definition isOrphanRef (contracts : list ParsedContract.t)
           (primitives : SharedPrimitives.t) (t : TypeDefinition.t) : bool :=
  JsString.endsWith (TypeDefinition.name t) "Ref"
  && Kind_eqb (TypeDefinition.kind t) KInterface
  && negb (declaredAnywhere contracts primitives (entityName (TypeDefinition.name t))).

(** The declarations of the contracts, each with its contract, in order. *)
Definition contractTypes (contracts : list ParsedContract.t)
  : list (ParsedContract.t * TypeDefinition.t) :=
  flat_map (fun c => map (pair c) (ParsedContract.types c)) contracts.

(** The first declaration of each name not in [seen]. *)
Fixpoint firstOfEachName (seen : list string)
         (l : list (ParsedContract.t * TypeDefinition.t))
  : list (ParsedContract.t * TypeDefinition.t) :=
  match l with
  | [] => []
  | ct :: rest =>
      if existsb (String.eqb (TypeDefinition.name (snd ct))) seen
      then firstOfEachName seen rest
      else ct :: firstOfEachName (TypeDefinition.name (snd ct) :: seen) rest
  end.

(** *** The shared vocabulary *)

(** The declarations that [parseSharedPrimitives] files: those of the
    blocks of a Markdown document, or those of a TypeScript source. *)
Definition vocabularyDeclarations (filePath content : string) : list TypeDefinition.t :=
  if JsString.endsWith filePath ".md"
  then ParsedContract.types (parseContractContent filePath content)
  else extractTypes content 1.

(** A vocabulary that declares [Money] twice: as an alias, then as an
    interface. *)
Definition moneySource : string :=
  document
    [ "export type Money = number;";
      "export interface Money {";
      "  amount: number;";
      "}";
      "export type Currency = string;" ].

Definition moneyFs : FileSystem :=
  fun path => if String.eqb path "money.types.ts" then Some moneySource else None.

Definition moneyPrimitives : SharedPrimitives.t :=
  SharedPrimitives.mk (typesByNameMap (extractTypes moneySource 1)) "money.types.ts".

(** *** Routes and methods *)

(** The lines of a document with their numbers, from 1. *)
Definition numberedLines (content : string) : list (nat * string) :=
  let lines := JsString.split "010" content in
  combine (List.seq 1 (List.length lines)) lines.

Definition routeOfLine (l : nat * string) : list ApiRoute.t :=
  match extractApiRoute (snd l) (fst l) with
  | Some r => [r]
  | None => []
  end.

Definition hasNoSpace (s : string) : bool :=
  forallb (fun c => negb (JsString.isSpace c)) (list_ascii_of_string s).

(** A contract with headings that are routes, one of them inside a block,
    and a service interface. *)
Definition routesDocument : string :=
  document
    [ "# Orders Contract"; "";
      "### GET /orders/:id";
      "```typescript";
      "export type OrderId = string;"; "";
      "export interface IOrderService {";
      "  getOrder(id: OrderId): Promise<Order>;";
      "  list(page?: number, size: number): Order[];";
      "}";
      "### POST   /orders now";
      "```";
      "### FETCH /orders" ].

(** The text of the block of [routesDocument], which opens on line 4. *)
Definition serviceBlock : string :=
  blockCode ["export type OrderId = string;"; "";
             "export interface IOrderService {";
             "  getOrder(id: OrderId): Promise<Order>;";
             "  list(page?: number, size: number): Order[];";
             "}";
             "### POST   /orders now"].

Definition listMethod : ServiceMethod.t :=
  ServiceMethod.mk "list"
    [ParameterInfo.mk "page" "number" true; ParameterInfo.mk "size" "number" false]
    "Order[]" 6.



(** *** A name declared twice by a contract *)

(** A contract that imports [ProductId] and declares it as an enumeration
    and as an interface; the shared vocabulary declares it as an
    interface. *)
Definition catalogDocument : string :=
  document
    [ "# Catalog Contract"; "";
      "```typescript";
      "import { ProductId } from '../shared/shared.types';";
      "";
      "export enum ProductId { A, B }";
      "export interface ProductId {";
      "  value: string;";
      "}";
      "```"; "" ].

Definition catalogVocabulary : string :=
  document ["export interface ProductId {"; "  value: string;"; "}"; ""].

Definition catalogFs : FileSystem :=
  fun path =>
    if String.eqb path "CATALOG-CONTRACT.md" then Some catalogDocument
    else if String.eqb path "shared.types.ts" then Some catalogVocabulary
    else None.

Definition catalogContract : ParsedContract.t :=
  parseContractContent "CATALOG-CONTRACT.md" catalogDocument.

Definition catalogPrimitives : SharedPrimitives.t :=
  SharedPrimitives.mk (typesByNameMap (extractTypes catalogVocabulary 1)) "shared.types.ts".

(** *** Three declarations of one field *)

(** A contract declaring [Stamp] with a field [at] of type [t]. *)
Definition stampDocument (t : string) : string :=
  document
    [ "# Stamp"; ""; "```typescript"; "export interface Stamp {";
      "  at: " +++ t +++ ";"; "}"; "```"; "" ].

Definition stampA : ParsedContract.t :=
  parseContractContent "A-CONTRACT.md" (stampDocument "Date").
Definition stampB : ParsedContract.t :=
  parseContractContent "B-CONTRACT.md" (stampDocument "string").
Definition stampC : ParsedContract.t :=
  parseContractContent "C-CONTRACT.md" (stampDocument "date").

(** *** A similar pair with recognized suffixes *)

Definition shipmentContract : ParsedContract.t :=
  ParsedContract.mk "SHIPMENT-CONTRACT.md" []
    [ TypeDefinition.mk "ShipmentTrackingInput" KType []
        "export type ShipmentTrackingInput = string;" 4;
      TypeDefinition.mk "ShipmentTrackingOutput" KType []
        "export type ShipmentTrackingOutput = string;" 5 ].

(** The first test of [isExpectedPair]: one of the pattern pairs accepts the
    two names. *)
Definition matchesPatternPair (n1 n2 : string) : bool :=
  existsb
    (fun '(pattern1, pattern2) =>
       (Regex.test pattern1 n1 && Regex.test pattern2 n2)
       || (Regex.test pattern2 n1 && Regex.test pattern1 n2))
    expectedPatternPairs.

(** *** ASCII text

    The strings of this development are strings of 8-bit characters, and
    [JsString.isSpace], [JsString.trim], [JsString.toLowerCase] and the
    classes [\s] and [\w] are those of JavaScript on the ASCII characters.
    Statements about raw text that go through them are made for ASCII
    text. *)
Definition isAscii (s : string) : bool :=
  forallb (fun c => nat_of_ascii c <? 128) (list_ascii_of_string s).

(** White space only. *)
Definition isBlank (s : string) : bool :=
  forallb JsString.isSpace (list_ascii_of_string s).

(** An expression without capturing group. *)
Fixpoint groupFree (r : Regex.regex) : bool :=
  match r with
  | Regex.Cat r1 r2 | Regex.Alt r1 r2 => groupFree r1 && groupFree r2
  | Regex.Star r1 | Regex.StarLazy r1 => groupFree r1
  | Regex.Grp _ _ => false
  | _ => true
  end.

(** The names that [extractImports] reads between the braces of one import
    statement: comments removed, the items split at commas, trimmed, their
    white space squeezed, the alias dropped, and only identifiers kept. *)
Definition importedNames (items : string) : list string :=
  let importContent :=
    Regex.replaceAll Patterns.blockComment
      (Regex.replaceAll Patterns.lineComment items "") "" in
  let importedItems :=
    filter (Regex.test Patterns.identPrefix)
      (map (fun s => Regex.replaceAll Patterns.spaces s " ")
         (filter nonEmpty (map JsString.trim (JsString.split "," importContent)))) in
  flat_map
    (fun name =>
       let cleanName := JsString.trim (Regex.replaceFirst Patterns.asAlias name "") in
       if nonEmpty cleanName && Regex.test Patterns.identifier cleanName
       then [cleanName] else [])
    importedItems.

(** Two import statements that name the same source, the second over three
    lines. *)
Definition twoImportsCode : string :=
  document ["import { Money } from '../shared/types';"; "";
            "import {"; "  Currency as Unit,"; "  type Rate"; "} from '../shared/types';"].

(** *** Contracts with the same base name *)

Definition usersContract : ParsedContract.t :=
  ParsedContract.mk "users/CONTRACT.md" []
    [TypeDefinition.mk "UserId" KType [] "export type UserId = string;" 3].
Definition ordersOfUsersContract : ParsedContract.t :=
  ParsedContract.mk "orders/CONTRACT.md"
    [ImportInfo.mk "UserId" "../users/CONTRACT" 3]
    [TypeDefinition.mk "OrderId" KType [] "export type OrderId = string;" 4].

(** [a/X.md] and [Y.md] import from each other; [b/X.md] imports nothing. *)
Definition mutualX : ParsedContract.t :=
  ParsedContract.mk "a/X.md" [ImportInfo.mk "Invoice" "../Y" 3]
    [TypeDefinition.mk "Payment" KType [] "export type Payment = string;" 4].
Definition emptyX : ParsedContract.t := ParsedContract.mk "b/X.md" [] [].
Definition mutualY : ParsedContract.t :=
  ParsedContract.mk "Y.md" [ImportInfo.mk "Payment" "./a/X" 3]
    [TypeDefinition.mk "Invoice" KType [] "export type Invoice = string;" 4].

(* ====================================================================== *)
(** * Properties *)
(* ====================================================================== *)

(** ** Maps and sets *)

Section MapFacts.
Context {V : Type}.
Implicit Types (m : JsMap.t V) (k : string) (v : V).

Lemma get_set m k v k' :
  JsMap.get (JsMap.set m k v) k' = if String.eqb k k' then Some v else JsMap.get m k'.
Proof.
  induction m as [|[k0 v0] m IH]; simpl.
  - reflexivity.
  - destruct (String.eqb_spec k0 k) as [->|Hne]; simpl.
    + destruct (String.eqb k k'); reflexivity.
    + destruct (String.eqb_spec k0 k') as [->|Hne'].
      * destruct (String.eqb_spec k k'); [congruence|reflexivity].
      * apply IH.
Qed.

Lemma has_set m k v k' :
  JsMap.has (JsMap.set m k v) k' = String.eqb k k' || JsMap.has m k'.
Proof.
  unfold JsMap.has. rewrite get_set. destruct (String.eqb k k'); reflexivity.
Qed.

Lemma get_In m k v : JsMap.get m k = Some v -> In (k, v) m.
Proof.
  induction m as [|[k0 v0] m IH]; simpl; [discriminate|].
  destruct (String.eqb_spec k0 k) as [->|Hne]; intros H.
  - injection H as ->. now left.
  - right. now apply IH.
Qed.

Lemma get_None_keys m k : JsMap.get m k = None <-> ~ In k (JsMap.keys m).
Proof.
  induction m as [|[k0 v0] m IH]; simpl.
  - tauto.
  - destruct (String.eqb_spec k0 k) as [->|Hne].
    + split; [discriminate|]. intros H. exfalso. apply H. now left.
    + rewrite IH. split; [intros H [E|I]; [congruence|tauto] | tauto].
Qed.

Lemma has_keys m k : JsMap.has m k = true <-> In k (JsMap.keys m).
Proof.
  unfold JsMap.has. destruct (JsMap.get m k) eqn:E.
  - split; [intros _|reflexivity].
    apply get_In in E. apply (in_map fst) in E. exact E.
  - split; [discriminate|]. intros H. apply get_None_keys in E. contradiction.
Qed.

Lemma In_get m k v : NoDup (JsMap.keys m) -> In (k, v) m -> JsMap.get m k = Some v.
Proof.
  induction m as [|[k0 v0] m IH]; simpl; [tauto|].
  intros Hnd [E|I].
  - injection E as -> ->. now rewrite String.eqb_refl.
  - inversion Hnd as [|? ? Hnotin Hnd']; subst.
    destruct (String.eqb_spec k0 k) as [->|Hne].
    + exfalso. apply Hnotin. apply (in_map fst) in I. exact I.
    + now apply IH.
Qed.

Lemma keys_set m k v :
  JsMap.keys (JsMap.set m k v)
  = if JsMap.has m k then JsMap.keys m else JsMap.keys m ++ [k].
Proof.
  unfold JsMap.has.
  induction m as [|[k0 v0] m IH]; simpl; [reflexivity|].
  destruct (String.eqb_spec k0 k) as [->|Hne]; simpl; [reflexivity|].
  rewrite IH. now destruct (JsMap.get m k).
Qed.

Lemma NoDup_set m k v : NoDup (JsMap.keys m) -> NoDup (JsMap.keys (JsMap.set m k v)).
Proof.
  intros H. rewrite keys_set. destruct (JsMap.has m k) eqn:E; [exact H|].
  apply NoDup_app; [exact H | repeat constructor; simpl; tauto |].
  intros x Hx [<-|[]]. apply has_keys in Hx. congruence.
Qed.
End MapFacts.

Lemma set_has (s : JsSet.t) (x : string) : JsSet.has s x = true <-> In x s.
Proof.
  unfold JsSet.has. rewrite existsb_exists. split.
  - intros [y [Hy E]]. apply String.eqb_eq in E. now subst.
  - intros H. exists x. split; [exact H|apply String.eqb_refl].
Qed.

Lemma set_has_false (s : JsSet.t) (x : string) : JsSet.has s x = false <-> ~ In x s.
Proof.
  rewrite <- set_has. destruct (JsSet.has s x); split; congruence.
Qed.

Lemma set_add_In (s : JsSet.t) (x y : string) :
  In y (JsSet.add s x) <-> y = x \/ In y s.
Proof.
  unfold JsSet.add. destruct (JsSet.has s x) eqn:E.
  - apply set_has in E. split; [tauto|]. intros [->|H]; assumption.
  - rewrite in_app_iff. simpl. split; [intros [H|[H|[]]]; auto | intros [H|H]; auto].
Qed.

(* ====================================================================== *)
(** ** The report: pass or fail *)
(* ====================================================================== *)

Lemma isError_true (i : VerificationIssue.t) :
  isError i = true <-> VerificationIssue.severity i = SevError.
Proof. unfold isError. destruct (VerificationIssue.severity i); simpl; split; congruence. Qed.

Lemma generateReport_passed now p cs issues g :
  VerificationReport.passed (generateReport now p cs issues g) = true
  <-> forall i, In i issues -> VerificationIssue.severity i <> SevError.
Proof.
  unfold generateReport; simpl. rewrite Nat.eqb_eq, length_zero_iff_nil.
  split.
  - intros H i Hi Hsev.
    assert (Hin : In i (filter isError issues))
      by (apply filter_In; split; [exact Hi | now apply isError_true]).
    rewrite H in Hin. exact Hin.
  - intros H. destruct (filter isError issues) as [|i rest] eqn:E; [reflexivity|].
    assert (Hin : In i (filter isError issues)) by (rewrite E; now left).
    apply filter_In in Hin as [Hi He]. apply isError_true in He.
    exfalso. exact (H i Hi He).
Qed.

Lemma runChecks_is_report now p cs :
  exists g, runChecks now p cs
            = generateReport now p cs (VerificationReport.issues (runChecks now p cs)) g.
Proof.
  unfold runChecks. destruct (checkCircularDependencies cs) as [g ci].
  exists g. reflexivity.
Qed.

Lemma verifyContracts_runs fs now options report :
  verifyContracts fs now options = Some report ->
  exists p cs, report = runChecks now p cs.
Proof.
  unfold verifyContracts.
  destruct (parseSharedPrimitives fs _) as [p|]; [|discriminate].
  destruct (parseContracts fs _) as [cs|]; [|discriminate].
  intros H. injection H as <-. now exists p, cs.
Qed.

(** The issues of a report are those of the four checks, in the order the
    checks are run. *)
Lemma runChecks_issues now p cs :
  VerificationReport.issues (runChecks now p cs)
  = checkImportResolution cs p ++ snd (checkCircularDependencies cs)
    ++ checkNamingConsistency cs p ++ checkTypeShapeCompatibility cs p.
Proof. unfold runChecks. destruct (checkCircularDependencies cs) as [g ci]. reflexivity. Qed.

(** C1.  Whenever a verification run returns a report, the issues of the
    report are the issues that the four checks collected on the parsed
    files, and the report passes exactly when none of them has severity
    [error]; any issue list with the same error-severity issues, whatever
    its warnings, gives the same outcome. *)
Theorem passed_iff_no_error_issue fs now options report :
  verifyContracts fs now options = Some report ->
  exists p cs,
    parseSharedPrimitives fs (VerifyContractsOptions.primitivesPath options) = Some p
    /\ parseContracts fs (VerifyContractsOptions.contractPaths options) = Some cs
    /\ VerificationReport.issues report
       = checkImportResolution cs p ++ snd (checkCircularDependencies cs)
         ++ checkNamingConsistency cs p ++ checkTypeShapeCompatibility cs p
    /\ (VerificationReport.passed report = true
        <-> forall i,
            In i (checkImportResolution cs p ++ snd (checkCircularDependencies cs)
                  ++ checkNamingConsistency cs p ++ checkTypeShapeCompatibility cs p) ->
            VerificationIssue.severity i <> SevError)
    /\ (forall now' p' cs' g issues,
          filter isError issues
          = filter isError
              (checkImportResolution cs p ++ snd (checkCircularDependencies cs)
               ++ checkNamingConsistency cs p ++ checkTypeShapeCompatibility cs p) ->
          VerificationReport.passed (generateReport now' p' cs' issues g)
          = VerificationReport.passed report).
Proof.
  unfold verifyContracts.
  destruct (parseSharedPrimitives fs _) as [p|]; [|discriminate].
  destruct (parseContracts fs _) as [cs|]; [|discriminate].
  intros [= <-]. exists p, cs.
  split; [reflexivity|]. split; [reflexivity|].
  destruct (runChecks_is_report now p cs) as [g Hg].
  pose proof (runChecks_issues now p cs) as Hi.
  split; [exact Hi|]. rewrite <- Hi. split.
  - rewrite Hg at 1. apply generateReport_passed.
  - intros now' p' cs' g' issues E. rewrite Hg.
    unfold generateReport; simpl. now rewrite E.
Qed.

(** The run of scenario 2 with the longer declaration first: the shape check
    collects one error, it is in the report, and the report fails. *)
Lemma passed_iff_no_error_issue_witness :
  (verifyContracts userRefFs 0
     (VerifyContractsOptions.mk "shared.types.ts" ["B-CONTRACT.md"; "A-CONTRACT.md"])
   = Some (runChecks 0 emptyPrimitives [userRefB; userRefA])
   /\ VerificationReport.passed (runChecks 0 emptyPrimitives [userRefB; userRefA]) = false
   /\ map VerificationIssue.severity
          (checkTypeShapeCompatibility [userRefB; userRefA] emptyPrimitives)
      = [SevError])
  /\ exists p cs,
       parseSharedPrimitives userRefFs "shared.types.ts" = Some p
       /\ parseContracts userRefFs ["B-CONTRACT.md"; "A-CONTRACT.md"] = Some cs
       /\ VerificationReport.issues (runChecks 0 emptyPrimitives [userRefB; userRefA])
          = checkImportResolution cs p ++ snd (checkCircularDependencies cs)
            ++ checkNamingConsistency cs p ++ checkTypeShapeCompatibility cs p
       /\ (VerificationReport.passed (runChecks 0 emptyPrimitives [userRefB; userRefA]) = true
           <-> forall i,
               In i (checkImportResolution cs p ++ snd (checkCircularDependencies cs)
                     ++ checkNamingConsistency cs p ++ checkTypeShapeCompatibility cs p) ->
               VerificationIssue.severity i <> SevError)
       /\ (forall now' p' cs' g issues,
             filter isError issues
             = filter isError
                 (checkImportResolution cs p ++ snd (checkCircularDependencies cs)
                  ++ checkNamingConsistency cs p ++ checkTypeShapeCompatibility cs p) ->
             VerificationReport.passed (generateReport now' p' cs' issues g)
             = VerificationReport.passed (runChecks 0 emptyPrimitives [userRefB; userRefA])).
Proof.
  split; [repeat split; vm_compute; reflexivity|].
  apply (passed_iff_no_error_issue userRefFs 0
           (VerifyContractsOptions.mk "shared.types.ts" ["B-CONTRACT.md"; "A-CONTRACT.md"])).
  vm_compute. reflexivity.
Defined.

(** ** Field-type compatibility *)

Lemma existsb_ext' {A} (f g : A -> bool) (l : list A) :
  (forall x, f x = g x) -> existsb f l = existsb g l.
Proof. intros H. induction l; simpl; [reflexivity|]. now rewrite H, IHl. Qed.

(** ** Import resolution *)

Lemma has_fold_set {A V} (key : A -> string) (val : A -> V) (l : list A)
      (m : JsMap.t V) (n : string) :
  JsMap.has (fold_left (fun m x => JsMap.set m (key x) (val x)) l m) n = true
  <-> JsMap.has m n = true \/ exists x, In x l /\ key x = n.
Proof.
  revert m. induction l as [|a l IH]; intros m; simpl.
  - split; [tauto|]. intros [H|[x [[] _]]]. exact H.
  - rewrite IH, has_set, orb_true_iff, String.eqb_eq. split.
    + intros [[E|H]|[x [Hx E]]]; eauto.
    + intros [H|[x [[->|Hx] E]]]; eauto.
Qed.

Lemma has_fold_contracts (cs : list ParsedContract.t) (m0 : JsMap.t string) n :
  JsMap.has
    (fold_left
       (fun m contract =>
          fold_left
            (fun m type => JsMap.set m (TypeDefinition.name type)
                                     (ParsedContract.filePath contract))
            (ParsedContract.types contract) m)
       cs m0) n = true
  <-> JsMap.has m0 n = true
      \/ exists c t, In c cs /\ In t (ParsedContract.types c)
                     /\ TypeDefinition.name t = n.
Proof.
  revert m0. induction cs as [|c cs IH]; intros m0; simpl.
  - split; [tauto|]. intros [H|[c [t [[] _]]]]. exact H.
  - rewrite IH.
    rewrite (has_fold_set TypeDefinition.name (fun _ => ParsedContract.filePath c)).
    split.
    + intros [[H|[t [Ht E]]]|[c' [t [Hc [Ht E]]]]]; eauto 8.
    + intros [H|[c' [t [[<-|Hc] [Ht E]]]]]; eauto 8.
Qed.

Lemma availableTypes_declared cs p n :
  JsMap.has (availableTypes cs p) n = true <-> declared cs p n.
Proof.
  unfold availableTypes, declared. rewrite has_fold_contracts.
  unfold JsMap.ofEntries. rewrite (has_fold_set fst snd).
  unfold JsMap.has at 1; simpl. split.
  - intros [[H|[[k f] [Hx E]]]|H]; [discriminate| |now right].
    simpl in E. subst k. left.
    apply in_map_iff in Hx as [k [E Hk]]. now injection E as ->.
  - intros [H|H]; [left; right|now right].
    exists (n, SharedPrimitives.filePath p). split; [|reflexivity].
    apply in_map_iff. now exists n.
Qed.

Lemma importStep_fold available c imps acc :
  fold_left (importStep available c) imps acc
  = acc ++ map (unresolvedImportIssue c) (filter (importFlagged available) imps).
Proof.
  revert acc. induction imps as [|imp imps IH]; intros acc; simpl.
  - now rewrite app_nil_r.
  - rewrite IH. unfold importStep, importFlagged, isExempt.
    destruct (JsSet.has externalLibraries (ImportInfo.source imp)
              || JsString.startsWith (ImportInfo.source imp) "@"); simpl; [reflexivity|].
    destruct (JsString.startsWith (ImportInfo.source imp) "."
              && negb (JsString.includes (ImportInfo.source imp) "shared"));
      simpl; [reflexivity|].
    destruct (JsMap.has available (ImportInfo.name imp)); simpl; [reflexivity|].
    now rewrite <- app_assoc.
Qed.

Lemma checkImportResolution_flat cs p :
  checkImportResolution cs p
  = flat_map (fun c => map (unresolvedImportIssue c)
                           (filter (importFlagged (availableTypes cs p))
                                   (ParsedContract.imports c))) cs.
Proof.
  unfold checkImportResolution.
  generalize (availableTypes cs p) as av. intros av.
  assert (H : forall acc,
             fold_left (fun issues contract =>
                          fold_left (importStep av contract)
                                    (ParsedContract.imports contract) issues) cs acc
             = acc ++ flat_map (fun c => map (unresolvedImportIssue c)
                                             (filter (importFlagged av)
                                                     (ParsedContract.imports c))) cs).
  { induction cs as [|c cs IH]; intros acc; simpl.
    - now rewrite app_nil_r.
    - now rewrite IH, importStep_fold, app_assoc. }
  apply (H []).
Qed.

(** C3, amended.  [checkImportResolution] reports an issue exactly for the
    imports of a contract whose name is declared neither by the shared
    vocabulary nor by any contract and whose source is not exempt, the
    exempt sources being those on the allowlist or starting with [@], and
    those starting with a dot that do not contain [shared]; the issue is the
    unresolved-import error of that import. *)
Theorem unresolved_import_iff cs p i :
  In i (checkImportResolution cs p)
  <-> exists c imp,
        In c cs /\ In imp (ParsedContract.imports c)
        /\ ~ declared cs p (ImportInfo.name imp)
        /\ isExempt (ImportInfo.source imp) = false
        /\ i = unresolvedImportIssue c imp.
Proof.
  rewrite checkImportResolution_flat, in_flat_map. split.
  - intros [c [Hc Hi]]. apply in_map_iff in Hi as [imp [<- Himp]].
    apply filter_In in Himp as [Himp Hf].
    unfold importFlagged in Hf. apply andb_true_iff in Hf as [He Ha].
    apply negb_true_iff in He, Ha.
    exists c, imp. repeat split; try assumption.
    rewrite <- availableTypes_declared. congruence.
  - intros [c [imp [Hc [Himp [Hd [He ->]]]]]].
    exists c. split; [exact Hc|]. apply in_map, filter_In. split; [exact Himp|].
    unfold importFlagged. rewrite He. simpl. apply negb_true_iff.
    destruct (JsMap.has _ _) eqn:E; [|reflexivity].
    apply availableTypes_declared in E. contradiction.
Qed.

(** C3 as stated fails: an undeclared name imported from [@acme/types], a
    source that is neither on the allowlist nor a relative path, is skipped
    and no error is reported for it. *)
Lemma unresolved_import_as_specified_fails :
  ~ (In (unresolvedImportIssue scopedContract scopedImport)
        (checkImportResolution [scopedContract] emptyPrimitives)
     <-> (~ declared [scopedContract] emptyPrimitives (ImportInfo.name scopedImport)
          /\ exemptAsSpecified (ImportInfo.source scopedImport) = false)).
Proof.
  intros [_ H]. apply H. split; [|reflexivity].
  rewrite <- availableTypes_declared. discriminate.
Qed.

(** ** Kind conflicts between an import and a local declaration *)

Lemma Kind_eqb_false k1 k2 : k1 <> k2 -> Kind_eqb k1 k2 = false.
Proof. destruct k1, k2; simpl; congruence. Qed.

(** C5, amended.  When a contract imports a name and declares it again, the
    shape check looks at the first declaration the contract has for the
    name, in the order the parser extracted them: when the kind of that
    declaration differs from the kind the shared vocabulary gives the name,
    it reports an error-severity type-shape issue for the contract, on the
    line of that declaration, whatever the fields of the two declarations
    are. *)
Theorem redeclared_import_kind_conflict cs p c imp localDef primitiveDef :
  In c cs ->
  In imp (ParsedContract.imports c) ->
  find (fun t => String.eqb (TypeDefinition.name t) (ImportInfo.name imp))
       (ParsedContract.types c) = Some localDef ->
  JsMap.get (SharedPrimitives.types p) (ImportInfo.name imp) = Some primitiveDef ->
  TypeDefinition.kind localDef <> TypeDefinition.kind primitiveDef ->
  exists i,
    In i (checkTypeShapeCompatibility cs p)
    /\ VerificationIssue.severity i = SevError
    /\ VerificationIssue.category i = CatTypeShape
    /\ VerificationIssue.file i = ParsedContract.filePath c
    /\ VerificationIssue.line i = Some (TypeDefinition.line localDef).
Proof.
  intros Hc Himp Hfind Hprim Hkind.
  exists (redefinedIssue c imp localDef primitiveDef).
  split; [|repeat split].
  unfold checkTypeShapeCompatibility. apply in_or_app. right.
  apply in_flat_map. exists c. split; [exact Hc|].
  unfold redefinitionIssues. apply in_flat_map. exists imp. split; [exact Himp|].
  rewrite Hfind, Hprim, Kind_eqb_false; [now left|exact Hkind].
Qed.

(** Scenario 3: [ProductId] is an alias in the shared vocabulary and an
    enumeration in the contract that imports it. *)
Lemma redeclared_import_kind_conflict_witness :
  (In productContract [productContract]
   /\ In productImport (ParsedContract.imports productContract)
   /\ find (fun t => String.eqb (TypeDefinition.name t) (ImportInfo.name productImport))
           (ParsedContract.types productContract) = Some productIdEnum
   /\ JsMap.get (SharedPrimitives.types productPrimitives) (ImportInfo.name productImport)
      = Some productIdAlias
   /\ TypeDefinition.kind productIdEnum <> TypeDefinition.kind productIdAlias)
  /\ exists i,
    In i (checkTypeShapeCompatibility [productContract] productPrimitives)
    /\ VerificationIssue.severity i = SevError
    /\ VerificationIssue.category i = CatTypeShape
    /\ VerificationIssue.file i = ParsedContract.filePath productContract
    /\ VerificationIssue.line i = Some (TypeDefinition.line productIdEnum).
Proof.
  split.
  - repeat split; simpl; auto; discriminate.
  - apply (redeclared_import_kind_conflict
             [productContract] productPrimitives productContract productImport
             productIdEnum productIdAlias).
    + simpl; auto.
    + simpl; auto.
    + reflexivity.
    + reflexivity.
    + simpl. discriminate.
Defined.

(** C5 as stated fails when the contract declares the imported name more
    than once.  The catalog contract imports [ProductId], which the shared
    vocabulary declares as an interface, and declares it as an enumeration
    on line 6 of the document and as an interface on line 7.  The
    interfaces of a block are extracted first, so the declaration the check
    looks at is the interface: the enumeration raises no issue and the run
    passes. *)
Lemma redeclared_enum_behind_interface_no_issue :
  parseSharedPrimitives catalogFs "shared.types.ts" = Some catalogPrimitives
  /\ parseContract catalogFs "CATALOG-CONTRACT.md" = Some catalogContract
  /\ lineAt catalogDocument 6 = Some "export enum ProductId { A, B }"
  /\ (exists imp localDef primitiveDef,
        In imp (ParsedContract.imports catalogContract)
        /\ In localDef (ParsedContract.types catalogContract)
        /\ TypeDefinition.name localDef = ImportInfo.name imp
        /\ JsMap.get (SharedPrimitives.types catalogPrimitives) (ImportInfo.name imp)
           = Some primitiveDef
        /\ TypeDefinition.kind localDef = KEnum
        /\ TypeDefinition.kind primitiveDef = KInterface)
  /\ checkTypeShapeCompatibility [catalogContract] catalogPrimitives = []
  /\ option_map (fun r => (VerificationReport.issues r, VerificationReport.passed r))
       (verifyContracts catalogFs 0
          (VerifyContractsOptions.mk "shared.types.ts" ["CATALOG-CONTRACT.md"]))
     = Some ([], true).
Proof.
  split; [reflexivity|]. split; [reflexivity|]. split; [vm_compute; reflexivity|].
  split.
  - exists (ImportInfo.mk "ProductId" "../shared/shared.types" 3).
    exists (TypeDefinition.mk "ProductId" KEnum
              [PropertyInfo.mk "A" "enum-value" false; PropertyInfo.mk "B" "enum-value" false]
              "export enum ProductId { A, B }" 5).
    eexists. split; [vm_compute; auto|]. split; [vm_compute; auto|].
    split; [reflexivity|]. split; [vm_compute; reflexivity|]. split; reflexivity.
  - split; vm_compute; reflexivity.
Qed.

(** ** A run on the shared vocabulary alone *)

Lemma singletons_compare_nothing (m : JsMap.t (list Definition_.t)) :
  Forall (fun e => List.length (snd e) = 1) m ->
  flat_map (fun '(name, definitions) => compareDefinitions name definitions) m = [].
Proof.
  induction 1 as [|[n ds] m Hlen _ IH]; [reflexivity|].
  cbn [flat_map]. rewrite IH, app_nil_r.
  simpl in Hlen. unfold compareDefinitions. now rewrite Hlen.
Qed.

Lemma set_singleton_Forall (m : JsMap.t (list Definition_.t)) k d :
  Forall (fun e => List.length (snd e) = 1) m ->
  Forall (fun e => List.length (snd e) = 1) (JsMap.set m k [d]).
Proof.
  induction 1 as [|[k0 v0] m H0 Hm IH]; simpl.
  - repeat constructor.
  - destruct (String.eqb k0 k); constructor; auto.
Qed.

Lemma typesByName_primitives_only p :
  Forall (fun e => List.length (snd e) = 1) (typesByName [] p).
Proof.
  unfold typesByName; simpl.
  assert (H : forall l m,
             Forall (fun e => List.length (snd e) = 1) m ->
             Forall (fun e => List.length (snd e) = 1)
                    (fold_left
                       (fun m '(name, type) =>
                          JsMap.set m name
                            [Definition_.mk type (SharedPrimitives.filePath p)])
                       l m)).
  { induction l as [|[n t] l IH]; intros m Hm; simpl; [exact Hm|].
    apply IH, set_singleton_Forall, Hm. }
  apply H. constructor.
Qed.

Lemma runChecks_no_contracts now p :
  VerificationReport.issues (runChecks now p [])
  = map (similarNamesIssue (allTypeNames [] p))
        (reportedPairs (map NameEntry.name (allTypeNames [] p))).
Proof.
  unfold runChecks. simpl.
  unfold checkTypeShapeCompatibility. simpl.
  rewrite (singletons_compare_nothing _ (typesByName_primitives_only p)).
  now rewrite !app_nil_r.
Qed.

Lemma parseSharedPrimitives_reads fs path content :
  fs path = Some content -> exists p, parseSharedPrimitives fs path = Some p.
Proof.
  intros H. unfold parseSharedPrimitives, parseContract. rewrite H.
  destruct (JsString.endsWith path ".md"); eexists; reflexivity.
Qed.

(** C10.  A run on a readable shared-vocabulary document and no contract
    returns a report; its issues are the similar-names warnings of the
    vocabulary's own declarations and nothing else, all of severity warning
    and category naming, and the report passes. *)
Theorem primitives_only_run_passes fs now path content :
  fs path = Some content ->
  exists p report,
    parseSharedPrimitives fs path = Some p
    /\ verifyContracts fs now (VerifyContractsOptions.mk path []) = Some report
    /\ VerificationReport.issues report
       = map (similarNamesIssue (allTypeNames [] p))
             (reportedPairs (JsMap.keys (SharedPrimitives.types p)))
    /\ Forall (fun i => VerificationIssue.severity i = SevWarning
                        /\ VerificationIssue.category i = CatNaming)
              (VerificationReport.issues report)
    /\ VerificationReport.passed report = true.
Proof.
  intros H. destruct (parseSharedPrimitives_reads fs path content H) as [p Hp].
  exists p, (runChecks now p []).
  assert (Hnames : map NameEntry.name (allTypeNames [] p)
                   = JsMap.keys (SharedPrimitives.types p)).
  { unfold allTypeNames, JsMap.keys. simpl. rewrite app_nil_r, map_map.
    apply map_ext. now intros [n t]. }
  assert (Hall : Forall (fun i => VerificationIssue.severity i = SevWarning
                                  /\ VerificationIssue.category i = CatNaming)
                        (VerificationReport.issues (runChecks now p []))).
  { rewrite runChecks_no_contracts. apply Forall_forall. intros i Hi.
    apply in_map_iff in Hi as [[[n1 n2] r] [<- _]]. now split. }
  split; [exact Hp|]. split.
  { unfold verifyContracts. simpl. now rewrite Hp. }
  split; [now rewrite runChecks_no_contracts, Hnames|].
  split; [exact Hall|].
  destruct (runChecks_is_report now p []) as [g Hg]. rewrite Hg.
  apply generateReport_passed. intros i Hi Hsev.
  rewrite Forall_forall in Hall. destruct (Hall i Hi) as [Hw _]. congruence.
Qed.

(** A run on [profilesDocument] alone. *)
Lemma primitives_only_run_passes_witness :
  profilesFs "shared-primitives.md" = Some profilesDocument
  /\ exists p report,
       parseSharedPrimitives profilesFs "shared-primitives.md" = Some p
       /\ verifyContracts profilesFs 0
            (VerifyContractsOptions.mk "shared-primitives.md" []) = Some report
       /\ VerificationReport.issues report
          = map (similarNamesIssue (allTypeNames [] p))
                (reportedPairs (JsMap.keys (SharedPrimitives.types p)))
       /\ Forall (fun i => VerificationIssue.severity i = SevWarning
                           /\ VerificationIssue.category i = CatNaming)
                 (VerificationReport.issues report)
       /\ VerificationReport.passed report = true.
Proof.
  split; [reflexivity|].
  apply (primitives_only_run_passes profilesFs 0 "shared-primitives.md" profilesDocument).
  reflexivity.
Defined.

(** The run on [profilesDocument] reports its one near-duplicate pair. *)
Example profiles_run :
  option_map (fun r => (map VerificationIssue.message (VerificationReport.issues r),
                        VerificationReport.passed r))
             (verifyContracts profilesFs 0
                (VerifyContractsOptions.mk "shared-primitives.md" []))
  = Some (["Similar names detected: 'UserProfile' and 'UserProfiles' (92% similar)"],
          true).
Proof. vm_compute. reflexivity. Qed.

(** ** Shape comparison *)

Lemma typesByName_flat cs p :
  typesByName cs p = fold_left pushDefinition (contractDefinitions cs) (primitiveDefinitions p).
Proof.
  unfold typesByName. fold (primitiveDefinitions p).
  generalize (primitiveDefinitions p) as m.
  induction cs as [|c cs IH]; intros m; simpl; [reflexivity|].
  unfold contractDefinitions in *. simpl. rewrite fold_left_app, IH. f_equal.
  generalize (ParsedContract.types c) as ts. clear.
  intros ts. revert m. induction ts as [|t ts IH]; intros m; simpl; [reflexivity|].
  apply IH.
Qed.

Lemma get_fold_push ds : forall m n,
  JsMap.get (fold_left pushDefinition ds m) n
  = match JsMap.get m n, filter (definitionNamed n) ds with
    | Some l, f => Some (l ++ f)
    | None, [] => None
    | None, f => Some f
    end.
Proof.
  induction ds as [|d ds IH]; intros m n; simpl.
  - destruct (JsMap.get m n); [now rewrite app_nil_r|reflexivity].
  - rewrite IH. unfold pushDefinition.
    assert (Hd : definitionNamed n d
                 = String.eqb (TypeDefinition.name (Definition_.type d)) n) by reflexivity.
    rewrite Hd.
    destruct (String.eqb_spec (TypeDefinition.name (Definition_.type d)) n) as [->|Hne].
    + destruct (JsMap.get m n) eqn:E; rewrite get_set, String.eqb_refl.
      * now rewrite <- app_assoc.
      * reflexivity.
    + destruct (JsMap.get m (TypeDefinition.name (Definition_.type d)));
        rewrite get_set; apply String.eqb_neq in Hne; rewrite Hne; reflexivity.
Qed.

Lemma get_primitiveDefinitions p n :
  NoDup (JsMap.keys (SharedPrimitives.types p)) ->
  JsMap.get (primitiveDefinitions p) n
  = match JsMap.get (SharedPrimitives.types p) n with
    | Some t => Some [Definition_.mk t (SharedPrimitives.filePath p)]
    | None => None
    end.
Proof.
  unfold primitiveDefinitions.
  generalize (SharedPrimitives.filePath p) as f.
  generalize (SharedPrimitives.types p) as l. intros l f Hnd.
  change (@None (list Definition_.t)) with (JsMap.get (@nil (string * list Definition_.t)) n).
  generalize (@nil (string * list Definition_.t)) as m.
  induction l as [|[k t] l IH]; intros m; simpl; [reflexivity|].
  inversion Hnd as [|? ? Hnotin Hnd']; subst.
  rewrite IH by assumption. rewrite get_set.
  destruct (String.eqb_spec k n) as [->|Hne]; [|reflexivity].
  apply get_None_keys in Hnotin. now rewrite Hnotin.
Qed.

Lemma get_typesByName cs p n :
  NoDup (JsMap.keys (SharedPrimitives.types p)) ->
  JsMap.get (typesByName cs p) n
  = match definitionsFor cs p n with [] => None | ds => Some ds end.
Proof.
  intros Hnd. rewrite typesByName_flat, get_fold_push, get_primitiveDefinitions by assumption.
  unfold definitionsFor.
  destruct (JsMap.get (SharedPrimitives.types p) n); simpl; [reflexivity|].
  now destruct (filter _ _).
Qed.

Lemma in_ofEntries_keys {V} (es : list (string * V)) k :
  In k (JsMap.keys (JsMap.ofEntries es)) <-> In k (map fst es).
Proof.
  rewrite <- has_keys. unfold JsMap.ofEntries. rewrite (has_fold_set fst snd).
  unfold JsMap.has at 1. simpl. rewrite in_map_iff. split.
  - intros [H|[x [Hx E]]]; [discriminate|]. now exists x.
  - intros [x [E Hx]]. right. now exists x.
Qed.

Lemma missingIssues_In n baseline current prop :
  In prop (TypeDefinition.properties (Definition_.type baseline)) ->
  (forall q, In q (TypeDefinition.properties (Definition_.type current)) ->
             PropertyInfo.name q <> PropertyInfo.name prop) ->
  exists prop',
    In (missingPropertyIssue n baseline current (PropertyInfo.name prop) prop')
       (missingIssues n baseline current).
Proof.
  intros Hin Hnot. unfold missingIssues.
  assert (Hk : In (PropertyInfo.name prop) (JsMap.keys (propsMap (Definition_.type baseline)))).
  { unfold propsMap. apply in_ofEntries_keys. rewrite map_map. simpl.
    now apply in_map. }
  apply in_map_iff in Hk as [[k prop'] [Hk Hentry]]. simpl in Hk. subst k.
  exists prop'. apply in_flat_map. exists (PropertyInfo.name prop, prop').
  split; [exact Hentry|].
  assert (Hhas : JsMap.has (propsMap (Definition_.type current)) (PropertyInfo.name prop) = false).
  { destruct (JsMap.has _ _) eqn:E; [|reflexivity].
    unfold propsMap in E.
    apply has_keys in E. apply (proj1 (in_ofEntries_keys _ _)) in E.
    rewrite map_map in E. simpl in E.
    apply in_map_iff in E as [q [Hq Hqin]]. exfalso. exact (Hnot q Hqin Hq). }
  rewrite Hhas. now left.
Qed.

(** C2, amended.  When several interface declarations share the name [n],
    the first one met (the shared vocabulary's, else the first contract's)
    is the baseline; for every field of the baseline that a later
    declaration lacks, the shape check reports a type-shape error naming the
    field, attributed to the document of the later declaration. *)
Theorem baseline_property_missing_is_error cs p n baseline others current prop :
  NoDup (JsMap.keys (SharedPrimitives.types p)) ->
  filter isInterfaceDefinition (definitionsFor cs p n) = baseline :: others ->
  In current others ->
  In prop (TypeDefinition.properties (Definition_.type baseline)) ->
  (forall q, In q (TypeDefinition.properties (Definition_.type current)) ->
             PropertyInfo.name q <> PropertyInfo.name prop) ->
  exists i,
    In i (checkTypeShapeCompatibility cs p)
    /\ VerificationIssue.severity i = SevError
    /\ VerificationIssue.category i = CatTypeShape
    /\ VerificationIssue.file i = Definition_.file current
    /\ VerificationIssue.message i
       = missingPropertyMessage n (PropertyInfo.name prop) (Definition_.file current).
Proof.
  intros Hnd Hfilter Hcur Hprop Hnot.
  destruct (missingIssues_In n baseline current prop Hprop Hnot) as [prop' Hi].
  exists (missingPropertyIssue n baseline current (PropertyInfo.name prop) prop').
  split; [|repeat split].
  unfold checkTypeShapeCompatibility. apply in_or_app. left.
  apply in_flat_map. exists (n, definitionsFor cs p n). split.
  - apply get_In. rewrite get_typesByName by assumption.
    destruct (definitionsFor cs p n); [discriminate|reflexivity].
  - unfold compareDefinitions. fold isInterfaceDefinition. rewrite Hfilter.
    assert (Hlen : 2 <= List.length (definitionsFor cs p n)).
    { pose proof (filter_length_le isInterfaceDefinition (definitionsFor cs p n)) as Hle.
      rewrite Hfilter in Hle. destruct others; [destruct Hcur|]. simpl in Hle. lia. }
    destruct (Nat.leb_spec (List.length (definitionsFor cs p n)) 1) as [Hl|_]; [lia|].
    destruct others as [|o others]; [destruct Hcur|].
    apply in_flat_map. exists current. split; [exact Hcur|].
    apply in_or_app. now left.
Qed.

Example userRef_parsed :
  userRefA = ParsedContract.mk "A-CONTRACT.md" [] [userRefTypeA]
  /\ userRefB = ParsedContract.mk "B-CONTRACT.md" [] [userRefTypeB].
Proof. split; vm_compute; reflexivity. Qed.

(** Scenario 2 with the longer declaration as the baseline. *)
Lemma baseline_property_missing_is_error_witness :
  filter isInterfaceDefinition (definitionsFor [userRefB; userRefA] emptyPrimitives "UserRef")
  = [userRefDefinitionB; userRefDefinitionA]
  /\ exists i,
       In i (checkTypeShapeCompatibility [userRefB; userRefA] emptyPrimitives)
       /\ VerificationIssue.severity i = SevError
       /\ VerificationIssue.category i = CatTypeShape
       /\ VerificationIssue.file i = "A-CONTRACT.md"
       /\ VerificationIssue.message i
          = missingPropertyMessage "UserRef" "phone" "A-CONTRACT.md".
Proof.
  split; [vm_compute; reflexivity|].
  apply (baseline_property_missing_is_error
           [userRefB; userRefA] emptyPrimitives "UserRef"
           userRefDefinitionB [userRefDefinitionA] userRefDefinitionA
           (stringProperty "phone")).
  - constructor.
  - vm_compute; reflexivity.
  - simpl; auto.
  - simpl; auto.
  - intros q [<-|[<-|[]]]; discriminate.
Defined.

(** With the contract that has [phone] read first, the run reports the one
    error of scenario 2, attributed to the contract that lacks the field. *)
Example userRef_longer_first :
  option_map (fun r => map (fun i => (VerificationIssue.severity i,
                                      VerificationIssue.file i,
                                      VerificationIssue.message i))
                           (filter isError (VerificationReport.issues r)))
             (verifyContracts userRefFs 0
                (VerifyContractsOptions.mk "shared.types.ts"
                   ["B-CONTRACT.md"; "A-CONTRACT.md"]))
  = Some [(SevError, "A-CONTRACT.md",
           missingPropertyMessage "UserRef" "phone" "A-CONTRACT.md")].
Proof. vm_compute. reflexivity. Qed.

(** C2 as stated fails: with the shorter declaration read first (the
    baseline), no error at all is reported, although that declaration lacks
    the field [phone] of the other one. *)
Lemma userRef_shorter_first_no_error :
  In "phone" (map PropertyInfo.name (TypeDefinition.properties userRefTypeB))
  /\ ~ In "phone" (map PropertyInfo.name (TypeDefinition.properties userRefTypeA))
  /\ checkTypeShapeCompatibility [userRefA; userRefB] emptyPrimitives = []
  /\ option_map (fun r => filter isError (VerificationReport.issues r))
                (verifyContracts userRefFs 0
                   (VerifyContractsOptions.mk "shared.types.ts"
                      ["A-CONTRACT.md"; "B-CONTRACT.md"]))
     = Some [].
Proof.
  split; [simpl; auto|]. split.
  - simpl. intros [H|[H|[]]]; discriminate.
  - split; vm_compute; reflexivity.
Qed.

(** ** Regular expressions made of literals *)

Lemma chars_append a b : Regex.chars (a +++ b) = Regex.chars a ++ Regex.chars b.
Proof. induction a as [|c a IH]; simpl; [reflexivity|]. unfold Regex.chars in *. simpl. now rewrite IH. Qed.

Lemma chars_length a : List.length (Regex.chars a) = String.length a.
Proof. induction a as [|c a IH]; simpl; [reflexivity|]. unfold Regex.chars in *. simpl. now rewrite IH. Qed.

Lemma chars_inj a b : Regex.chars a = Regex.chars b -> a = b.
Proof.
  intros H. unfold Regex.chars in H.
  rewrite <- (string_of_list_ascii_of_string a), <- (string_of_list_ascii_of_string b).
  now rewrite H.
Qed.

Lemma substring_prefix a b : substring 0 (String.length a) (a +++ b) = a.
Proof.
  induction a as [|c a IH]; simpl.
  - now destruct b.
  - now rewrite IH.
Qed.

Lemma substring_zero n s : substring n 0 s = "".
Proof.
  revert s. induction n as [|n IH]; intros s; destruct s; simpl; auto.
Qed.

Lemma append_empty_r s : s +++ "" = s.
Proof. induction s as [|c s IH]; simpl; [reflexivity|]. now rewrite IH. Qed.

Lemma append_length a b : String.length (a +++ b) = String.length a + String.length b.
Proof. induction a as [|c a IH]; simpl; [reflexivity|]. now rewrite IH. Qed.

Lemma run_lit {R} l : forall s pos cs (k : list ascii -> nat -> Regex.caps -> option R),
  Regex.run (Regex.lit l) s pos cs k
  = match dropPrefix (Regex.chars l) s with
    | Some rest => k rest (pos + String.length l) cs
    | None => None
    end.
Proof.
  induction l as [|c l IH]; intros s pos cs k; simpl.
  - now rewrite Nat.add_0_r.
  - destruct s as [|x s]; [reflexivity|].
    destruct (Ascii.eqb c x); [|reflexivity].
    rewrite IH. rewrite Nat.add_succ_comm. reflexivity.
Qed.

Lemma run_alts_lits {R} ls : forall s pos cs (k : list ascii -> nat -> Regex.caps -> option R),
  Regex.run (Regex.alts (map Regex.lit ls)) s pos cs k
  = firstSome
      (map (fun l => match dropPrefix (Regex.chars l) s with
                     | Some rest => k rest (pos + String.length l) cs
                     | None => None
                     end) ls).
Proof.
  induction ls as [|l ls IH]; intros s pos cs k.
  - simpl. now destruct s.
  - destruct ls as [|l' ls'].
    + simpl. rewrite run_lit. now destruct (dropPrefix _ _) as [rest|]; [destruct (k _ _ _)|].
    + change (Regex.alts (map Regex.lit (l :: l' :: ls')))
        with (Regex.Alt (Regex.lit l) (Regex.alts (map Regex.lit (l' :: ls')))).
      cbn [Regex.run]. rewrite IH, run_lit. cbn [map firstSome].
      destruct (dropPrefix (Regex.chars l) s) as [rest|]; [|reflexivity].
      now destruct (k rest (pos + String.length l) cs).
Qed.

Lemma dropPrefix_nil p s : dropPrefix p s = Some [] <-> s = p.
Proof.
  revert s. induction p as [|c p IH]; intros s; simpl.
  - split; [now intros [= ->]|now intros ->].
  - destruct s as [|x s]; [split; discriminate|].
    destruct (Ascii.eqb_spec c x) as [->|Hne].
    + rewrite IH. split; [now intros ->|now intros [= ->]].
    + split; [discriminate|]. intros [= -> _]. contradiction.
Qed.

(** The end-anchored alternation of literals matches at an offset exactly
    when the rest of the input is one of the literals. *)
Lemma matchAt_suffixRegex s pos :
  Regex.matchAt suffixRegex s pos
  = if existsb (fun l => if list_eq_dec ascii_dec (Regex.chars l) s then true else false)
               recognizedSuffixes
    then Some (Regex.mkResult pos (pos + List.length s)
                              [(1, (pos, pos + List.length s))])
    else None.
Proof.
  unfold Regex.matchAt, suffixRegex.
  change (Regex.seq [Regex.Grp 1 (Regex.alts (map Regex.lit recognizedSuffixes)); Regex.Eol])
    with (Regex.Cat (Regex.Grp 1 (Regex.alts (map Regex.lit recognizedSuffixes))) Regex.Eol).
  cbn [Regex.run]. rewrite run_alts_lits.
  induction recognizedSuffixes as [|l ls IH]; [reflexivity|].
  cbn [map firstSome existsb].
  destruct (list_eq_dec ascii_dec (Regex.chars l) s) as [<-|Hne].
  - assert (E : dropPrefix (Regex.chars l) (Regex.chars l) = Some [])
      by now apply dropPrefix_nil.
    rewrite E. simpl. now rewrite chars_length.
  - destruct (dropPrefix (Regex.chars l) s) as [[|x rest]|] eqn:E.
    + apply dropPrefix_nil in E. congruence.
    + simpl. exact IH.
    + simpl. exact IH.
Qed.

(** No recognized suffix ends with another one. *)
Lemma suffixes_do_not_overlap l l' x :
  In l recognizedSuffixes -> In l' recognizedSuffixes -> x <> [] ->
  Regex.chars l <> x ++ Regex.chars l'.
Proof.
  intros Hl Hl' Hx E.
  assert (Hlen : List.length (Regex.chars l)
                 = List.length x + List.length (Regex.chars l'))
    by (rewrite E; apply length_app).
  assert (Hskip : skipn (List.length (Regex.chars l) - List.length (Regex.chars l'))
                        (Regex.chars l) = Regex.chars l').
  { rewrite Hlen, Nat.add_sub, E. rewrite skipn_app, Nat.sub_diag, skipn_all. reflexivity. }
  assert (Hpos : List.length (Regex.chars l') < List.length (Regex.chars l))
    by (destruct x; [congruence|simpl in Hlen; lia]).
  assert (Hall :
    forallb (fun l =>
      forallb (fun l' =>
        negb ((List.length (Regex.chars l') <? List.length (Regex.chars l))
              && if list_eq_dec ascii_dec
                      (skipn (List.length (Regex.chars l) - List.length (Regex.chars l'))
                             (Regex.chars l))
                      (Regex.chars l')
                 then true else false))
        recognizedSuffixes) recognizedSuffixes = true) by (vm_compute; reflexivity).
  rewrite forallb_forall in Hall. specialize (Hall l Hl).
  rewrite forallb_forall in Hall. specialize (Hall l' Hl').
  apply Nat.ltb_lt in Hpos. rewrite Hpos in Hall.
  destruct (list_eq_dec ascii_dec _ _); [discriminate|contradiction].
Qed.

Lemma search_suffixRegex x : forall l pos,
  In l recognizedSuffixes ->
  (forall x1 x2 l', x = x1 ++ x2 -> x2 <> [] -> In l' recognizedSuffixes ->
                    Regex.chars l' <> x2 ++ Regex.chars l) ->
  Regex.search suffixRegex (x ++ Regex.chars l) pos
  = Some (Regex.mkResult (pos + List.length x)
            (pos + List.length x + String.length l)
            [(1, (pos + List.length x, pos + List.length x + String.length l))]).
Proof.
  induction x as [|c x IH]; intros l pos Hl Hno.
  - simpl app. destruct (Regex.chars l) as [|c0 rest] eqn:E.
    + exfalso. assert (l = "") by (apply chars_inj; now rewrite E). subst l.
      revert Hl. vm_compute. intuition discriminate.
    + cbn [Regex.search]. rewrite <- E, matchAt_suffixRegex.
      assert (Hex : existsb
                (fun l0 => if list_eq_dec ascii_dec (Regex.chars l0) (Regex.chars l)
                           then true else false) recognizedSuffixes = true).
      { apply existsb_exists. exists l. split; [exact Hl|].
        now destruct (list_eq_dec ascii_dec (Regex.chars l) (Regex.chars l)). }
      rewrite Hex, chars_length. simpl. now rewrite !Nat.add_0_r.
  - cbn [app Regex.search]. change (c :: x ++ Regex.chars l) with ((c :: x) ++ Regex.chars l).
    rewrite matchAt_suffixRegex.
    assert (Hex : existsb
              (fun l0 => if list_eq_dec ascii_dec (Regex.chars l0) ((c :: x) ++ Regex.chars l)
                         then true else false) recognizedSuffixes = false).
    { destruct (existsb _ _) eqn:Ex; [|reflexivity].
      apply existsb_exists in Ex as [l' [Hl' Hd]].
      destruct (list_eq_dec ascii_dec _ _) as [Heq|]; [|discriminate].
      exfalso. apply (Hno [] (c :: x) l'); auto. discriminate. }
    rewrite Hex. cbn [app]. rewrite IH; [|exact Hl|].
    + simpl. f_equal. f_equal; [lia|lia|]. repeat f_equal; lia.
    + intros x1 x2 l' -> Hx2 Hl'. apply (Hno (c :: x1) x2 l'); auto.
Qed.

Lemma stripSuffix_append base l :
  In l recognizedSuffixes -> stripSuffix (base +++ l) = base.
Proof.
  intros Hl. unfold stripSuffix, Regex.replaceFirst, Regex.exec.
  rewrite chars_append, (search_suffixRegex (Regex.chars base) l 0 Hl).
  - simpl. rewrite chars_length, append_length, Nat.sub_diag, substring_zero.
    now rewrite substring_prefix, append_empty_r.
  - intros x1 x2 l' _ Hx2 Hl'. now apply suffixes_do_not_overlap.
Qed.

(** C7, amended.  Two names made of one base followed by suffixes of the
    list Id, Ref, Input, Output, Request, Response, Type, Status, Score,
    Scores are an expected pair, and no warning is reported for them. *)
Theorem recognized_suffix_pair_suppressed base s1 s2 :
  In s1 recognizedSuffixes ->
  In s2 recognizedSuffixes ->
  isExpectedPair (base +++ s1) (base +++ s2) = true
  /\ forall names ratio, ~ In (base +++ s1, base +++ s2, ratio) (reportedPairs names).
Proof.
  intros H1 H2.
  assert (He : isExpectedPair (base +++ s1) (base +++ s2) = true).
  { unfold isExpectedPair. rewrite !stripSuffix_append by assumption.
    rewrite String.eqb_refl. apply orb_true_r. }
  split; [exact He|].
  intros names ratio Hin. unfold reportedPairs in Hin.
  apply filter_In in Hin as [_ Hf]. rewrite He in Hf. discriminate.
Qed.

(** [ShipmentTrackingInput] and [ShipmentTrackingOutput]: base
    [ShipmentTracking], suffixes Input and Output.  The two names are 86%
    similar, so they are a candidate of the naming check, and no pattern
    pair accepts them: the suffix rule is what suppresses the warning. *)
Lemma recognized_suffix_pair_suppressed_witness :
  (In "Input" recognizedSuffixes /\ In "Output" recognizedSuffixes
   /\ map (fun e => (fst (fst e), snd (fst e)))
          (findSimilarNames (declaredNames [shipmentContract] emptyPrimitives)
                            namingThreshold)
      = [("ShipmentTracking" +++ "Input", "ShipmentTracking" +++ "Output")]
   /\ matchesPatternPair ("ShipmentTracking" +++ "Input") ("ShipmentTracking" +++ "Output")
      = false
   /\ checkNamingConsistency [shipmentContract] emptyPrimitives = [])
  /\ isExpectedPair ("ShipmentTracking" +++ "Input") ("ShipmentTracking" +++ "Output") = true
  /\ forall names ratio,
       ~ In ("ShipmentTracking" +++ "Input", "ShipmentTracking" +++ "Output", ratio)
            (reportedPairs names).
Proof.
  split.
  - split; [simpl; tauto|]. split; [simpl; tauto|].
    repeat split; vm_compute; reflexivity.
  - apply (recognized_suffix_pair_suppressed "ShipmentTracking" "Input" "Output");
      simpl; tauto.
Defined.

(** C7 as stated fails for a pluralized suffix: [PaymentTypes] and
    [PaymentType] share the base [Payment] once the plural and the singular
    of the type suffix are stripped, and they are 92% similar; the pair is
    not suppressed and the warning is reported. *)
Lemma plural_suffix_pair_is_reported :
  In "Types" suffixesAsSpecified
  /\ In "Type" suffixesAsSpecified
  /\ isExpectedPair ("Payment" +++ "Types") ("Payment" +++ "Type") = false
  /\ map (fun p => (fst (fst p), snd (fst p))) (reportedPairs ["PaymentTypes"; "PaymentType"])
     = [("Payment" +++ "Types", "Payment" +++ "Type")]
  /\ map VerificationIssue.message (checkNamingConsistency [paymentContract] emptyPrimitives)
     = ["Similar names detected: 'PaymentTypes' and 'PaymentType' (92% similar)"].
Proof.
  split; [simpl; tauto|]. split; [simpl; tauto|].
  repeat split; vm_compute; reflexivity.
Qed.

(** ** Cycle detection *)

Lemma chain_app_r g l1 l2 : chain g (l1 ++ l2) -> chain g l2.
Proof.
  induction l1 as [|u l1 IH]; simpl; [auto|].
  destruct (l1 ++ l2) eqn:E; intros H.
  - destruct l1; [simpl in E; subst; exact I|discriminate].
  - apply IH. tauto.
Qed.

Lemma chain_snoc g l u v :
  chain g (l ++ [u]) -> edge g u v -> chain g ((l ++ [u]) ++ [v]).
Proof.
  induction l as [|x l IH]; simpl; intros Hc He.
  - tauto.
  - destruct (l ++ [u]) as [|y rest] eqn:E.
    + destruct l; discriminate.
    + simpl. split; [tauto|]. apply IH; tauto.
Qed.

Lemma indexOf_split path x i :
  indexOf path x = Some i -> exists pre post, path = pre ++ x :: post /\ skipn i path = x :: post.
Proof.
  revert i. induction path as [|y path IH]; intros i; simpl; [discriminate|].
  destruct (String.eqb_spec y x) as [->|Hne].
  - intros [= <-]. now exists [], path.
  - destruct (indexOf path x) as [j|]; [|discriminate].
    intros [= <-]. destruct (IH j eq_refl) as [pre [post [-> Hs]]].
    exists (y :: pre), post. split; [reflexivity|exact Hs].
Qed.

(** The cycle pushed when an edge [node -> neighbor] reaches the path. *)
Lemma pushed_cycle_closed g path node neighbor i :
  chain g (path ++ [node]) -> edge g node neighbor ->
  indexOf (path ++ [node]) neighbor = Some i ->
  closedWalk g (skipn i (path ++ [node]) ++ [neighbor]).
Proof.
  intros Hc He Hi. destruct (indexOf_split _ _ _ Hi) as [pre [post [E ->]]].
  exists neighbor, post. split; [reflexivity|].
  assert (Hsuf : exists q, neighbor :: post = q ++ [node]).
  { destruct (exists_last (l := neighbor :: post)) as [q [z Hq]]; [discriminate|].
    exists q. rewrite Hq. f_equal. f_equal.
    rewrite Hq, app_assoc in E. apply app_inj_tail in E. symmetry. tauto. }
  destruct Hsuf as [q Hq].
  change (neighbor :: post ++ [neighbor]) with ((neighbor :: post) ++ [neighbor]).
  rewrite Hq. apply chain_snoc; [|exact He].
  rewrite <- Hq. apply (chain_app_r g pre). now rewrite <- E.
Qed.

Section CyclesAreWalks.
Variable g : Graph.
Variable visit : string -> list string -> dfsState -> option dfsState.
Hypothesis visit_sound :
  forall n p s s', visit n p s = Some s' -> chain g (p ++ [n]) ->
                   Forall (closedWalk g) (cycles s) -> Forall (closedWalk g) (cycles s').

Lemma dfsNeighbors_sound path node ns : forall st st',
  dfsNeighbors visit (path ++ [node]) ns st = Some st' ->
  chain g (path ++ [node]) ->
  (forall n, In n ns -> edge g node n) ->
  Forall (closedWalk g) (cycles st) -> Forall (closedWalk g) (cycles st').
Proof.
  induction ns as [|n ns IH]; intros st st' Hrun Hc He Hcw; simpl in Hrun.
  - now injection Hrun as <-.
  - assert (He' : forall n, In n ns -> edge g node n) by (intros; apply He; now right).
    assert (Hen : edge g node n) by (apply He; now left).
    destruct (negb (JsSet.has (visited st) n)).
    + destruct (visit n (path ++ [node]) st) as [s1|] eqn:Hv; [|discriminate].
      apply (IH s1 st' Hrun Hc He').
      apply (visit_sound n (path ++ [node]) st s1 Hv); [|exact Hcw].
      now apply chain_snoc.
    + destruct (JsSet.has (recStack st) n); [|now apply (IH st st')].
      destruct (indexOf (path ++ [node]) n) as [i|] eqn:Hi; [|now apply (IH st st')].
      apply (IH _ st' Hrun Hc He'). simpl.
      apply Forall_app. split; [exact Hcw|].
      constructor; [|constructor]. now apply pushed_cycle_closed.
Qed.
End CyclesAreWalks.

Lemma dfs_sound g fuel : forall node path st st',
  dfs fuel g node path st = Some st' ->
  chain g (path ++ [node]) ->
  Forall (closedWalk g) (cycles st) -> Forall (closedWalk g) (cycles st').
Proof.
  induction fuel as [|f IH]; intros node path st st' Hrun Hc Hcw; simpl in Hrun;
    [discriminate|].
  destruct (dfsNeighbors _ _ _ _) as [st2|] eqn:Hloop; [|discriminate].
  injection Hrun as <-. simpl.
  apply (dfsNeighbors_sound g (dfs f g) IH path node _ _ st2 Hloop Hc); auto.
Qed.

Lemma dfsRoots_sound g fuel roots : forall st st',
  dfsRoots fuel g roots st = Some st' ->
  Forall (closedWalk g) (cycles st) -> Forall (closedWalk g) (cycles st').
Proof.
  induction roots as [|r roots IH]; intros st st' Hrun Hcw; simpl in Hrun.
  - now injection Hrun as <-.
  - destruct (negb (JsSet.has (visited st) r)); [|now apply (IH st)].
    destruct (dfs fuel g r [] st) as [s1|] eqn:Hd; [|discriminate].
    apply (IH s1 st' Hrun). apply (dfs_sound g fuel r [] st s1 Hd); [exact I|exact Hcw].
Qed.

(** Every reported cycle is a cycle of the graph. *)
Lemma detectCycles_sound g cs :
  detectCycles g = Some cs -> Forall (closedWalk g) cs.
Proof.
  unfold detectCycles. destruct (dfsRoots _ _ _ _) as [st|] eqn:E; [|discriminate].
  intros [= <-]. apply (dfsRoots_sound g _ _ _ st E). constructor.
Qed.

(** *** The search always returns *)

Lemma filter_length_mono {A} (f f' : A -> bool) (l : list A) :
  (forall x, f' x = true -> f x = true) ->
  List.length (filter f' l) <= List.length (filter f l).
Proof.
  intros H. induction l as [|x l IH]; simpl; [lia|].
  destruct (f' x) eqn:E'.
  - rewrite (H x E'). simpl. lia.
  - destruct (f x); simpl; lia.
Qed.

Lemma filter_length_strict {A} (f f' : A -> bool) (l : list A) (a : A) :
  (forall x, f' x = true -> f x = true) ->
  In a l -> f a = true -> f' a = false ->
  List.length (filter f' l) < List.length (filter f l).
Proof.
  intros H. induction l as [|x l IH]; simpl; [tauto|].
  intros [->|Hin] Hfa Hfa'.
  - rewrite Hfa, Hfa'. simpl.
    pose proof (filter_length_mono f f' l H). lia.
  - specialize (IH Hin Hfa Hfa').
    destruct (f' x) eqn:E'; [rewrite (H x E'); simpl; lia|].
    destruct (f x); simpl; lia.
Qed.

Lemma unvisited_mono g st st' :
  incl (visited st) (visited st') ->
  List.length (unvisited g st') <= List.length (unvisited g st).
Proof.
  intros Hincl. apply filter_length_mono. intros x Hx.
  apply negb_true_iff in Hx. apply negb_true_iff.
  apply set_has_false. apply set_has_false in Hx. auto.
Qed.

Lemma unvisited_add g st cs rs node :
  In node (universe g) -> JsSet.has (visited st) node = false ->
  List.length (unvisited g (mkDfs cs (JsSet.add (visited st) node) rs))
  < List.length (unvisited g st).
Proof.
  intros Hin Hnot. apply (filter_length_strict _ _ _ node); auto.
  - intros x Hx. apply negb_true_iff in Hx. apply negb_true_iff.
    apply set_has_false. apply set_has_false in Hx. simpl in Hx.
    intros H. apply Hx. apply set_add_In. now right.
  - now rewrite Hnot.
  - simpl. apply negb_false_iff. apply set_has. apply set_add_In. now left.
Qed.

Lemma neighbors_in_universe g node n :
  In n (neighborsOf g node) -> In n (universe g).
Proof.
  unfold neighborsOf, universe. destruct (JsMap.get g node) as [ns|] eqn:E; [|intros []].
  intros Hn. apply in_or_app. right. apply in_concat. exists ns. split; [|exact Hn].
  apply get_In in E. apply in_map_iff. now exists (node, ns).
Qed.

Section Termination.
Variable g : Graph.
Variable f : nat.
Hypothesis visit_total :
  forall node path st,
    In node (universe g) -> JsSet.has (visited st) node = false ->
    List.length (unvisited g st) <= f ->
    exists st', dfs f g node path st = Some st' /\ incl (visited st) (visited st').

Lemma dfsNeighbors_total path ns : forall st,
  (forall n, In n ns -> In n (universe g)) ->
  List.length (unvisited g st) <= f ->
  exists st', dfsNeighbors (dfs f g) path ns st = Some st'
              /\ incl (visited st) (visited st').
Proof.
  induction ns as [|n ns IH]; intros st Hu Hlen; simpl.
  - exists st. split; [reflexivity|apply incl_refl].
  - assert (Hu' : forall n, In n ns -> In n (universe g)) by (intros; apply Hu; now right).
    destruct (JsSet.has (visited st) n) eqn:Hv; simpl.
    + destruct (JsSet.has (recStack st) n); [|now apply IH].
      destruct (indexOf path n); [|now apply IH].
      destruct (IH (mkDfs (cycles st ++ [skipn n0 path ++ [n]]) (visited st) (recStack st))
                   Hu' Hlen) as [st' [Hrun Hincl]].
      now exists st'.
    + destruct (visit_total n path st (Hu n (or_introl eq_refl)) Hv Hlen)
        as [s1 [Hrun1 Hincl1]].
      rewrite Hrun1.
      destruct (IH s1 Hu') as [st' [Hrun Hincl]].
      { pose proof (unvisited_mono g st s1 Hincl1). lia. }
      exists st'. split; [exact Hrun|]. eapply incl_tran; eassumption.
Qed.
End Termination.

Lemma dfs_total g fuel : forall node path st,
  In node (universe g) -> JsSet.has (visited st) node = false ->
  List.length (unvisited g st) <= fuel ->
  exists st', dfs fuel g node path st = Some st' /\ incl (visited st) (visited st').
Proof.
  induction fuel as [|f IH]; intros node path st Hin Hnot Hlen.
  - exfalso. pose proof (unvisited_add g st [] [] node Hin Hnot). lia.
  - simpl.
    destruct (dfsNeighbors_total g f IH (path ++ [node]) (neighborsOf g node)
                (mkDfs (cycles st) (JsSet.add (visited st) node)
                       (JsSet.add (recStack st) node)))
      as [st2 [Hrun Hincl]].
    + intros n. apply neighbors_in_universe.
    + pose proof (unvisited_add g st (cycles st) (JsSet.add (recStack st) node)
                                node Hin Hnot). lia.
    + rewrite Hrun. eexists. split; [reflexivity|]. simpl.
      intros x Hx. apply Hincl. simpl. apply set_add_In. now right.
Qed.

Lemma dfsRoots_total g fuel roots : forall st,
  (forall r, In r roots -> In r (universe g)) ->
  List.length (unvisited g st) <= fuel ->
  exists st', dfsRoots fuel g roots st = Some st'.
Proof.
  induction roots as [|r roots IH]; intros st Hu Hlen; simpl.
  - now exists st.
  - assert (Hu' : forall r, In r roots -> In r (universe g)) by (intros; apply Hu; now right).
    destruct (JsSet.has (visited st) r) eqn:Hv; simpl; [now apply IH|].
    destruct (dfs_total g fuel r [] st (Hu r (or_introl eq_refl)) Hv Hlen)
      as [s1 [Hrun Hincl]].
    rewrite Hrun. apply IH; [exact Hu'|].
    pose proof (unvisited_mono g st s1 Hincl). lia.
Qed.

(** [detectCycles] returns on every graph. *)
Lemma detectCycles_total g : exists cs, detectCycles g = Some cs.
Proof.
  unfold detectCycles.
  destruct (dfsRoots_total g (S (List.length (universe g))) (JsMap.keys g) (mkDfs [] [] []))
    as [st Hrun].
  - intros r Hr. unfold universe. apply in_or_app. now left.
  - unfold unvisited. pose proof (filter_length_le
      (fun x => negb (JsSet.has (visited (mkDfs [] [] [])) x)) (universe g)). lia.
  - rewrite Hrun. now eexists.
Qed.

Lemma chain_rank_decreases g (rank : string -> nat) :
  (forall u v, edge g u v -> rank v < rank u) ->
  forall mid u w, chain g (u :: mid ++ [w]) -> rank w < rank u.
Proof.
  intros Hrank. induction mid as [|x mid IH]; intros u w; simpl.
  - intros [He _]. now apply Hrank.
  - intros [He Hc]. specialize (IH x w Hc). apply Hrank in He. lia.
Qed.

(** A graph whose edges all go down some rank has no cycle. *)
Lemma ranked_acyclic g (rank : string -> nat) :
  (forall u v, edge g u v -> rank v < rank u) -> acyclic g.
Proof.
  intros Hrank c [v [mid [-> Hc]]].
  pose proof (chain_rank_decreases g rank Hrank mid v v Hc). lia.
Qed.

Lemma ranked_graph_acyclic (g : Graph) (rank : string -> nat) :
  forallb (fun e => forallb (fun v => rank v <? rank (fst e)) (snd e)) g = true ->
  acyclic g.
Proof.
  intros H. apply (ranked_acyclic g rank). intros u v He.
  unfold edge, neighborsOf in He.
  destruct (JsMap.get g u) as [ns|] eqn:E; [|destruct He].
  apply get_In in E. rewrite forallb_forall in H. specialize (H _ E). simpl in H.
  rewrite forallb_forall in H. apply Nat.ltb_lt. now apply H.
Qed.

Lemma diamond_acyclic : acyclic diamond.
Proof. apply (ranked_graph_acyclic diamond diamondRank). vm_compute. reflexivity. Qed.

(** *** The graph A -> B -> C -> A *)

Lemma dfs_S f g node path st :
  dfs (S f) g node path st
  = match dfsNeighbors (dfs f g) (path ++ [node]) (neighborsOf g node)
            (mkDfs (cycles st) (JsSet.add (visited st) node)
                   (JsSet.add (recStack st) node)) with
    | Some st2 =>
        Some (mkDfs (cycles st2) (visited st2) (JsSet.delete (recStack st2) node))
    | None => None
    end.
Proof. reflexivity. Qed.

(** Symbolic run of the search on three distinct names. *)
Ltac run_search Hab Hbc Hac :=
  repeat (progress (cbn -[dfs];
                    unfold neighborsOf, JsSet.has, JsSet.add, JsSet.delete;
                    cbn -[dfs];
                    rewrite ?dfs_S, ?String.eqb_refl,
                      ?(proj2 (String.eqb_neq _ _) Hab),
                      ?(proj2 (String.eqb_neq _ _) Hbc), ?(proj2 (String.eqb_neq _ _) Hac),
                      ?(proj2 (String.eqb_neq _ _) (not_eq_sym Hab)),
                      ?(proj2 (String.eqb_neq _ _) (not_eq_sym Hbc)),
                      ?(proj2 (String.eqb_neq _ _) (not_eq_sym Hac)))).

Lemma triangle_cycle a b c :
  a <> b -> b <> c -> a <> c ->
  forall g, In g (triangleOrders a b c) ->
  exists start cycle,
    hd_error (JsMap.keys g) = Some start
    /\ detectCycles g = Some [cycle]
    /\ hd_error cycle = Some start
    /\ In cycle [[a; b; c; a]; [b; c; a; b]; [c; a; b; c]].
Proof.
  intros Hab Hbc Hac g Hg. unfold triangleOrders in Hg.
  destruct Hg as [<-|[<-|[<-|[<-|[<-|[<-|[]]]]]]].
  - exists a, [a; b; c; a]. unfold detectCycles. run_search Hab Hbc Hac. auto 10.
  - exists a, [a; b; c; a]. unfold detectCycles. run_search Hab Hbc Hac. auto 10.
  - exists b, [b; c; a; b]. unfold detectCycles. run_search Hab Hbc Hac. auto 10.
  - exists b, [b; c; a; b]. unfold detectCycles. run_search Hab Hbc Hac. auto 10.
  - exists c, [c; a; b; c]. unfold detectCycles. run_search Hab Hbc Hac. auto 10.
  - exists c, [c; a; b; c]. unfold detectCycles. run_search Hab Hbc Hac. auto 10.
Qed.

(** C4.  On a graph without cycle [detectCycles] returns the empty list;
    on the graph A -> B -> C -> A, in whichever order the keys are held, it
    returns exactly one cycle, which starts from the first key and lists the
    three nodes in path order before closing on the first one. *)
Theorem detectCycles_acyclic_and_triangle :
  (forall g, acyclic g -> detectCycles g = Some [])
  /\ (forall a b c, a <> b -> b <> c -> a <> c ->
      forall g, In g (triangleOrders a b c) ->
      exists start cycle,
        hd_error (JsMap.keys g) = Some start
        /\ detectCycles g = Some [cycle]
        /\ hd_error cycle = Some start
        /\ In cycle [[a; b; c; a]; [b; c; a; b]; [c; a; b; c]]).
Proof.
  split.
  - intros g Hacyclic. destruct (detectCycles_total g) as [cs Hcs].
    rewrite Hcs. f_equal.
    pose proof (detectCycles_sound g cs Hcs) as Hsound.
    destruct cs as [|c cs]; [reflexivity|].
    inversion Hsound as [|? ? Hc _]; subst. exfalso. exact (Hacyclic c Hc).
  - exact triangle_cycle.
Qed.

(** The diamond has no cycle; the triangle is entered from B. *)
Lemma detectCycles_acyclic_and_triangle_witness :
  (acyclic diamond /\ detectCycles diamond = Some [])
  /\ exists start cycle,
       hd_error (JsMap.keys [("B", ["C"]); ("C", ["A"]); ("A", ["B"])]) = Some start
       /\ detectCycles [("B", ["C"]); ("C", ["A"]); ("A", ["B"])] = Some [cycle]
       /\ hd_error cycle = Some start
       /\ In cycle [["A"; "B"; "C"; "A"]; ["B"; "C"; "A"; "B"]; ["C"; "A"; "B"; "C"]].
Proof.
  split.
  - split; [exact diamond_acyclic|].
    apply (proj1 detectCycles_acyclic_and_triangle diamond). exact diamond_acyclic.
  - apply (proj2 detectCycles_acyclic_and_triangle "A" "B" "C");
      [discriminate|discriminate|discriminate|].
    simpl. tauto.
Defined.

(** The three starting points, evaluated. *)
Example triangle_runs :
  map detectCycles (triangleOrders "A" "B" "C")
  = [ Some [["A"; "B"; "C"; "A"]]; Some [["A"; "B"; "C"; "A"]];
      Some [["B"; "C"; "A"; "B"]]; Some [["B"; "C"; "A"; "B"]];
      Some [["C"; "A"; "B"; "C"]]; Some [["C"; "A"; "B"; "C"]] ].
Proof. vm_compute. reflexivity. Qed.

(** ** Levenshtein distance *)

Lemma cell_swap bc ac diag left up : cell bc ac diag left up = cell ac bc diag up left.
Proof.
  unfold cell. rewrite (Ascii.eqb_sym bc ac).
  destruct (Ascii.eqb ac bc); [reflexivity|lia].
Qed.

Lemma editDistance_nil_r rb : editDistance rb [] = List.length rb.
Proof. destruct rb; reflexivity. Qed.

Lemma editDistance_cons bc rb ac ra :
  editDistance (bc :: rb) (ac :: ra)
  = cell bc ac (editDistance rb ra) (editDistance (bc :: rb) ra) (editDistance rb (ac :: ra)).
Proof. reflexivity. Qed.

Lemma editDistance_sym rb : forall ra, editDistance rb ra = editDistance ra rb.
Proof.
  induction rb as [|bc rb IHb]; intros ra.
  - now rewrite editDistance_nil_r.
  - induction ra as [|ac ra IHa].
    + now rewrite editDistance_nil_r.
    + rewrite !editDistance_cons, cell_swap. now rewrite IHa, IHb, (IHb (ac :: ra)).
Qed.

Lemma rowFrom_row0 rest : forall ra,
  rowFrom [] ra rest = List.seq (List.length ra) (S (List.length rest)).
Proof.
  induction rest as [|c rest IH]; intros ra; simpl; [reflexivity|].
  f_equal. now rewrite IH.
Qed.

Lemma fillRow_rowFrom bc rb rest : forall ra,
  editDistance (bc :: rb) ra
  :: fillRow bc rest (rowFrom rb ra rest) (editDistance (bc :: rb) ra)
  = rowFrom (bc :: rb) ra rest.
Proof.
  induction rest as [|c rest IH]; intros ra.
  - reflexivity.
  - cbn [rowFrom fillRow]. f_equal.
    destruct rest as [|c' rest'].
    + cbn [rowFrom fillRow]. now rewrite editDistance_cons.
    + rewrite <- IH. cbn [rowFrom]. now rewrite editDistance_cons.
Qed.

Lemma rowFrom_last rb rest : forall ra,
  nth (List.length rest) (rowFrom rb ra rest) 0 = editDistance rb (rev rest ++ ra).
Proof.
  induction rest as [|c rest IH]; intros ra; [reflexivity|].
  cbn [rowFrom List.length nth]. rewrite IH. simpl. now rewrite <- app_assoc.
Qed.

Lemma matrix_last_row a b : forall rb,
  nth (List.length b)
      (rowFrom rb [] a :: fillRows a b (S (List.length rb)) (rowFrom rb [] a)) []
  = rowFrom (rev b ++ rb) [] a.
Proof.
  induction b as [|bc b IH]; intros rb; [reflexivity|].
  assert (Hrow : S (List.length rb)
                 :: fillRow bc a (rowFrom rb [] a) (S (List.length rb))
                 = rowFrom (bc :: rb) [] a)
    by apply (fillRow_rowFrom bc rb a []).
  transitivity
    (nth (List.length b)
         (rowFrom (bc :: rb) [] a
          :: fillRows a b (S (List.length (bc :: rb))) (rowFrom (bc :: rb) [] a)) []).
  - rewrite <- Hrow. reflexivity.
  - rewrite IH. simpl. now rewrite <- app_assoc.
Qed.

(** The matrix computes the recurrence on the two whole strings. *)
Lemma levenshteinDistance_editDistance a b :
  levenshteinDistance a b
  = editDistance (rev (list_ascii_of_string b)) (rev (list_ascii_of_string a)).
Proof.
  unfold levenshteinDistance, matrix.
  set (a' := list_ascii_of_string a). set (b' := list_ascii_of_string b).
  cbv zeta.
  change (List.seq 0 (S (List.length a')))
    with (List.seq (List.length (@nil ascii)) (S (List.length a'))).
  rewrite <- (rowFrom_row0 a' []).
  change 1 with (S (List.length (@nil ascii))).
  rewrite matrix_last_row, rowFrom_last. now rewrite !app_nil_r.
Qed.

Lemma levenshteinDistance_sym a b : levenshteinDistance a b = levenshteinDistance b a.
Proof. rewrite !levenshteinDistance_editDistance. apply editDistance_sym. Qed.


(** ** Similar names *)

Lemma ofList_spec names : forall acc,
  NoDup acc ->
  NoDup (fold_left JsSet.add names acc)
  /\ forall x, In x (fold_left JsSet.add names acc) <-> In x acc \/ In x names.
Proof.
  induction names as [|n names IH]; intros acc Hnd; simpl.
  - split; [exact Hnd|]. intros x. tauto.
  - assert (Hnd' : NoDup (JsSet.add acc n)).
    { unfold JsSet.add. destruct (JsSet.has acc n) eqn:E; [exact Hnd|].
      apply set_has_false in E. apply NoDup_app; [exact Hnd|repeat constructor; simpl; tauto|].
      intros x Hx [<-|[]]. contradiction. }
    destruct (IH _ Hnd') as [H1 H2]. split; [exact H1|].
    intros x. rewrite H2, set_add_In. intuition (subst; auto).
Qed.




Section SimilarLoop.
Variable threshold : float.



End SimilarLoop.












(** *** From pairs to warnings *)






Lemma refStep_cases entries p c issues warned t :
  refStep entries p c (issues, warned) t = (issues, warned)
  \/ exists n, refStep entries p c (issues, warned) t
               = (issues ++ [orphanRefIssue c t n],
                  JsSet.add warned (TypeDefinition.name t)).
Proof.
  unfold refStep.
  destruct (JsString.endsWith _ _ && Kind_eqb _ _); [|now left].
  destruct (JsSet.has warned _); [now left|].
  destruct (negb _ && negb _); [|now left].
  right. eauto.
Qed.

Lemma refStep_appends entries p c types : forall issues warned,
  exists extra,
    fst (fold_left (refStep entries p c) types (issues, warned)) = issues ++ extra
    /\ Forall (fun i => exists t n, i = orphanRefIssue c t n) extra.
Proof.
  induction types as [|t types IH]; intros issues warned; cbn [fold_left].
  - exists []. split; [simpl; now rewrite app_nil_r|constructor].
  - destruct (refStep_cases entries p c issues warned t) as [->|[n ->]]; [apply IH|].
    destruct (IH (issues ++ [orphanRefIssue c t n])
                 (JsSet.add warned (TypeDefinition.name t))) as [extra [E Hall]].
    exists (orphanRefIssue c t n :: extra).
    split; [now rewrite E, <- app_assoc|]. constructor; [eauto|exact Hall].
Qed.

Lemma refLoop_appends entries p cs : forall issues warned,
  exists extra,
    fst (fold_left
           (fun st contract =>
              fold_left (refStep entries p contract) (ParsedContract.types contract) st)
           cs (issues, warned)) = issues ++ extra
    /\ Forall (fun i => exists c t n, i = orphanRefIssue c t n) extra.
Proof.
  induction cs as [|c cs IH]; intros issues warned; simpl.
  - exists []. split; [now rewrite app_nil_r|constructor].
  - destruct (refStep_appends entries p c (ParsedContract.types c) issues warned)
      as [extra1 [E1 H1]].
    destruct (fold_left (refStep entries p c) (ParsedContract.types c) (issues, warned))
      as [issues1 warned1] eqn:Est. simpl in E1. subst issues1.
    destruct (IH (issues ++ extra1) warned1) as [extra2 [E2 H2]].
    exists (extra1 ++ extra2). split; [now rewrite E2, app_assoc|].
    apply Forall_app. split; [|exact H2].
    eapply Forall_impl; [|exact H1]. intros i [t [n ->]]. eauto.
Qed.

(** The warnings of the naming check: one per reported pair, then those
    about orphaned reference types. *)
Lemma checkNamingConsistency_shape cs p :
  exists extra,
    checkNamingConsistency cs p
    = map (similarNamesIssue (allTypeNames cs p)) (reportedPairs (declaredNames cs p))
      ++ extra
    /\ Forall (fun i => exists c t n, i = orphanRefIssue c t n) extra.
Proof. unfold checkNamingConsistency. apply refLoop_appends. Qed.



(** The warning for the two names, as the run produces it. *)
Example customer_warning :
  map VerificationIssue.message (checkNamingConsistency [customerContract] emptyPrimitives)
  = ["Similar names detected: 'CustomerProfile' and 'CustomerProfiles' (94% similar)"].
Proof. vm_compute. reflexivity. Qed.

(** Names that differ by case only have similarity 1 and are not reported. *)
Example case_variants_not_similar :
  nameSimilarity "UserID" "UserId" = 1%float
  /\ findSimilarNames ["UserID"; "UserId"] namingThreshold = [].
Proof. split; vm_compute; reflexivity. Qed.

(** A similarity of exactly 17/20 is inside the range. *)
Example boundary_ratio_in_range :
  levenshteinDistance (JsString.toLowerCase boundaryNameA) (JsString.toLowerCase boundaryNameB) = 3
  /\ String.length boundaryNameA = 20
  /\ inSimilarRange namingThreshold (nameSimilarity boundaryNameA boundaryNameB) = true.
Proof. repeat split; vm_compute; reflexivity. Qed.

(** ** Line numbers of extracted constructs *)

(** C8 fails on the code.  In a contract whose fence opens on line 3, the
    import on line 4 is recorded with line 3 and the interface on line 6
    with line 5: one less than the line of the document.  The same
    extraction run on a plain TypeScript file, from line 1, records the
    lines 1 and 3 the declarations are on. *)
Theorem fenced_line_numbers_one_short :
  (lineAt ordersDocument 4 = Some "import { OrderId } from '../shared/shared.types';"
   /\ importLines (parseContractContent "ORDERS-CONTRACT.md" ordersDocument)
      = [("OrderId", 3)])
  /\ (lineAt ordersDocument 6 = Some "export interface Order {"
      /\ typeLines (ParsedContract.types
                      (parseContractContent "ORDERS-CONTRACT.md" ordersDocument))
         = [("Order", 5)])
  /\ (lineAt sharedTypesSource 1 = Some "export type OrderId = string;"
      /\ lineAt sharedTypesSource 3
         = Some "export enum OrderStatus { Open, Paid, Shipped, Closed }"
      /\ typeLines (extractTypes sharedTypesSource 1)
         = [("OrderId", 1); ("OrderStatus", 3)]).
Proof. repeat split; vm_compute; reflexivity. Qed.

(** ** The matcher only returns matches *)

Lemma runSound_Star (R : Type) r : runSound R r -> runSound R (Regex.Star r).
Proof.
  intros IH s pos cs k x. cbn [Regex.run].
  generalize (List.length s) as fuel. intros fuel. revert s pos cs.
  induction fuel as [|f IHf]; intros s pos cs H.
  - exists [], s, []. rewrite Nat.add_0_r. repeat split; [constructor|exact H].
  - cbn beta iota in H.
    match type of H with
    | match ?run with Some _ => _ | None => _ end = _ =>
        destruct run as [y|] eqn:E
    end.
    + injection H as ->.
      apply IH in E as [w1 [s1 [c1 [-> [Hm Hk]]]]].
      destruct (Nat.eqb (pos + List.length w1) pos); [discriminate|].
      apply IHf in Hk as [w2 [s2 [c2 [-> [Hm2 Hk2]]]]].
      exists (w1 ++ w2), s2, (c2 ++ c1).
      rewrite length_app, Nat.add_assoc, <- !app_assoc.
      repeat split; [now constructor|exact Hk2].
    + exists [], s, []. rewrite Nat.add_0_r. repeat split; [constructor|exact H].
Qed.

Lemma runSound_StarLazy (R : Type) r : runSound R r -> runSound R (Regex.StarLazy r).
Proof.
  intros IH s pos cs k x. cbn [Regex.run].
  generalize (List.length s) as fuel. intros fuel. revert s pos cs.
  induction fuel as [|f IHf]; intros s pos cs H.
  - cbn beta iota in H. destruct (k s pos cs) as [y|] eqn:E; [|discriminate].
    injection H as ->.
    exists [], s, []. rewrite Nat.add_0_r. repeat split; [constructor|exact E].
  - cbn beta iota in H. destruct (k s pos cs) as [y|] eqn:E.
    + injection H as ->.
      exists [], s, []. rewrite Nat.add_0_r. repeat split; [constructor|exact E].
    + apply IH in H as [w1 [s1 [c1 [-> [Hm Hk]]]]].
      destruct (Nat.eqb (pos + List.length w1) pos); [discriminate|].
      apply IHf in Hk as [w2 [s2 [c2 [-> [Hm2 Hk2]]]]].
      exists (w1 ++ w2), s2, (c2 ++ c1).
      rewrite length_app, Nat.add_assoc, <- !app_assoc.
      repeat split; [now constructor|exact Hk2].
Qed.

Lemma run_sound (R : Type) r : runSound R r.
Proof.
  revert R. induction r as [|p|r1 IH1 r2 IH2|r1 IH1 r2 IH2|r IH|r IH|n r IH| |];
    intros R.
  - intros s pos cs k x H. exists [], s, []. rewrite Nat.add_0_r.
    repeat split; [constructor|exact H].
  - intros s pos cs k x H. simpl in H. destruct s as [|c s]; [discriminate|].
    destruct (p c) eqn:Hp; [|discriminate].
    exists [c], s, []. rewrite Nat.add_1_r. repeat split; [now constructor|exact H].
  - intros s pos cs k x H. simpl in H.
    apply IH1 in H as [w1 [s1 [c1 [-> [Hm1 H]]]]].
    apply IH2 in H as [w2 [s2 [c2 [-> [Hm2 H]]]]].
    exists (w1 ++ w2), s2, (c2 ++ c1).
    rewrite length_app, Nat.add_assoc, <- !app_assoc.
    repeat split; [now constructor|exact H].
  - intros s pos cs k x H. simpl in H.
    destruct (Regex.run r1 s pos cs k) as [y|] eqn:E.
    + injection H as ->. apply IH1 in E as [w [s' [c [-> [Hm Hk]]]]].
      exists w, s', c. repeat split; [now apply M_AltL|exact Hk].
    + apply IH2 in H as [w [s' [c [-> [Hm Hk]]]]].
      exists w, s', c. repeat split; [now apply M_AltR|exact Hk].
  - apply runSound_Star, IH.
  - apply runSound_StarLazy, IH.
  - intros s pos cs k x H. simpl in H.
    apply IH in H as [w [s' [c [-> [Hm Hk]]]]].
    exists w, s', ((n, (pos, pos + List.length w)) :: c).
    repeat split; [now constructor|exact Hk].
  - intros s pos cs k x H. simpl in H. destruct (pos =? 0); [|discriminate].
    exists [], s, []. rewrite Nat.add_0_r. repeat split; [constructor|exact H].
  - intros s pos cs k x H. simpl in H. destruct s; [|discriminate].
    exists [], [], []. rewrite Nat.add_0_r. repeat split; [constructor|exact H].
Qed.

Lemma matchAt_sound r s pos m :
  Regex.matchAt r s pos = Some m ->
  exists w s', s = w ++ s' /\ Regex.index m = pos
               /\ Regex.stop m = pos + List.length w
               /\ matches r pos w (Regex.groups m).
Proof.
  unfold Regex.matchAt. intros H.
  apply run_sound in H as [w [s' [c [-> [Hm Hk]]]]].
  injection Hk as <-. simpl. rewrite app_nil_r. now exists w, s'.
Qed.

Lemma search_sound r s : forall pos m before,
  List.length before = pos ->
  Regex.search r s pos = Some m ->
  matchOf r (before ++ s) m /\ pos <= Regex.index m.
Proof.
  induction s as [|c s IH]; intros pos m before Hlen H; simpl in H.
  - destruct (Regex.matchAt r [] pos) as [m'|] eqn:E; [|discriminate].
    injection H as ->. apply matchAt_sound in E as [w [s' [Hs [Hi [Hst Hm]]]]].
    split; [|lia]. exists before, w, s'. rewrite <- Hs, Hi. auto.
  - destruct (Regex.matchAt r (c :: s) pos) as [m'|] eqn:E.
    + injection H as ->. apply matchAt_sound in E as [w [s' [Hs [Hi [Hst Hm]]]]].
      split; [|lia]. exists before, w, s'. rewrite <- Hs, Hi. auto.
    + destruct (IH (S pos) m (before ++ [c])) as [Hm Hle]; auto.
      { rewrite length_app. simpl. lia. }
      split; [|lia]. now rewrite <- app_assoc in Hm.
Qed.

Lemma execAllFrom_sound r fuel : forall s pos before,
  List.length before = pos ->
  Forall (matchOf r (before ++ s)) (Regex.execAllFrom fuel r s pos).
Proof.
  induction fuel as [|f IH]; intros s pos before Hlen; simpl; [constructor|].
  destruct (Regex.search r s pos) as [m|] eqn:E; [|constructor].
  destruct (search_sound r s pos m before Hlen E) as [Hm Hle].
  constructor; [exact Hm|].
  destruct Hm as [pre [w [post [Hfull [Hi [Hst _]]]]]].
  assert (Hsplit : before ++ s
                   = (before ++ firstn (Regex.stop m - pos) s)
                     ++ skipn (Regex.stop m - pos) s)
    by now rewrite <- app_assoc, firstn_skipn.
  assert (Hbound : Regex.stop m - pos <= List.length s).
  { apply (f_equal (@List.length ascii)) in Hfull.
    rewrite !length_app in Hfull. lia. }
  assert (Hlen' : List.length (before ++ firstn (Regex.stop m - pos) s) = Regex.stop m).
  { rewrite length_app, length_firstn. lia. }
  destruct (Regex.stop m =? Regex.index m).
  - destruct (skipn (Regex.stop m - pos) s) as [|c rest] eqn:Es; [constructor|].
    rewrite Hsplit.
    replace ((before ++ firstn (Regex.stop m - pos) s) ++ c :: rest)
      with (((before ++ firstn (Regex.stop m - pos) s) ++ [c]) ++ rest)
      by now rewrite <- app_assoc.
    apply IH. rewrite length_app, Hlen'. simpl. lia.
  - rewrite Hsplit at 1. now apply IH.
Qed.

Lemma execAll_sound r code :
  Forall (matchOf r (Regex.chars code)) (Regex.execAll r code).
Proof. apply (execAllFrom_sound r _ (Regex.chars code) 0 []). reflexivity. Qed.

(** *** Where the captures come from *)

Lemma captures_located r pos w c :
  matches r pos w c ->
  forall n b e, In (n, (b, e)) c ->
  exists body w1 w2 w3 c',
    In body (groupBodies n r)
    /\ w = w1 ++ w2 ++ w3
    /\ b = pos + List.length w1 /\ e = b + List.length w2
    /\ matches body b w2 c'.
Proof.
  induction 1 as [pos|p pos ch Hp|r1 r2 pos w1 w2 c1 c2 H1 IH1 H2 IH2
                  |r1 r2 pos w c H IH|r1 r2 pos w c H IH
                  |r pos|r pos w1 w2 c1 c2 H1 IH1 H2 IH2
                  |r pos|r pos w1 w2 c1 c2 H1 IH1 H2 IH2
                  |m r pos w c H IH|pos|pos];
    intros n b e Hin; try (now destruct Hin).
  - apply in_app_or in Hin as [Hin|Hin].
    + destruct (IH2 n b e Hin) as [body [u1 [u2 [u3 [c' [Hb [-> [-> [-> Hm]]]]]]]]].
      exists body, (w1 ++ u1), u2, u3, c'. simpl.
      rewrite length_app, <- !app_assoc. repeat split; auto with datatypes. lia.
    + destruct (IH1 n b e Hin) as [body [u1 [u2 [u3 [c' [Hb [-> [-> [-> Hm]]]]]]]]].
      exists body, u1, u2, (u3 ++ w2), c'. simpl.
      rewrite <- !app_assoc. repeat split; auto with datatypes.
  - destruct (IH n b e Hin) as [body [u1 [u2 [u3 [c' [Hb Hrest]]]]]].
    exists body, u1, u2, u3, c'. simpl. split; [auto with datatypes|exact Hrest].
  - destruct (IH n b e Hin) as [body [u1 [u2 [u3 [c' [Hb Hrest]]]]]].
    exists body, u1, u2, u3, c'. simpl. split; [auto with datatypes|exact Hrest].
  - apply in_app_or in Hin as [Hin|Hin].
    + destruct (IH2 n b e Hin) as [body [u1 [u2 [u3 [c' [Hb [-> [-> [-> Hm]]]]]]]]].
      exists body, (w1 ++ u1), u2, u3, c'. simpl in *.
      rewrite length_app, <- !app_assoc. repeat split; auto. lia.
    + destruct (IH1 n b e Hin) as [body [u1 [u2 [u3 [c' [Hb [-> [-> [-> Hm]]]]]]]]].
      exists body, u1, u2, (u3 ++ w2), c'. simpl in *.
      rewrite <- !app_assoc. repeat split; auto.
  - apply in_app_or in Hin as [Hin|Hin].
    + destruct (IH2 n b e Hin) as [body [u1 [u2 [u3 [c' [Hb [-> [-> [-> Hm]]]]]]]]].
      exists body, (w1 ++ u1), u2, u3, c'. simpl in *.
      rewrite length_app, <- !app_assoc. repeat split; auto. lia.
    + destruct (IH1 n b e Hin) as [body [u1 [u2 [u3 [c' [Hb [-> [-> [-> Hm]]]]]]]]].
      exists body, u1, u2, (u3 ++ w2), c'. simpl in *.
      rewrite <- !app_assoc. repeat split; auto.
  - destruct Hin as [Heq|Hin].
    + injection Heq as Hn Hb He. subst n b e.
      exists r, [], w, [], c. simpl. rewrite Nat.eqb_refl, app_nil_r, Nat.add_0_r.
      repeat split; auto. now left.
    + destruct (IH n b e Hin) as [body [u1 [u2 [u3 [c' [Hb Hrest]]]]]].
      exists body, u1, u2, u3, c'. simpl. split; [auto with datatypes|exact Hrest].
Qed.

Lemma lookup_In n c b e : Regex.lookup n c = Some (b, e) -> In (n, (b, e)) c.
Proof.
  induction c as [|[m span] c IH]; simpl; [discriminate|].
  destruct (Nat.eqb_spec m n) as [->|Hne].
  - intros [= ->]. now left.
  - intros H. right. now apply IH.
Qed.

Lemma star_class_word p pos w c :
  matches (Regex.Star (Regex.Cls p)) pos w c -> Forall (fun x => p x = true) w.
Proof.
  intros H. remember (Regex.Star (Regex.Cls p)) as r eqn:Er.
  induction H; try discriminate; injection Er as ->.
  - constructor.
  - apply Forall_app. split; [|now apply IHmatches2].
    inversion H; subst. now repeat constructor.
Qed.


Lemma substring_middle l1 : forall l2 l3 s,
  Regex.chars s = l1 ++ l2 ++ l3 ->
  substring (List.length l1) (List.length l2) s = string_of_list_ascii l2.
Proof.
  unfold Regex.chars.
  induction l1 as [|c l1 IH]; intros l2 l3 s Hs.
  - simpl in *. revert s Hs. induction l2 as [|c l2 IH2]; intros s Hs.
    + destruct s; reflexivity.
    + destruct s as [|x s]; [discriminate|]. simpl in Hs. injection Hs as -> Hs.
      simpl. f_equal. now apply IH2.
  - destruct s as [|x s]; [discriminate|]. simpl in Hs. injection Hs as -> Hs.
    simpl. now apply (IH l2 l3).
Qed.


(** ** Declared names are identifiers *)

Lemma declaration_regex_group1 r :
  In r [Patterns.interfaceRegex; Patterns.typeRegex; Patterns.enumRegex;
        Patterns.constRegex] ->
  forall body, In body (groupBodies 1 r) -> body = Regex.plus Regex.word.
Proof.
  intros Hr body Hb.
  destruct Hr as [<-|[<-|[<-|[<-|[]]]]]; simpl in Hb; intuition.
Qed.









Lemma typesByNameMap_unique ts : NoDup (JsMap.keys (typesByNameMap ts)).
Proof.
  unfold typesByNameMap.
  assert (H : forall (m : JsMap.t TypeDefinition.t),
             NoDup (JsMap.keys m) ->
             NoDup (JsMap.keys (fold_left (fun m t => JsMap.set m (TypeDefinition.name t) t)
                                          ts m))).
  { induction ts as [|t ts IH]; intros m Hm; simpl; [exact Hm|].
    apply IH, NoDup_set, Hm. }
  apply H. constructor.
Qed.

(** The shared vocabulary of a run never holds a name twice. *)
Lemma parsed_primitives_unique fs path p :
  parseSharedPrimitives fs path = Some p ->
  NoDup (JsMap.keys (SharedPrimitives.types p)).
Proof.
  unfold parseSharedPrimitives. destruct (fs path) as [content|]; [|discriminate].
  destruct (JsString.endsWith path ".md").
  - destruct (parseContract fs path) as [c|]; [|discriminate].
    intros [= <-]. apply typesByNameMap_unique.
  - intros [= <-]. apply typesByNameMap_unique.
Qed.



Lemma NoDup_ofEntries {V} (es : list (string * V)) : NoDup (JsMap.keys (JsMap.ofEntries es)).
Proof.
  unfold JsMap.ofEntries.
  assert (H : forall m : JsMap.t V, NoDup (JsMap.keys m) ->
            NoDup (JsMap.keys (fold_left (fun m e => JsMap.set m (fst e) (snd e)) es m))).
  { induction es as [|e es IH]; intros m Hm; simpl; [exact Hm|]. apply IH, NoDup_set, Hm. }
  apply H. constructor.
Qed.

(** ** Which definition is the baseline *)

Lemma compareDefinitions_pair n d1 d2 :
  compareDefinitions n [d1; d2]
  = if isInterfaceDefinition d1 && isInterfaceDefinition d2
    then missingIssues n d1 d2 ++ sharedIssues n d1 d2
    else [].
Proof.
  unfold compareDefinitions. cbn [List.length Nat.leb filter].
  fold (isInterfaceDefinition d1). fold (isInterfaceDefinition d2).
  destruct (isInterfaceDefinition d1), (isInterfaceDefinition d2); cbn [andb flat_map];
    try reflexivity.
  now rewrite app_nil_r.
Qed.

Lemma missing_is_no_mismatch n b c n' b' c' k bp p :
  ~ In (typeMismatchIssue n' b' c' k bp p) (missingIssues n b c).
Proof.
  unfold missingIssues. intros Hin. apply in_flat_map in Hin as [[k0 q] [_ Hin]].
  destruct (negb _); [|destruct Hin]. destruct Hin as [E|[]].
  apply (f_equal VerificationIssue.message) in E. simpl in E. discriminate.
Qed.

(** The mismatches of [sharedIssues] are those of the inline test. *)
Lemma sharedIssues_mismatch n b c n' b' c' k bp p :
  In (typeMismatchIssue n' b' c' k bp p) (sharedIssues n b c) ->
  exists k0 bp0 p0,
    In (k0, p0) (propsMap (Definition_.type c))
    /\ JsMap.get (propsMap (Definition_.type b)) k0 = Some bp0
    /\ negb (String.eqb (PropertyInfo.type bp0) (PropertyInfo.type p0))
       && negb (areTypesCompatible (PropertyInfo.type bp0) (PropertyInfo.type p0)) = true.
Proof.
  unfold sharedIssues. intros Hin. apply in_flat_map in Hin as [[k0 p0] [Hk Hin]].
  destruct (JsMap.get (propsMap (Definition_.type b)) k0) as [bp0|] eqn:Eg; [|destruct Hin].
  apply in_app_or in Hin as [Hin|Hin].
  - destruct (negb _ && negb _) eqn:Et; [|destruct Hin]. exists k0, bp0, p0. auto.
  - destruct (negb (Bool.eqb _ _)); [|destruct Hin]. destruct Hin as [E|[]].
    apply (f_equal VerificationIssue.severity) in E. discriminate.
Qed.

Lemma mismatch_in_sharedIssues n b c k bp p :
  In (k, p) (propsMap (Definition_.type c)) ->
  JsMap.get (propsMap (Definition_.type b)) k = Some bp ->
  negb (String.eqb (PropertyInfo.type bp) (PropertyInfo.type p))
  && negb (areTypesCompatible (PropertyInfo.type bp) (PropertyInfo.type p)) = true ->
  In (typeMismatchIssue n b c k bp p) (sharedIssues n b c).
Proof.
  intros Hk Hg Ht. unfold sharedIssues. apply in_flat_map. exists (k, p).
  split; [exact Hk|]. rewrite Hg, Ht. apply in_or_app. left. now left.
Qed.

Lemma areTypesCompatible_sym a b : areTypesCompatible a b = areTypesCompatible b a.
Proof.
  unfold areTypesCompatible.
  rewrite (String.eqb_sym (normalize a)).
  destruct (String.eqb (normalize b) (normalize a)); [reflexivity|].
  apply existsb_ext'. intros [x y]. rewrite orb_comm.
  f_equal; apply andb_comm.
Qed.

Lemma pair_mismatch_swaps n d1 d2 :
  (exists k bp p, In (typeMismatchIssue n d1 d2 k bp p) (compareDefinitions n [d1; d2])) ->
  exists k bp p, In (typeMismatchIssue n d2 d1 k bp p) (compareDefinitions n [d2; d1]).
Proof.
  intros [k [bp [p Hin]]]. rewrite compareDefinitions_pair in *.
  rewrite (andb_comm (isInterfaceDefinition d2)).
  destruct (isInterfaceDefinition d1 && isInterfaceDefinition d2); [|destruct Hin].
  apply in_app_or in Hin as [Hin|Hin]; [now apply missing_is_no_mismatch in Hin|].
  apply sharedIssues_mismatch in Hin as [k0 [bp0 [p0 (Hk & Hg & Ht)]]].
  exists k0, p0, bp0. apply in_or_app. right. apply mismatch_in_sharedIssues.
  - now apply get_In.
  - apply In_get; [apply NoDup_ofEntries|exact Hk].
  - now rewrite String.eqb_sym, areTypesCompatible_sym.
Qed.

(** C9, amended.  The field-type compatibility check is symmetric:
    [areTypesCompatible a b] and [areTypesCompatible b a] are the same
    boolean; every entry of the equivalence table is accepted in both
    orders; the type-mismatch test of the shape comparison gives the same
    verdict whichever of the two types comes from the baseline; and when a
    name has two definitions, [compareDefinitions] reports a type mismatch
    with the first as baseline exactly when it reports one with the second
    as baseline. *)
Theorem areTypesCompatible_symmetric :
  (forall a b, areTypesCompatible a b = areTypesCompatible b a)
  /\ Forall (fun '(x, y) => areTypesCompatible x y = true /\ areTypesCompatible y x = true)
            equivalences
  /\ (forall a b,
        negb (String.eqb a b) && negb (areTypesCompatible a b)
        = negb (String.eqb b a) && negb (areTypesCompatible b a))
  /\ (forall n d1 d2,
        (exists k bp p,
           In (typeMismatchIssue n d1 d2 k bp p) (compareDefinitions n [d1; d2]))
        <-> (exists k bp p,
               In (typeMismatchIssue n d2 d1 k bp p) (compareDefinitions n [d2; d1]))).
Proof.
  split; [exact areTypesCompatible_sym|]. split; [repeat constructor|]. split.
  - intros a b. now rewrite (String.eqb_sym a b), (areTypesCompatible_sym a b).
  - intros n d1 d2. split; apply pair_mismatch_swaps.
Qed.

(** With [string] and [date], the mismatch is reported whichever of the
    two declarations comes first. *)
Example pair_mismatch_in_both_orders :
  map VerificationIssue.message
      (checkTypeShapeCompatibility [stampB; stampC] emptyPrimitives)
  = ["Type mismatch for 'Stamp.at': 'string' in B-CONTRACT.md vs 'date' in C-CONTRACT.md"]
  /\ map VerificationIssue.message
         (checkTypeShapeCompatibility [stampC; stampB] emptyPrimitives)
     = ["Type mismatch for 'Stamp.at': 'date' in C-CONTRACT.md vs 'string' in B-CONTRACT.md"].
Proof. split; vm_compute; reflexivity. Qed.

(** C9 as stated fails with three declarations.  [Stamp.at] is declared
    with type [Date] by A, [string] by B and [date] by C.  Compatibility is
    not transitive: [Date] is compatible with [string] (table) and with
    [date] (case), [string] and [date] are not.  With A first, B and C are
    compared with A and nothing is reported; with B first, C is compared
    with B and the mismatch is an error. *)
Lemma baseline_choice_changes_verdict :
  checkTypeShapeCompatibility [stampA; stampB; stampC] emptyPrimitives = []
  /\ map (fun i => (VerificationIssue.severity i, VerificationIssue.message i))
         (checkTypeShapeCompatibility [stampB; stampA; stampC] emptyPrimitives)
     = [(SevError,
         "Type mismatch for 'Stamp.at': 'string' in B-CONTRACT.md vs 'date' in C-CONTRACT.md")].
Proof. split; vm_compute; reflexivity. Qed.

(* ====================================================================== *)
(** * Further properties of the verifier *)
(* ====================================================================== *)

(** ** Cycle detection finds a cycle whenever there is one *)

Lemma set_delete_In (s : JsSet.t) (x y : string) :
  In y (JsSet.delete s x) <-> In y s /\ y <> x.
Proof.
  unfold JsSet.delete. rewrite filter_In, negb_true_iff, String.eqb_neq.
  split; intros [H1 H2]; split; auto.
Qed.

Lemma indexOf_In path x : In x path -> exists i, indexOf path x = Some i.
Proof.
  induction path as [|y path IH]; simpl; [tauto|].
  destruct (String.eqb_spec y x) as [->|Hne]; [eauto|].
  intros [E|Hin]; [congruence|].
  destruct (IH Hin) as [i ->]. eauto.
Qed.

Lemma maxRank_bound rank ns n : In n ns -> rank n <= maxRank rank ns.
Proof.
  induction ns as [|x ns IH]; simpl; [tauto|].
  intros [->|Hin]; [lia|]. specialize (IH Hin). lia.
Qed.

(** The cycle list only grows. *)
Lemma dfsNeighbors_cycles_grow visit path :
  (forall n p s s', visit n p s = Some s' -> exists extra, cycles s' = cycles s ++ extra) ->
  forall ns st st', dfsNeighbors visit path ns st = Some st' ->
                    exists extra, cycles st' = cycles st ++ extra.
Proof.
  intros Hvisit. induction ns as [|n ns IH]; intros st st' H; simpl in H.
  - injection H as <-. exists []. now rewrite app_nil_r.
  - destruct (negb (JsSet.has (visited st) n)).
    + destruct (visit n path st) as [s1|] eqn:Hv; [|discriminate].
      destruct (Hvisit _ _ _ _ Hv) as [e1 E1]. destruct (IH _ _ H) as [e2 E2].
      exists (e1 ++ e2). now rewrite E2, E1, app_assoc.
    + destruct (JsSet.has (recStack st) n); [|now apply IH].
      destruct (indexOf path n); [|now apply IH].
      destruct (IH _ _ H) as [e2 E2]. simpl in E2.
      eexists. rewrite E2, <- app_assoc. reflexivity.
Qed.

Lemma dfs_cycles_grow g fuel : forall node path st st',
  dfs fuel g node path st = Some st' -> exists extra, cycles st' = cycles st ++ extra.
Proof.
  induction fuel as [|f IH]; intros node path st st' H; simpl in H; [discriminate|].
  destruct (dfsNeighbors _ _ _ _) as [st2|] eqn:Hloop; [|discriminate].
  injection H as <-. simpl.
  apply (dfsNeighbors_cycles_grow (dfs f g) _ IH) in Hloop. exact Hloop.
Qed.

Lemma app_eq_self {A} (l e : list A) : l ++ e = l -> e = [].
Proof.
  intros H. apply (f_equal (@List.length A)) in H. rewrite length_app in H.
  destruct e; [reflexivity|simpl in H; lia].
Qed.

(** What a call that pushes no cycle leaves behind. *)
Definition quietResult (g : Graph) (st st' : dfsState) : Prop :=
  settled g st'
  /\ incl (visited st) (visited st')
  /\ (forall x, In x (recStack st') <-> In x (recStack st))
  /\ incl (recStack st') (visited st').

Lemma finished_kept g st st' x :
  quietResult g st st' -> finished st x -> finished st' x.
Proof.
  intros (_ & Hv & Hr & _) [H1 H2]. split; [now apply Hv|]. now rewrite Hr.
Qed.

Lemma quietResult_refl g st :
  settled g st -> incl (recStack st) (visited st) -> quietResult g st st.
Proof.
  intros Hs Hi. repeat split; auto using incl_refl.
Qed.

Lemma quietResult_trans g st1 st2 st3 :
  quietResult g st1 st2 -> quietResult g st2 st3 -> quietResult g st1 st3.
Proof.
  intros (_ & Hv1 & Hr1 & _) (Hs & Hv2 & Hr2 & Hi). repeat split; auto.
  - eapply incl_tran; eauto.
  - intros H. apply Hr1, Hr2, H.
  - intros H. apply Hr2, Hr1, H.
Qed.

Section Quiet.
Variable g : Graph.
Variable f : nat.
Hypothesis visit_quiet :
  forall node path st st',
    dfs f g node path st = Some st' -> cycles st' = cycles st ->
    ~ In node (visited st) ->
    incl (recStack st) path -> incl (recStack st) (visited st) ->
    settled g st ->
    quietResult g st st' /\ finished st' node.

Lemma dfsNeighbors_quiet path ns : forall st st',
  dfsNeighbors (dfs f g) path ns st = Some st' -> cycles st' = cycles st ->
  incl (recStack st) path -> incl (recStack st) (visited st) ->
  settled g st ->
  quietResult g st st' /\ forall n, In n ns -> finished st' n.
Proof.
  induction ns as [|n ns IH]; intros st st' Hrun Hq Hp Hi Hs; simpl in Hrun.
  - injection Hrun as <-. split; [now apply quietResult_refl|intros n []].
  - destruct (JsSet.has (visited st) n) eqn:Hv; simpl in Hrun.
    + destruct (JsSet.has (recStack st) n) eqn:Hr.
      * apply set_has in Hr. destruct (indexOf_In path n (Hp _ Hr)) as [i Ei].
        rewrite Ei in Hrun.
        apply (dfsNeighbors_cycles_grow (dfs f g) path (dfs_cycles_grow g f)) in Hrun.
        destruct Hrun as [e E]. simpl in E. rewrite Hq, <- app_assoc in E.
        symmetry in E. apply app_eq_self in E. discriminate.
      * destruct (IH st st' Hrun Hq Hp Hi Hs) as [HQ Hn]. split; [exact HQ|].
        intros x [<-|Hx]; [|now apply Hn].
        apply (finished_kept g st st' n HQ). split; [now apply set_has|].
        now apply set_has_false.
    + destruct (dfs f g n path st) as [s1|] eqn:Hd; [|discriminate].
      destruct (dfs_cycles_grow g f _ _ _ _ Hd) as [e1 E1].
      destruct (dfsNeighbors_cycles_grow (dfs f g) path (dfs_cycles_grow g f) _ _ _ Hrun)
        as [e2 E2].
      assert (e1 = []) as ->.
      { rewrite E1, Hq, <- app_assoc in E2. symmetry in E2. apply app_eq_self in E2.
        now destruct e1. }
      rewrite app_nil_r in E1.
      apply set_has_false in Hv.
      destruct (visit_quiet n path st s1 Hd E1 Hv Hp Hi Hs) as [HQ1 Hf1].
      assert (HQ1' := HQ1). destruct HQ1' as (Hs1 & Hv1 & Hr1 & Hi1).
      destruct (IH s1 st' Hrun) as [HQ2 Hn]; auto.
      { congruence. }
      { intros x Hx. apply Hp. now apply Hr1. }
      split; [now apply (quietResult_trans g st s1 st')|].
      intros x [<-|Hx]; [|now apply Hn].
      now apply (finished_kept g s1 st').
Qed.
End Quiet.

Lemma dfs_quiet g fuel : forall node path st st',
  dfs fuel g node path st = Some st' -> cycles st' = cycles st ->
  ~ In node (visited st) ->
  incl (recStack st) path -> incl (recStack st) (visited st) ->
  settled g st ->
  quietResult g st st' /\ finished st' node.
Proof.
  induction fuel as [|f IH]; intros node path st st' Hrun Hq Hnv Hp Hi Hs;
    simpl in Hrun; [discriminate|].
  destruct (dfsNeighbors _ _ _ _) as [st2|] eqn:Hloop; [|discriminate].
  injection Hrun as <-. simpl in Hq.
  assert (Hnr : ~ In node (recStack st)) by (intros H; apply Hnv, Hi, H).
  destruct (dfsNeighbors_quiet g f IH _ _ _ _ Hloop Hq) as [HQ Hn]; simpl.
  - intros x Hx. apply set_add_In in Hx. apply in_or_app.
    destruct Hx as [->|Hx]; [right; now left|left; now apply Hp].
  - intros x Hx. apply set_add_In in Hx. apply set_add_In.
    destruct Hx as [->|Hx]; [now left|right; now apply Hi].
  - destruct Hs as [rank Hrank]. exists rank. intros u v [Hu1 Hu2] He. simpl in Hu1, Hu2.
    rewrite set_add_In in Hu1, Hu2.
    assert (Hfu : finished st u) by (split; tauto).
    destruct (Hrank u v Hfu He) as [[Hv1 Hv2] Hlt]. split; [|exact Hlt].
    split; simpl; rewrite set_add_In; [tauto|].
    intros [->|H]; tauto.
  - destruct HQ as (Hs2 & Hv2 & Hr2 & Hi2). simpl in Hv2, Hr2.
    assert (Hnode2 : In node (recStack st2)).
    { apply Hr2. apply set_add_In. now left. }
    split; [repeat split|].
    + destruct Hs2 as [rank Hrank].
      exists (fun x => if String.eqb x node
                       then S (maxRank rank (neighborsOf g node)) else rank x).
      intros u v [Hu1 Hu2] He. simpl in Hu1, Hu2. rewrite set_delete_In in Hu2.
      assert (Hfin2 : forall w, finished st2 w ->
                finished (mkDfs (cycles st2) (visited st2)
                                (JsSet.delete (recStack st2) node)) w /\ w <> node).
      { intros w [Hw1 Hw2]. split; [split; simpl; [exact Hw1|]|].
        - rewrite set_delete_In. tauto.
        - intros ->. tauto. }
      destruct (String.eqb_spec u node) as [->|Hne].
      * specialize (Hn v He). destruct (Hfin2 v Hn) as [Hfv Hvn].
        split; [exact Hfv|]. apply String.eqb_neq in Hvn. rewrite Hvn.
        pose proof (maxRank_bound rank _ v He). lia.
      * assert (Hfu : finished st2 u) by (split; tauto).
        destruct (Hrank u v Hfu He) as [Hfv Hlt].
        destruct (Hfin2 v Hfv) as [Hfv' Hvn]. split; [exact Hfv'|].
        apply String.eqb_neq in Hvn. now rewrite Hvn.
    + simpl. intros x Hx. apply Hv2. apply set_add_In. now right.
    + simpl. rewrite set_delete_In, Hr2, set_add_In. intros [[->|H] Hne]; tauto.
    + simpl. rewrite set_delete_In, Hr2, set_add_In. intros H. split; [now right|].
      intros ->. tauto.
    + simpl. intros x Hx. apply set_delete_In in Hx. apply Hi2. tauto.
    + split; simpl; [apply Hi2, Hnode2|]. rewrite set_delete_In. tauto.
Qed.

Lemma dfsRoots_cycles_grow g fuel roots : forall st st',
  dfsRoots fuel g roots st = Some st' -> exists extra, cycles st' = cycles st ++ extra.
Proof.
  induction roots as [|r roots IH]; intros st st' H; simpl in H.
  - injection H as <-. exists []. now rewrite app_nil_r.
  - destruct (negb (JsSet.has (visited st) r)); [|now apply IH].
    destruct (dfs fuel g r [] st) as [s1|] eqn:Hd; [|discriminate].
    destruct (dfs_cycles_grow g fuel _ _ _ _ Hd) as [e1 E1].
    destruct (IH _ _ H) as [e2 E2]. exists (e1 ++ e2). now rewrite E2, E1, app_assoc.
Qed.

Lemma dfsRoots_quiet g fuel roots : forall st st',
  dfsRoots fuel g roots st = Some st' -> cycles st' = cycles st ->
  (forall x, ~ In x (recStack st)) -> settled g st ->
  settled g st' /\ (forall x, ~ In x (recStack st'))
  /\ incl (visited st) (visited st')
  /\ forall r, In r roots -> In r (visited st').
Proof.
  induction roots as [|r roots IH]; intros st st' Hrun Hq He Hs; simpl in Hrun.
  - injection Hrun as <-. repeat split; auto using incl_refl. intros r [].
  - destruct (JsSet.has (visited st) r) eqn:Hv; simpl in Hrun.
    + destruct (IH st st' Hrun Hq He Hs) as (Hs' & He' & Hv' & Hr).
      repeat split; auto. intros x [<-|Hx]; [|now apply Hr].
      apply Hv'. now apply set_has.
    + destruct (dfs fuel g r [] st) as [s1|] eqn:Hd; [|discriminate].
      destruct (dfs_cycles_grow g fuel _ _ _ _ Hd) as [e1 E1].
      destruct (dfsRoots_cycles_grow g fuel _ _ _ Hrun) as [e2 E2].
      assert (e1 = []) as ->.
      { rewrite E1, Hq, <- app_assoc in E2. symmetry in E2. apply app_eq_self in E2.
        now destruct e1. }
      rewrite app_nil_r in E1. apply set_has_false in Hv.
      assert (Hnil : forall l, incl (recStack st) l)
        by (intros l x Hx; now apply He in Hx).
      destruct (dfs_quiet g fuel r [] st s1 Hd E1 Hv (Hnil _) (Hnil _) Hs)
        as [(Hs1 & Hv1 & Hr1 & Hi1) Hf1].
      destruct (IH s1 st' Hrun) as (Hs' & He' & Hv' & Hr); [congruence| |exact Hs1|].
      { intros x Hx. apply Hr1 in Hx. now apply He in Hx. }
      repeat split; auto.
      * eapply incl_tran; eauto.
      * intros x [<-|Hx]; [|now apply Hr]. apply Hv'. apply Hf1.
Qed.

(** A run that reports no cycle was given a graph without cycles. *)
Lemma detectCycles_complete g : detectCycles g = Some [] -> acyclic g.
Proof.
  unfold detectCycles. destruct (dfsRoots _ _ _ _) as [st|] eqn:E; [|discriminate].
  intros [= Hc].
  destruct (dfsRoots_quiet g _ _ _ _ E) as ([rank Hrank] & He & _ & Hr).
  - now rewrite Hc.
  - intros x [].
  - exists (fun _ => 0). intros u v [[] _].
  - apply (ranked_acyclic g rank). intros u v Huv.
    assert (Hk : In u (JsMap.keys g)).
    { destruct (JsMap.get g u) eqn:Eg.
      - apply get_In in Eg. apply (in_map fst) in Eg. exact Eg.
      - unfold edge, neighborsOf in Huv. rewrite Eg in Huv. destruct Huv. }
    apply (Hrank u v); [|exact Huv]. split; [now apply Hr|apply He].
Qed.

(** X1.  [detectCycles] returns for every graph; each cycle it reports is a
    closed walk along edges of the graph; and when the graph has a cycle the
    report is not empty: no cycle is invented and a cyclic graph never goes
    unnoticed. *)
Theorem detectCycles_finds_real_cycles (g : Graph) :
  exists cs, detectCycles g = Some cs
             /\ Forall (closedWalk g) cs
             /\ (cs = [] <-> acyclic g).
Proof.
  destruct (detectCycles_total g) as [cs Hcs]. exists cs.
  pose proof (detectCycles_sound g cs Hcs) as Hs.
  split; [exact Hcs|split; [exact Hs|split]].
  - intros ->. now apply detectCycles_complete.
  - intros Hac. destruct cs as [|c cs]; [reflexivity|].
    inversion Hs as [|? ? Hc _]; subst. now apply Hac in Hc.
Qed.

(** ** The edit distance is the length of the shortest edit script *)

Lemma editDistance_nil_l ra : editDistance [] ra = List.length ra.
Proof. reflexivity. Qed.

Lemma cell_le_diag bc ac diag left up : cell bc ac diag left up <= S diag.
Proof. unfold cell. destruct (Ascii.eqb bc ac); lia. Qed.

(** One more character on either side moves the distance by at most one. *)
Lemma editDistance_step : forall n a b,
  List.length a + List.length b <= n ->
  (forall c, editDistance a b <= S (editDistance (c :: a) b))
  /\ (forall c, editDistance (c :: a) b <= S (editDistance a b)).
Proof.
  induction n as [|n IH]; intros a b Hlen.
  - destruct a, b; simpl in Hlen; try lia. split; intros c; simpl; lia.
  - destruct b as [|d b'].
    + split; intros c; rewrite !editDistance_nil_r; simpl; lia.
    + simpl in Hlen.
      destruct (IH a b' ltac:(lia)) as [L1 U1].
      destruct (IH b' a ltac:(lia)) as [L2 U2].
      split; intros c; rewrite (editDistance_cons c a d b'); unfold cell.
      * specialize (U2 d). rewrite (editDistance_sym (d :: b') a) in U2.
        rewrite (editDistance_sym b' a) in U2.
        specialize (L1 c).
        destruct (Ascii.eqb c d); lia.
      * specialize (L2 d). rewrite (editDistance_sym (d :: b') a) in L2.
        rewrite (editDistance_sym b' a) in L2.
        destruct (Ascii.eqb c d); lia.
Qed.

Lemma editDistance_delete c a b : editDistance (c :: a) b <= S (editDistance a b).
Proof. now apply (editDistance_step _ a b (Nat.le_refl _)). Qed.

Lemma editDistance_insert d a b : editDistance a (d :: b) <= S (editDistance a b).
Proof.
  rewrite (editDistance_sym a (d :: b)), (editDistance_sym a b).
  apply editDistance_delete.
Qed.

Lemma editDistance_script a : forall b, script a b (editDistance a b).
Proof.
  induction a as [|c a IHa]; intros b.
  - rewrite editDistance_nil_l. induction b as [|d b IHb]; simpl; constructor; exact IHb.
  - induction b as [|d b IHb].
    + rewrite editDistance_nil_r. simpl. constructor.
      specialize (IHa []). now rewrite editDistance_nil_r in IHa.
    + rewrite editDistance_cons. unfold cell.
      destruct (Ascii.eqb_spec c d) as [->|Hne].
      * constructor. apply IHa.
      * destruct (Nat.min_spec (editDistance a b + 1)
                    (Nat.min (editDistance (c :: a) b + 1) (editDistance a (d :: b) + 1)))
          as [[_ ->]|[_ ->]].
        { rewrite Nat.add_1_r. constructor. apply IHa. }
        destruct (Nat.min_spec (editDistance (c :: a) b + 1) (editDistance a (d :: b) + 1))
          as [[_ ->]|[_ ->]]; rewrite Nat.add_1_r; constructor; [exact IHb|apply IHa].
Qed.

Lemma script_editDistance a b n : script a b n -> editDistance a b <= n.
Proof.
  induction 1.
  - simpl. lia.
  - rewrite editDistance_cons. unfold cell. rewrite Ascii.eqb_refl. exact IHscript.
  - rewrite editDistance_cons. pose proof (cell_le_diag c d (editDistance a b)
      (editDistance (c :: a) b) (editDistance a (d :: b))). lia.
  - pose proof (editDistance_delete c a b). lia.
  - pose proof (editDistance_insert d a b). lia.
Qed.

Lemma script_app a b n : script a b n ->
  forall x y k, script x y k -> script (a ++ x) (b ++ y) (n + k).
Proof.
  induction 1; intros x y k Hxy; simpl; try (constructor; now apply IHscript).
  exact Hxy.
Qed.

Lemma script_rev a b n : script a b n -> script (rev a) (rev b) n.
Proof.
  induction 1; simpl.
  - constructor.
  - rewrite <- (Nat.add_0_r n). apply script_app; [exact IHscript|repeat constructor].
  - rewrite <- Nat.add_1_r. apply script_app; [exact IHscript|repeat constructor].
  - rewrite <- Nat.add_1_r, <- (app_nil_r (rev b)).
    apply script_app; [exact IHscript|repeat constructor].
  - rewrite <- Nat.add_1_r, <- (app_nil_r (rev a)).
    apply script_app; [exact IHscript|repeat constructor].
Qed.

Lemma script_sym a b n : script a b n -> script b a n.
Proof. induction 1; constructor; assumption. Qed.

(** Scripts compose. *)
Lemma script_trans a b n : script a b n ->
  forall c m, script b c m -> exists k, k <= n + m /\ script a c k.
Proof.
  induction 1 as [|c0 a b n H IH|c0 d a b n H IH|c0 a b n H IH|d a b n H IH];
    intros c m H2.
  - exists m. split; [lia|exact H2].
  - remember (c0 :: b) as b0 eqn:Eb. revert Eb.
    induction H2 as [|e x y m H2 _|e e' x y m H2 _|e x y m H2 _|e' x y m H2 IH2];
      intros Eb; try discriminate.
    + injection Eb as -> ->. destruct (IH _ _ H2) as [k [Hk Hs]].
      exists k. split; [lia|now constructor].
    + injection Eb as -> ->. destruct (IH _ _ H2) as [k [Hk Hs]].
      exists (S k). split; [lia|now constructor].
    + injection Eb as -> ->. destruct (IH _ _ H2) as [k [Hk Hs]].
      exists (S k). split; [lia|now constructor].
    + destruct (IH2 Eb) as [k [Hk Hs]].
      exists (S k). split; [lia|now constructor].
  - remember (d :: b) as b0 eqn:Eb. revert Eb.
    induction H2 as [|e x y m H2 _|e e' x y m H2 _|e x y m H2 _|e' x y m H2 IH2];
      intros Eb; try discriminate.
    + injection Eb as -> ->. destruct (IH _ _ H2) as [k [Hk Hs]].
      exists (S k). split; [lia|now constructor].
    + injection Eb as -> ->. destruct (IH _ _ H2) as [k [Hk Hs]].
      exists (S k). split; [lia|now constructor].
    + injection Eb as -> ->. destruct (IH _ _ H2) as [k [Hk Hs]].
      exists (S k). split; [lia|now constructor].
    + destruct (IH2 Eb) as [k [Hk Hs]].
      exists (S k). split; [lia|now constructor].
  - destruct (IH _ _ H2) as [k [Hk Hs]].
    exists (S k). split; [lia|now constructor].
  - remember (d :: b) as b0 eqn:Eb. revert Eb.
    induction H2 as [|e x y m H2 _|e e' x y m H2 _|e x y m H2 _|e' x y m H2 IH2];
      intros Eb; try discriminate.
    + injection Eb as -> ->. destruct (IH _ _ H2) as [k [Hk Hs]].
      exists (S k). split; [lia|now constructor].
    + injection Eb as -> ->. destruct (IH _ _ H2) as [k [Hk Hs]].
      exists (S k). split; [lia|now constructor].
    + injection Eb as -> ->. destruct (IH _ _ H2) as [k [Hk Hs]].
      exists k. split; [lia|exact Hs].
    + destruct (IH2 Eb) as [k [Hk Hs]].
      exists (S k). split; [lia|now constructor].
Qed.

Lemma rev_script_iff a b n : script (rev a) (rev b) n <-> script a b n.
Proof.
  split; [|apply script_rev].
  intros H. apply script_rev in H. now rewrite !rev_involutive in H.
Qed.

(** X2.  [levenshteinDistance a b] is the length of a shortest edit script
    between the two strings: some sequence of that many single-character
    insertions, deletions and substitutions turns [a] into [b], and no
    shorter one does. *)
Theorem levenshteinDistance_shortest_script (a b : string) :
  script (list_ascii_of_string a) (list_ascii_of_string b) (levenshteinDistance a b)
  /\ forall n, script (list_ascii_of_string a) (list_ascii_of_string b) n ->
               levenshteinDistance a b <= n.
Proof.
  rewrite levenshteinDistance_editDistance. split.
  - apply rev_script_iff, script_sym, editDistance_script.
  - intros n H. apply script_editDistance, script_sym, rev_script_iff, H.
Qed.

Lemma editDistance_refl a : editDistance a a = 0.
Proof.
  induction a as [|c a IH]; [reflexivity|].
  rewrite editDistance_cons. unfold cell. now rewrite Ascii.eqb_refl.
Qed.

Lemma script_zero a b n : script a b n -> n = 0 -> a = b.
Proof. induction 1; intros E; try discriminate; [reflexivity|f_equal; auto]. Qed.

Lemma script_lengths a b n : script a b n ->
  List.length a <= List.length b + n /\ List.length b <= List.length a + n.
Proof. induction 1; simpl; lia. Qed.

Lemma editDistance_max a : forall b,
  editDistance a b <= Nat.max (List.length a) (List.length b).
Proof.
  induction a as [|c a IHa]; intros b; [simpl; lia|].
  destruct b as [|d b]; [rewrite editDistance_nil_r; simpl; lia|].
  rewrite editDistance_cons.
  pose proof (cell_le_diag c d (editDistance a b)
      (editDistance (c :: a) b) (editDistance a (d :: b))).
  specialize (IHa b). cbn [List.length]. lia.
Qed.

Lemma list_ascii_inj a b : list_ascii_of_string a = list_ascii_of_string b -> a = b.
Proof.
  intros H. rewrite <- (string_of_list_ascii_of_string a),
    <- (string_of_list_ascii_of_string b). now rewrite H.
Qed.

Lemma list_ascii_length a : List.length (list_ascii_of_string a) = String.length a.
Proof. induction a as [|c a IH]; simpl; [reflexivity|now rewrite IH]. Qed.

(** X3.  [levenshteinDistance] is a metric on strings: it is zero exactly
    between a string and itself, it does not depend on the order of its
    arguments, and it obeys the triangle inequality. *)
Theorem levenshteinDistance_metric (a b c : string) :
  (levenshteinDistance a b = 0 <-> a = b)
  /\ levenshteinDistance a b = levenshteinDistance b a
  /\ levenshteinDistance a c <= levenshteinDistance a b + levenshteinDistance b c.
Proof.
  split; [|split].
  - split.
    + intros E. apply list_ascii_inj.
      rewrite levenshteinDistance_editDistance in E.
      apply (script_zero _ _ _ (editDistance_script _ _)) in E.
      apply (f_equal (@rev ascii)) in E. rewrite !rev_involutive in E. now symmetry.
    + intros ->. rewrite levenshteinDistance_editDistance. apply editDistance_refl.
  - apply levenshteinDistance_sym.
  - rewrite !levenshteinDistance_editDistance.
    destruct (script_trans _ _ _ (editDistance_script (rev (list_ascii_of_string c))
                                    (rev (list_ascii_of_string b)))
                _ _ (editDistance_script (rev (list_ascii_of_string b))
                       (rev (list_ascii_of_string a)))) as [k [Hk Hs]].
    apply script_editDistance in Hs. lia.
Qed.

(** X4.  The distance between two strings is at least the difference of
    their lengths and at most the length of the longer one, so the quotient
    [distance / maxLen] of [similarityRatio] lies between 0 and 1. *)
Theorem levenshteinDistance_bounds (a b : string) :
  String.length a - String.length b <= levenshteinDistance a b
  /\ String.length b - String.length a <= levenshteinDistance a b
  /\ levenshteinDistance a b <= Nat.max (String.length a) (String.length b).
Proof.
  rewrite levenshteinDistance_editDistance.
  pose proof (script_lengths _ _ _ (editDistance_script (rev (list_ascii_of_string b))
                                      (rev (list_ascii_of_string a)))) as [H1 H2].
  pose proof (editDistance_max (rev (list_ascii_of_string b))
                (rev (list_ascii_of_string a))) as H3.
  rewrite !length_rev, !list_ascii_length in *. lia.
Qed.

(** ** What [findSimilarNames] reports, whatever the names *)

Lemma pairKey_comm x y : pairKey x y = pairKey y x.
Proof.
  unfold pairKey, String.ltb. rewrite (String.compare_antisym x y).
  destruct (String.compare y x) eqn:E; simpl; try reflexivity.
  apply String.compare_eq_iff in E. now subst.
Qed.

(** The entries are about two different names of [names], carry the ratio
    of the names in lower case, which is in range, and have their keys in
    [seenPairs], each once. *)
Definition similarInvariant (threshold : float) (names : list string)
           (st : similarState) : Prop :=
  (forall x y r, In (x, y, r) (similar st) ->
     x <> y /\ In x names /\ In y names
     /\ r = nameSimilarity x y /\ inSimilarRange threshold r = true)
  /\ NoDup (map keyOf (similar st))
  /\ forall e, In e (similar st) -> In (keyOf e) (seenPairs st).

Lemma similarStep_invariant threshold names name1 name2 st :
  In name1 names -> In name2 names ->
  similarInvariant threshold names st ->
  similarInvariant threshold names (similarStep threshold name1 st name2).
Proof.
  intros H1 H2 Hinv. assert (Hinv' := Hinv). destruct Hinv' as (Hent & Hnd & Hseen).
  unfold similarStep.
  destruct (String.eqb_spec name1 name2) as [E|Hne]; [exact Hinv|].
  destruct (JsSet.has (seenPairs st) (pairKey name1 name2)) eqn:Hhas; [exact Hinv|].
  destruct (inSimilarRange threshold _) eqn:Hr; [|exact Hinv].
  apply set_has_false in Hhas. split; [intros x y r H; simpl in H; repeat split|split]; simpl.
  - apply in_app_or in H as [H|[[= <- <- <-]|[]]]; [now apply (Hent x y r)|exact Hne].
  - apply in_app_or in H as [H|[[= <- <- <-]|[]]]; [now apply (Hent x y r)|exact H1].
  - apply in_app_or in H as [H|[[= <- <- <-]|[]]]; [now apply (Hent x y r)|exact H2].
  - apply in_app_or in H as [H|[[= <- <- <-]|[]]]; [now apply (Hent x y r)|reflexivity].
  - apply in_app_or in H as [H|[[= <- <- <-]|[]]]; [now apply (Hent x y r)|exact Hr].
  - rewrite map_app. simpl. apply NoDup_app; [exact Hnd|repeat constructor; intros []|].
    intros k Hk [E|[]]. subst k. apply in_map_iff in Hk as [e [E He]].
    apply Hhas. unfold keyOf in E at 2. simpl in E. rewrite <- E. now apply Hseen.
  - intros e He. apply set_add_In. apply in_app_or in He as [He|[<-|[]]].
    + right. now apply Hseen.
    + now left.
Qed.

Lemma similarInner_invariant threshold names name1 rest : forall st,
  In name1 names -> incl rest names ->
  similarInvariant threshold names st ->
  similarInvariant threshold names (fold_left (similarStep threshold name1) rest st).
Proof.
  induction rest as [|name2 rest IH]; intros st H1 Hr Hinv; simpl; [exact Hinv|].
  apply IH; [exact H1|intros x Hx; apply Hr; now right|].
  apply similarStep_invariant; auto. apply Hr. now left.
Qed.

Lemma similarLoop_invariant threshold names uniqueNames : forall st,
  incl uniqueNames names ->
  similarInvariant threshold names st ->
  similarInvariant threshold names (similarLoop threshold uniqueNames st).
Proof.
  induction uniqueNames as [|name1 rest IH]; intros st Hu Hinv; simpl; [exact Hinv|].
  assert (Hr : incl rest names) by (intros x Hx; apply Hu; now right).
  apply IH; [exact Hr|]. apply similarInner_invariant; auto. apply Hu. now left.
Qed.

Lemma findSimilarNames_invariant names threshold :
  similarInvariant threshold names
    (similarLoop threshold (JsSet.ofList names) (mkSimilarState [] [])).
Proof.
  apply similarLoop_invariant.
  - intros x Hx. destruct (ofList_spec names [] (NoDup_nil _)) as [_ Hin].
    apply Hin in Hx as [[]|Hx]. exact Hx.
  - repeat split; simpl; try contradiction. constructor.
Qed.

Lemma NoDup_map_nth {A B} (f : A -> B) (l : list A) i j d :
  NoDup (map f l) -> i < j -> j < List.length l -> f (nth i l d) <> f (nth j l d).
Proof.
  intros Hnd Hij Hj E.
  rewrite <- !(map_nth f) in E.
  apply (proj1 (NoDup_nth (map f l) (f d)) Hnd i j) in E;
    rewrite ?length_map; lia.
Qed.

(** X5.  Whatever strings it is given, [findSimilarNames] reports only pairs
    of two different names of its input, each with the similarity ratio of
    the two names in lower case, which lies in the range
    [threshold <= ratio < 1]; and no two entries are about the same two
    names, in either order. *)
Theorem findSimilarNames_entries names threshold :
  (forall x y r, In (x, y, r) (findSimilarNames names threshold) ->
     x <> y /\ In x names /\ In y names
     /\ r = nameSimilarity x y /\ inSimilarRange threshold r = true)
  /\ (forall i j, i < j -> j < List.length (findSimilarNames names threshold) ->
      forall x y r u v s,
        nth_error (findSimilarNames names threshold) i = Some (x, y, r) ->
        nth_error (findSimilarNames names threshold) j = Some (u, v, s) ->
        ~ (x = u /\ y = v) /\ ~ (x = v /\ y = u)).
Proof.
  destruct (findSimilarNames_invariant names threshold) as (Hent & Hnd & _).
  split; [exact Hent|].
  intros i j Hij Hj x y r u v s Hi Hjn. unfold findSimilarNames in *.
  set (l := similar _) in *.
  pose proof (NoDup_map_nth keyOf l i j (x, y, r) Hnd Hij Hj) as Hne.
  rewrite (nth_error_nth _ _ _ Hi), (nth_error_nth _ _ _ Hjn) in Hne.
  unfold keyOf in Hne. simpl in Hne.
  split; intros [-> ->]; [now apply Hne|]. apply Hne. apply pairKey_comm.
Qed.

(** Three names, one of them twice, at the threshold of the naming check. *)
Lemma findSimilarNames_entries_witness :
  In ("CustomerProfile", "CustomerProfiles",
      nameSimilarity "CustomerProfile" "CustomerProfiles")
     (findSimilarNames ["CustomerProfile"; "Order"; "CustomerProfiles"; "Order"]
                       namingThreshold)
  /\ ("CustomerProfile" <> "CustomerProfiles"
      /\ In "CustomerProfile" ["CustomerProfile"; "Order"; "CustomerProfiles"; "Order"]
      /\ In "CustomerProfiles" ["CustomerProfile"; "Order"; "CustomerProfiles"; "Order"]
      /\ nameSimilarity "CustomerProfile" "CustomerProfiles"
         = nameSimilarity "CustomerProfile" "CustomerProfiles"
      /\ inSimilarRange namingThreshold
           (nameSimilarity "CustomerProfile" "CustomerProfiles") = true).
Proof.
  assert (H : In ("CustomerProfile", "CustomerProfiles",
                  nameSimilarity "CustomerProfile" "CustomerProfiles")
                 (findSimilarNames ["CustomerProfile"; "Order"; "CustomerProfiles"; "Order"]
                                   namingThreshold))
    by (vm_compute; left; reflexivity).
  split; [exact H|].
  apply (proj1 (findSimilarNames_entries
                  ["CustomerProfile"; "Order"; "CustomerProfiles"; "Order"]
                  namingThreshold) _ _ _ H).
Defined.

(** ** Where the extracted declarations stand in the code *)

Lemma matches_lit l : forall pos w c,
  matches (Regex.lit l) pos w c -> w = Regex.chars l.
Proof.
  induction l as [|x l IH]; intros pos w c H; simpl in H.
  - now inversion H.
  - inversion H as [| |? ? ? w1 w2 c1 c2 H1 H2| | | | | | | | |]; subst.
    inversion H1 as [|p ? ch Hp| | | | | | | | | |]; subst.
    apply Ascii.eqb_eq in Hp. subst ch. unfold Regex.chars. simpl. f_equal.
    exact (IH _ _ _ H2).
Qed.

Lemma string_of_list_ascii_app l1 l2 :
  string_of_list_ascii (l1 ++ l2) = string_of_list_ascii l1 +++ string_of_list_ascii l2.
Proof. induction l1 as [|c l1 IH]; simpl; [reflexivity|now rewrite IH]. Qed.

(** A match cuts the input in three: what is before, the match, the rest. *)
Lemma matchOf_parts r code m :
  matchOf r (Regex.chars code) m ->
  exists pre w post,
    code = string_of_list_ascii pre +++ string_of_list_ascii w +++ string_of_list_ascii post
    /\ Regex.before code m = string_of_list_ascii pre
    /\ Regex.whole code m = string_of_list_ascii w
    /\ Regex.index m = List.length pre
    /\ matches r (Regex.index m) w (Regex.groups m).
Proof.
  intros [pre [w [post [Hfull [Hi [Hst Hm]]]]]]. exists pre, w, post.
  repeat split; auto.
  - rewrite <- !string_of_list_ascii_app, <- Hfull. unfold Regex.chars.
    now rewrite string_of_list_ascii_of_string.
  - unfold Regex.before. rewrite Hi.
    apply (substring_middle [] pre (w ++ post)). exact Hfull.
  - unfold Regex.whole. rewrite Hst, Hi.
    replace (List.length pre + List.length w - List.length pre) with (List.length w) by lia.
    apply (substring_middle pre w post). exact Hfull.
Qed.

Lemma prefix_append p s : String.prefix p (p +++ s) = true.
Proof.
  induction p as [|c p IH]; simpl; [now destruct s|].
  destruct (ascii_dec c c); [exact IH|contradiction].
Qed.

Lemma export_match_located r rest code startLine m :
  r = Regex.Cat (Regex.lit "export") rest ->
  In m (Regex.execAll r code) ->
  exists pre post,
    code = pre +++ Regex.whole code m +++ post
    /\ lineOf code startLine m = startLine + JsString.countNewlines pre
    /\ JsString.startsWith (Regex.whole code m) "export" = true.
Proof.
  intros -> Hin.
  pose proof (execAll_sound (Regex.Cat (Regex.lit "export") rest) code) as Hall.
  rewrite Forall_forall in Hall. specialize (Hall m Hin).
  apply matchOf_parts in Hall as [pre [w [post (Hcode & Hb & Hw & _ & Hm)]]].
  exists (string_of_list_ascii pre), (string_of_list_ascii post).
  unfold lineOf. rewrite Hb, Hw. split; [exact Hcode|split; [reflexivity|]].
  inversion Hm as [| |? ? ? w1 w2 c1 c2 H1 H2| | | | | | | | |]; subst.
  apply (matches_lit "export") in H1. subst w1.
  rewrite string_of_list_ascii_app. unfold JsString.startsWith, Regex.chars.
  rewrite string_of_list_ascii_of_string. apply prefix_append.
Qed.

(** X6.  Every declaration that [extractTypes] returns is a piece of the
    code that begins with the keyword [export]; its [rawContent] is that
    piece and its [line] is [startLine] plus the number of line feeds that
    stand before it in the code. *)
Theorem extractTypes_located code startLine t :
  In t (extractTypes code startLine) ->
  exists pre post,
    code = pre +++ TypeDefinition.rawContent t +++ post
    /\ TypeDefinition.line t = startLine + JsString.countNewlines pre
    /\ JsString.startsWith (TypeDefinition.rawContent t) "export" = true.
Proof.
  unfold extractTypes. intros Hin.
  repeat (apply in_app_or in Hin as [Hin|Hin]);
    apply in_map_iff in Hin as [m [<- Hm]]; simpl;
    eapply export_match_located; try exact Hm; reflexivity.
Qed.

(** The enumeration on the third line of a file of two declarations. *)
Lemma extractTypes_located_witness :
  In (TypeDefinition.mk "OrderStatus" KEnum
        [PropertyInfo.mk "Open" "enum-value" false;
         PropertyInfo.mk "Paid" "enum-value" false;
         PropertyInfo.mk "Shipped" "enum-value" false;
         PropertyInfo.mk "Closed" "enum-value" false]
        "export enum OrderStatus { Open, Paid, Shipped, Closed }" 3)
     (extractTypes sharedTypesSource 1)
  /\ exists pre post,
       sharedTypesSource
       = pre +++ "export enum OrderStatus { Open, Paid, Shipped, Closed }" +++ post
       /\ 3 = 1 + JsString.countNewlines pre
       /\ JsString.startsWith "export enum OrderStatus { Open, Paid, Shipped, Closed }"
                              "export" = true.
Proof.
  assert (H : In (TypeDefinition.mk "OrderStatus" KEnum
                    [PropertyInfo.mk "Open" "enum-value" false;
                     PropertyInfo.mk "Paid" "enum-value" false;
                     PropertyInfo.mk "Shipped" "enum-value" false;
                     PropertyInfo.mk "Closed" "enum-value" false]
                    "export enum OrderStatus { Open, Paid, Shipped, Closed }" 3)
                 (extractTypes sharedTypesSource 1)).
  { vm_compute. auto 10. }
  split; [exact H|]. exact (extractTypes_located _ _ _ H).
Defined.

(** ** What [extractImports] keeps *)

Lemma search_bol r : forall s pos,
  pos <> 0 -> Regex.search (Regex.Cat Regex.Bol r) s pos = None.
Proof.
  induction s as [|c s IH]; intros pos Hpos; simpl; unfold Regex.matchAt; simpl;
    apply Nat.eqb_neq in Hpos; rewrite Hpos; [reflexivity|].
  apply IH. lia.
Qed.

Lemma search_anchored r s m :
  Regex.search (Regex.Cat Regex.Bol r) s 0 = Some m ->
  Regex.matchAt (Regex.Cat Regex.Bol r) s 0 = Some m.
Proof.
  destruct s as [|c s]; cbn [Regex.search];
    destruct (Regex.matchAt _ _ 0) as [m'|]; try easy.
  now rewrite search_bol.
Qed.

Lemma test_identifier s :
  Regex.test Patterns.identifier s = true -> isJsIdentifier s = true.
Proof.
  unfold Regex.test, Regex.exec, isJsIdentifier, Regex.chars.
  destruct (Regex.search _ _ 0) as [m|] eqn:E; [intros _|discriminate].
  unfold Patterns.identifier in E. cbn [Regex.seq] in E.
  apply search_anchored in E.
  unfold Regex.matchAt in E.
  cbn [Regex.run Nat.eqb Patterns.identStart] in E.
  destruct (list_ascii_of_string s) as [|c l]; [discriminate|].
  fold (isIdentStart c) in E.
  destruct (isIdentStart c); [|discriminate]. simpl.
  apply (run_sound _ (Regex.Star Patterns.identPart)) in E.
  destruct E as [w [s' [c' [-> [Hm Hk]]]]].
  destruct s'; [|discriminate]. rewrite app_nil_r.
  apply star_class_word in Hm. apply forallb_forall. rewrite Forall_forall in Hm.
  exact Hm.
Qed.

Lemma mustGroups_captured r pos w c :
  matches r pos w c ->
  forall n, In n (mustGroups r) -> exists span, In (n, span) c.
Proof.
  induction 1; intros k Hk; simpl in Hk; try contradiction.
  - apply in_app_or in Hk as [Hk|Hk].
    + destruct (IHmatches1 k Hk) as [sp Hsp]. exists sp. apply in_or_app. now right.
    + destruct (IHmatches2 k Hk) as [sp Hsp]. exists sp. apply in_or_app. now left.
  - apply filter_In in Hk as [Hk _]. auto.
  - apply filter_In in Hk as [_ Hk]. apply existsb_exists in Hk as [k' [Hk' E]].
    apply Nat.eqb_eq in E. subst k'. auto.
  - destruct Hk as [<-|Hk]; [eexists; now left|].
    destruct (IHmatches k Hk) as [sp Hsp]. exists sp. now right.
Qed.

Lemma In_lookup n span c : In (n, span) c -> exists span', Regex.lookup n c = Some span'.
Proof.
  induction c as [|[m sp] c IH]; simpl; [tauto|].
  intros [E|Hin]; destruct (Nat.eqb_spec m n) as [->|Hne]; eauto.
  injection E as -> _. contradiction.
Qed.

(** The text of a group that takes part in every match is a word that one
    of the group's bodies matches. *)
Lemma group_located r code m n :
  matchOf r (Regex.chars code) m ->
  In n (mustGroups r) ->
  exists body pos w c,
    In body (groupBodies n r) /\ matches body pos w c
    /\ Regex.group' code m n = string_of_list_ascii w.
Proof.
  intros [pre [w [post [Hfull [Hi [Hst Hm]]]]]] Hn.
  destruct (mustGroups_captured _ _ _ _ Hm n Hn) as [sp Hsp].
  destruct (In_lookup _ _ _ Hsp) as [[b e] El].
  unfold Regex.group', Regex.group. rewrite El.
  apply lookup_In in El.
  destruct (captures_located _ _ _ _ Hm n b e El)
    as [body [w1 [w2 [w3 [c' [Hb [-> [-> [-> Hmb]]]]]]]]].
  exists body, (Regex.index m + List.length w1), w2, c'.
  split; [exact Hb|split; [exact Hmb|]].
  replace (Regex.index m + List.length w1 + List.length w2
           - (Regex.index m + List.length w1)) with (List.length w2) by lia.
  rewrite Hi, <- length_app.
  apply (substring_middle (pre ++ w1) w2 (w3 ++ post)).
  rewrite Hfull, <- !app_assoc. reflexivity.
Qed.

Lemma plus_class_word p pos w c :
  matches (Regex.plus (Regex.Cls p)) pos w c -> w <> [] /\ Forall (fun x => p x = true) w.
Proof.
  unfold Regex.plus. intros H. inversion H; subst.
  match goal with Hc : matches (Regex.Cls _) _ _ _ |- _ => inversion Hc; subst end.
  split; [discriminate|]. apply Forall_app. split; [now repeat constructor|].
  eapply star_class_word. eassumption.
Qed.

(** ** What [extractTypes] records for each kind *)

Lemma group_word_name r code m n :
  matchOf r (Regex.chars code) m ->
  In n (mustGroups r) ->
  (forall body, In body (groupBodies n r) -> body = Regex.plus Regex.word) ->
  isWordName (Regex.group' code m n) = true.
Proof.
  intros Hm Hn Hbodies.
  destruct (group_located r code m n Hm Hn) as [body [pos [w [c (Hb & Hw & ->)]]]].
  rewrite (Hbodies body Hb) in Hw. apply plus_class_word in Hw as [Hne Hall].
  unfold isWordName, isIdentifierName, nonEmpty.
  rewrite list_ascii_of_string_of_list_ascii. apply andb_true_iff. split.
  - destruct w; [contradiction|reflexivity].
  - apply forallb_forall. now rewrite Forall_forall in Hall.
Qed.

Lemma extractProperties_names body :
  forallb (fun p => isWordName (PropertyInfo.name p)) (extractProperties body) = true.
Proof.
  apply forallb_forall. intros p Hp. unfold extractProperties in Hp.
  apply in_map_iff in Hp as [m [<- Hm]]. simpl.
  pose proof (execAll_sound Patterns.propRegex body) as Hall.
  rewrite Forall_forall in Hall. specialize (Hall m Hm).
  apply (group_word_name Patterns.propRegex); [exact Hall|simpl; auto|].
  simpl. intuition.
Qed.

(** X8.  Every declaration that [extractTypes] returns has a non-empty name
    made of letters, digits and [_]; an alias or a constant carries no
    property, an enumeration carries its members as non-optional properties
    of type [enum-value] with non-empty names, and an interface carries
    properties whose names are non-empty words. *)
Theorem extractTypes_shapes code startLine :
  forallb (fun t => isWordName (TypeDefinition.name t) && propertiesFitKind t)
          (extractTypes code startLine) = true.
Proof.
  apply forallb_forall. intros t Hin. unfold extractTypes in Hin.
  assert (Hname : forall r m, In m (Regex.execAll r code) ->
            In r [Patterns.interfaceRegex; Patterns.typeRegex; Patterns.enumRegex;
                  Patterns.constRegex] ->
            isWordName (Regex.group' code m 1) = true).
  { intros r m Hm Hr.
    pose proof (execAll_sound r code) as Hall.
    rewrite Forall_forall in Hall. specialize (Hall m Hm).
    apply (group_word_name r); [exact Hall| |now apply declaration_regex_group1].
    destruct Hr as [<-|[<-|[<-|[<-|[]]]]]; simpl; auto. }
  repeat (apply in_app_or in Hin as [Hin|Hin]);
    apply in_map_iff in Hin as [m [<- Hm]]; cbn [TypeDefinition.name];
    (erewrite Hname; [|exact Hm|simpl; auto 6]); cbn [andb];
    unfold propertiesFitKind; cbn [TypeDefinition.kind TypeDefinition.properties];
    try reflexivity.
  - apply extractProperties_names.
  - apply forallb_forall. intros p Hp. apply filter_In in Hp as [Hp Hne].
    apply in_map_iff in Hp as [v [<- _]]. unfold isEnumMember. simpl in *.
    now rewrite Hne.
Qed.

(** ** Blocks of a contract *)

Lemma parseLine_plain st n line :
  isOpener line = false -> isCloser line = false ->
  parseLine st n line
  = if inCodeBlock st
    then mkParse true (codeBlockContent st +++ line +++ nl)
           (codeBlockStartLine st) (importsAcc st) (typesAcc st)
    else st.
Proof.
  unfold isOpener, isCloser, parseLine. intros -> ->. reflexivity.
Qed.

Lemma parseLine_opener st n line :
  isOpener line = true ->
  parseLine st n line = mkParse true "" n (importsAcc st) (typesAcc st).
Proof. unfold isOpener, parseLine. now intros ->. Qed.

Lemma parseLine_closer st n line :
  isOpener line = false -> isCloser line = true ->
  parseLine st n line
  = if inCodeBlock st
    then mkParse false (codeBlockContent st) (codeBlockStartLine st)
           (importsAcc st ++ extractImports (codeBlockContent st) (codeBlockStartLine st))
           (typesAcc st ++ extractTypes (codeBlockContent st) (codeBlockStartLine st))
    else st.
Proof.
  unfold isOpener, isCloser, parseLine. intros -> ->. simpl.
  now destruct (inCodeBlock st).
Qed.

(** Outside a block, lines that open nothing change nothing. *)
Lemma parseLines_outside lines : forall st n,
  inCodeBlock st = false -> forallb (fun l => negb (isOpener l)) lines = true ->
  parseLines st n lines = st.
Proof.
  induction lines as [|l lines IH]; intros st n Hout Hall; simpl; [reflexivity|].
  simpl in Hall. apply andb_true_iff in Hall as [Hl Hall]. apply negb_true_iff in Hl.
  assert (E : parseLine st n l = st).
  { destruct (isCloser l) eqn:Hc.
    - rewrite parseLine_closer by assumption. now rewrite Hout.
    - rewrite parseLine_plain by assumption. now rewrite Hout. }
  rewrite E. now apply IH.
Qed.

(** Inside a block, plain lines are appended to the content. *)
Lemma parseLines_inside body : forall code start imports types n rest,
  forallb (fun l => negb (isOpener l) && negb (isCloser l)) body = true ->
  parseLines (mkParse true code start imports types) n (body ++ rest)
  = parseLines (mkParse true (fold_left (fun c l => c +++ l +++ nl) body code)
                        start imports types)
               (n + List.length body) rest.
Proof.
  induction body as [|l body IH]; intros code start imports types n rest Hall; simpl.
  - now rewrite Nat.add_0_r.
  - simpl in Hall. apply andb_true_iff in Hall as [Hl Hall].
    apply andb_true_iff in Hl as [Ho Hc]. apply negb_true_iff in Ho, Hc.
    rewrite parseLine_plain by assumption. simpl.
    rewrite IH by assumption. f_equal. lia.
Qed.

(** X9.  A contract in ASCII text with one closed TypeScript block, and no
    other fence opener, yields exactly what [extractImports] and
    [extractTypes] find in the text of the block, each numbering lines from
    the line of the opening fence; what stands outside the block is
    ignored. *)
Theorem parseContract_single_block filePath content before opener body closer after :
  isAscii content = true ->
  JsString.split "010" content = before ++ [opener] ++ body ++ [closer] ++ after ->
  forallb (fun l => negb (isOpener l)) (before ++ after) = true ->
  forallb (fun l => negb (isOpener l) && negb (isCloser l)) body = true ->
  isOpener opener = true ->
  isOpener closer = false -> isCloser closer = true ->
  parseContractContent filePath content
  = ParsedContract.mk filePath
      (extractImports (blockCode body) (List.length before + 1))
      (extractTypes (blockCode body) (List.length before + 1)).
Proof.
  intros _ Hsplit Hout Hbody Hopen Hclose1 Hclose2.
  rewrite forallb_app in Hout. apply andb_true_iff in Hout as [Hbefore Hafter].
  unfold parseContractContent. rewrite Hsplit.
  assert (Hrun : forall st n, inCodeBlock st = false ->
            parseLines st n (before ++ [opener] ++ body ++ [closer] ++ after)
            = mkParse false (blockCode body) (n + List.length before)
                (importsAcc st ++ extractImports (blockCode body) (n + List.length before))
                (typesAcc st ++ extractTypes (blockCode body) (n + List.length before))).
  { clear Hsplit. induction before as [|l before IH]; intros st n Hst.
    - cbn [app parseLines]. rewrite parseLine_opener by assumption.
      rewrite parseLines_inside by assumption. cbn [parseLines].
      rewrite parseLine_closer by assumption. cbn [inCodeBlock].
      rewrite parseLines_outside by (auto; reflexivity).
      cbn [List.length codeBlockContent codeBlockStartLine importsAcc typesAcc].
      rewrite Nat.add_0_r. reflexivity.
    - simpl in Hbefore. apply andb_true_iff in Hbefore as [Hl Hbefore].
      rewrite <- app_comm_cons. cbn [parseLines].
      assert (E : parseLine st n l = st)
        by (apply (parseLines_outside [l] st n Hst); simpl; now rewrite Hl).
      rewrite E, (IH Hbefore st (S n) Hst). cbn [List.length].
      now replace (S n + List.length before) with (n + S (List.length before)) by lia. }
  rewrite (Hrun (mkParse false "" 0 [] []) 1 eq_refl). simpl.
  now replace (S (List.length before)) with (List.length before + 1) by lia.
Qed.

(** The orders contract: a heading, a block of five lines, a closing note. *)
Lemma parseContract_single_block_witness :
  (isAscii ordersDocument = true
   /\ JsString.split "010" ordersDocument
      = ["# Orders Contract"; ""] ++ ["```typescript"]
        ++ ["import { OrderId } from '../shared/shared.types';"; "";
            "export interface Order {"; "  id: OrderId;"; "}"]
        ++ ["```"] ++ [""])
  /\ parseContractContent "ORDERS-CONTRACT.md" ordersDocument
     = ParsedContract.mk "ORDERS-CONTRACT.md"
         (extractImports
            (blockCode ["import { OrderId } from '../shared/shared.types';"; "";
                        "export interface Order {"; "  id: OrderId;"; "}"]) (2 + 1))
         (extractTypes
            (blockCode ["import { OrderId } from '../shared/shared.types';"; "";
                        "export interface Order {"; "  id: OrderId;"; "}"]) (2 + 1)).
Proof.
  assert (H : JsString.split "010" ordersDocument
              = ["# Orders Contract"; ""] ++ ["```typescript"]
                ++ ["import { OrderId } from '../shared/shared.types';"; "";
                    "export interface Order {"; "  id: OrderId;"; "}"]
                ++ ["```"] ++ [""]) by (vm_compute; reflexivity).
  split; [split; [reflexivity|exact H]|].
  apply (parseContract_single_block "ORDERS-CONTRACT.md" ordersDocument
           ["# Orders Contract"; ""] "```typescript" _ "```" [""] eq_refl H); reflexivity.
Defined.

Lemma parseLines_no_closer lines : forall st n,
  forallb (fun l => negb (isCloser l)) lines = true ->
  importsAcc (parseLines st n lines) = importsAcc st
  /\ typesAcc (parseLines st n lines) = typesAcc st.
Proof.
  induction lines as [|l lines IH]; intros st n Hall; simpl; [auto|].
  simpl in Hall. apply andb_true_iff in Hall as [Hl Hall]. apply negb_true_iff in Hl.
  destruct (IH (parseLine st n l) (S n) Hall) as [-> ->].
  destruct (isOpener l) eqn:Ho.
  - rewrite parseLine_opener by assumption. auto.
  - rewrite parseLine_plain by assumption. destruct (inCodeBlock st); auto.
Qed.

(** X10.  A contract in ASCII text in which no line is a closing fence
    yields no import and no type: a TypeScript block that is never closed
    is dropped without notice, whatever it declares. *)
Theorem parseContract_unclosed_block_dropped filePath content :
  isAscii content = true ->
  forallb (fun l => negb (isCloser l)) (JsString.split "010" content) = true ->
  parseContractContent filePath content = ParsedContract.mk filePath [] [].
Proof.
  intros _ Hall. unfold parseContractContent.
  destruct (parseLines_no_closer _ (mkParse false "" 0 [] []) 1 Hall) as [-> ->].
  reflexivity.
Qed.

(** A block that declares a type and runs to the end of the file. *)
Lemma parseContract_unclosed_block_dropped_witness :
  (isAscii unclosedDocument = true
   /\ forallb (fun l => negb (isCloser l)) (JsString.split "010" unclosedDocument) = true)
  /\ parseContractContent "ORDERS-CONTRACT.md" unclosedDocument
     = ParsedContract.mk "ORDERS-CONTRACT.md" [] [].
Proof.
  split; [split; reflexivity|].
  apply (parseContract_unclosed_block_dropped "ORDERS-CONTRACT.md" unclosedDocument);
    reflexivity.
Defined.

(** ** A run and its files *)

Lemma parseContracts_paths fs paths :
  match parseContracts fs paths with
  | Some cs => map ParsedContract.filePath cs = paths /\ Forall (readable fs) paths
  | None => Exists (fun p => fs p = None) paths
  end.
Proof.
  induction paths as [|p paths IH]; simpl; [split; constructor|].
  unfold parseContract. destruct (fs p) as [content|] eqn:E; [|now left].
  destruct (parseContracts fs paths) as [cs|].
  - destruct IH as [Hmap Hall]. simpl. rewrite Hmap. split; [reflexivity|].
    constructor; [unfold readable; congruence|exact Hall].
  - now right.
Qed.

Lemma parseSharedPrimitives_path fs path :
  match parseSharedPrimitives fs path with
  | Some p => SharedPrimitives.filePath p = path /\ readable fs path
  | None => fs path = None
  end.
Proof.
  unfold parseSharedPrimitives, parseContract, readable.
  destruct (fs path) as [content|] eqn:E; [|reflexivity].
  destruct (JsString.endsWith path ".md"); simpl; split; congruence.
Qed.

Lemma runChecks_echo now p cs :
  VerificationReport.primitivesFile (runChecks now p cs) = SharedPrimitives.filePath p
  /\ VerificationReport.contractFiles (runChecks now p cs)
     = map ParsedContract.filePath cs
  /\ Stats.totalContracts (VerificationReport.stats (runChecks now p cs))
     = List.length cs.
Proof.
  unfold runChecks. destruct (checkCircularDependencies cs) as [g ci]. simpl. auto.
Qed.

(** X11.  [verifyContracts] fails (a read throws) exactly when the
    vocabulary file or one of the contract files cannot be read; otherwise
    it returns a report that names the vocabulary file and the contract
    files it was given, in the order given, and counts them. *)
Theorem verifyContracts_reads_every_file fs now options :
  match verifyContracts fs now options with
  | Some report =>
      readable fs (VerifyContractsOptions.primitivesPath options)
      /\ Forall (readable fs) (VerifyContractsOptions.contractPaths options)
      /\ VerificationReport.primitivesFile report
         = VerifyContractsOptions.primitivesPath options
      /\ VerificationReport.contractFiles report
         = VerifyContractsOptions.contractPaths options
      /\ Stats.totalContracts (VerificationReport.stats report)
         = List.length (VerifyContractsOptions.contractPaths options)
  | None =>
      fs (VerifyContractsOptions.primitivesPath options) = None
      \/ Exists (fun p => fs p = None) (VerifyContractsOptions.contractPaths options)
  end.
Proof.
  unfold verifyContracts.
  pose proof (parseSharedPrimitives_path fs (VerifyContractsOptions.primitivesPath options))
    as Hp.
  pose proof (parseContracts_paths fs (VerifyContractsOptions.contractPaths options)) as Hc.
  destruct (parseSharedPrimitives fs _) as [p|]; [|now left].
  destruct (parseContracts fs _) as [cs|]; [|now right].
  destruct Hp as [Hpath Hread]. destruct Hc as [Hmap Hall].
  destruct (runChecks_echo now p cs) as (E1 & E2 & E3).
  rewrite E1, E2, E3, Hpath, Hmap. repeat split; auto.
  now rewrite <- Hmap, length_map.
Qed.

(** ** What decides the verdict *)

Lemma circular_issues_acyclic cs :
  snd (checkCircularDependencies cs) = [] <-> acyclic (fst (buildGraph cs)).
Proof.
  unfold checkCircularDependencies. destruct (buildGraph cs) as [g nodes]. simpl.
  destruct (detectCycles_total g) as [cycles Hc]. rewrite Hc.
  split.
  - intros H. apply detectCycles_complete. rewrite Hc.
    destruct cycles; [reflexivity|discriminate].
  - intros Hac. pose proof (detectCycles_sound g cycles Hc) as Hs.
    destruct cycles as [|c rest]; [reflexivity|].
    inversion Hs as [|? ? Hcw _]; subst. now apply Hac in Hcw.
Qed.

Lemma checkNamingConsistency_warnings cs p i :
  In i (checkNamingConsistency cs p) ->
  VerificationIssue.severity i = SevWarning /\ VerificationIssue.category i = CatNaming.
Proof.
  destruct (checkNamingConsistency_shape cs p) as [extra [-> Hextra]].
  intros Hin. apply in_app_or in Hin as [Hin|Hin].
  - apply in_map_iff in Hin as [[[x y] r] [<- _]]. simpl. auto.
  - rewrite Forall_forall in Hextra. destruct (Hextra i Hin) as [c [t [n ->]]].
    simpl. auto.
Qed.

Lemma checkImportResolution_errors cs p i :
  In i (checkImportResolution cs p) ->
  VerificationIssue.severity i = SevError /\ VerificationIssue.category i = CatImport.
Proof.
  rewrite checkImportResolution_flat. intros Hin.
  apply in_flat_map in Hin as [c [_ Hin]]. apply in_map_iff in Hin as [imp [<- _]].
  simpl. auto.
Qed.

Lemma runChecks_verdict now p cs :
  VerificationReport.passed (runChecks now p cs) = true
  <-> checkImportResolution cs p = []
      /\ acyclic (fst (buildGraph cs))
      /\ forallb (fun i => negb (isError i)) (checkTypeShapeCompatibility cs p) = true.
Proof.
  destruct (runChecks_is_report now p cs) as [g Hg]. rewrite Hg at 1.
  rewrite generateReport_passed, runChecks_issues, <- circular_issues_acyclic.
  split.
  - intros H. split; [|split].
    + destruct (checkImportResolution cs p) as [|i rest] eqn:E; [reflexivity|].
      exfalso. apply (H i); [now left|].
      apply (checkImportResolution_errors cs p). rewrite E. now left.
    + destruct (snd (checkCircularDependencies cs)) as [|i rest] eqn:E; [reflexivity|].
      exfalso. apply (H i); [apply in_or_app; right; now left|].
      assert (Hin : In i (snd (checkCircularDependencies cs))) by (rewrite E; now left).
      unfold checkCircularDependencies in Hin. destruct (buildGraph cs) as [g' nodes].
      simpl in Hin. apply in_map_iff in Hin as [c [<- _]]. reflexivity.
    + apply forallb_forall. intros i Hi. apply negb_true_iff.
      destruct (isError i) eqn:He; [|reflexivity]. apply isError_true in He.
      exfalso. apply (H i); [|exact He]. do 3 (apply in_or_app; right). exact Hi.
  - intros (Himp & Hcirc & Hshape) i Hin Hsev. rewrite Himp, Hcirc in Hin. simpl in Hin.
    apply in_app_or in Hin as [Hin|Hin].
    + apply checkNamingConsistency_warnings in Hin as [Hw _]. congruence.
    + rewrite forallb_forall in Hshape. specialize (Hshape i Hin).
      apply isError_true in Hsev. rewrite Hsev in Hshape. discriminate.
Qed.

(** X12.  A run that returns a report passes exactly when the import check
    raises nothing, the graph that [checkCircularDependencies] builds has
    no cycle, and the shape check raises no error; the warnings of the
    naming check and of the shape check never change the verdict.  The
    graph is the one the code searches: its nodes are the base names of the
    files, so contracts with the same base name share a node, which keeps
    the dependencies of the last of them. *)
Theorem verdict_decided_by_three_checks fs now options report :
  verifyContracts fs now options = Some report ->
  exists p cs,
    parseSharedPrimitives fs (VerifyContractsOptions.primitivesPath options) = Some p
    /\ parseContracts fs (VerifyContractsOptions.contractPaths options) = Some cs
    /\ (VerificationReport.passed report = true
        <-> checkImportResolution cs p = []
            /\ acyclic (fst (buildGraph cs))
            /\ forallb (fun i => negb (isError i))
                       (checkTypeShapeCompatibility cs p) = true).
Proof.
  unfold verifyContracts.
  destruct (parseSharedPrimitives fs _) as [p|]; [|discriminate].
  destruct (parseContracts fs _) as [cs|]; [|discriminate].
  intros [= <-]. exists p, cs. split; [reflexivity|split; [reflexivity|]].
  apply runChecks_verdict.
Qed.

(** The customer contract: one naming warning, and the run passes. *)
Lemma verdict_decided_by_three_checks_witness :
  verifyContracts customerFs 0
    (VerifyContractsOptions.mk "shared.types.ts" ["CUSTOMER-CONTRACT.md"])
  = Some (runChecks 0 emptyPrimitives [customerContract])
  /\ exists p cs,
       parseSharedPrimitives customerFs "shared.types.ts" = Some p
       /\ parseContracts customerFs ["CUSTOMER-CONTRACT.md"] = Some cs
       /\ (VerificationReport.passed (runChecks 0 emptyPrimitives [customerContract]) = true
           <-> checkImportResolution cs p = []
               /\ acyclic (fst (buildGraph cs))
               /\ forallb (fun i => negb (isError i))
                          (checkTypeShapeCompatibility cs p) = true).
Proof.
  split; [vm_compute; reflexivity|].
  apply (verdict_decided_by_three_checks customerFs 0
           (VerifyContractsOptions.mk "shared.types.ts" ["CUSTOMER-CONTRACT.md"])).
  vm_compute. reflexivity.
Defined.

(** The graph is keyed by base name.  Two contracts named [CONTRACT.md] in
    different directories, one importing from the other, give a node that
    depends on itself, and a cycle is reported though no file depends on
    itself.  And when [a/X.md] and [Y.md] import from each other, a later
    [b/X.md] without import takes the node [X.md], and no cycle is
    reported. *)
Example base_name_collisions :
  map VerificationIssue.message
      (snd (checkCircularDependencies [usersContract; ordersOfUsersContract]))
  = ["Circular dependency detected: CONTRACT.md -> CONTRACT.md"]
  /\ dependenciesOf [mutualX; emptyX; mutualY] mutualX = ["Y.md"]
  /\ dependenciesOf [mutualX; emptyX; mutualY] mutualY = ["X.md"]
  /\ fst (buildGraph [mutualX; emptyX; mutualY]) = [("X.md", []); ("Y.md", ["X.md"])]
  /\ snd (checkCircularDependencies [mutualX; emptyX; mutualY]) = [].
Proof. repeat split; vm_compute; reflexivity. Qed.

(** ** The dependency graph of the contracts *)






(** ** Definitions that agree raise nothing *)

Lemma sameProperties_eq ps : forall qs, sameProperties ps qs = true -> ps = qs.
Proof.
  induction ps as [|p ps IH]; intros [|q qs] H; simpl in H; try discriminate; [reflexivity|].
  apply andb_true_iff in H as [Hp Hps]. f_equal; [|now apply IH].
  unfold sameProperty in Hp.
  apply andb_true_iff in Hp as [Hp Ho]. apply andb_true_iff in Hp as [Hn Ht].
  apply String.eqb_eq in Hn, Ht. apply Bool.eqb_prop in Ho.
  destruct p, q. simpl in *. congruence.
Qed.

Lemma In_set {V} (m : JsMap.t V) k v k' v' :
  In (k', v') (JsMap.set m k v) -> (k' = k /\ v' = v) \/ In (k', v') m.
Proof.
  induction m as [|[k0 v0] m IH]; simpl.
  - intros [[= <- <-]|[]]. now left.
  - destruct (String.eqb k0 k); simpl.
    + intros [[= <- <-]|H]; auto.
    + intros [H|H]; [auto|]. destruct (IH H); auto.
Qed.

Lemma same_properties_no_issue name baseline current :
  TypeDefinition.properties (Definition_.type current)
  = TypeDefinition.properties (Definition_.type baseline) ->
  missingIssues name baseline current ++ sharedIssues name baseline current = [].
Proof.
  intros E.
  assert (Em : propsMap (Definition_.type current) = propsMap (Definition_.type baseline))
    by (unfold propsMap; now rewrite E).
  unfold missingIssues, sharedIssues. rewrite Em.
  set (m := propsMap (Definition_.type baseline)).
  assert (Hnd : NoDup (JsMap.keys m)) by apply NoDup_ofEntries.
  assert (H1 : forall l, incl l m ->
            flat_map (fun '(propName, prop) =>
                        if negb (JsMap.has m propName)
                        then [missingPropertyIssue name baseline current propName prop]
                        else []) l = []).
  { induction l as [|[k q] l IH]; intros Hl; simpl; [reflexivity|].
    assert (Hk : JsMap.has m k = true).
    { apply has_keys. exact (in_map fst _ _ (Hl (k, q) (or_introl eq_refl))). }
    rewrite Hk. simpl. apply IH. intros x Hx. apply Hl. now right. }
  assert (H2 : forall l, incl l m ->
            flat_map
              (fun '(propName, prop) =>
                 match JsMap.get m propName with
                 | Some baseProp =>
                     (if negb (String.eqb (PropertyInfo.type baseProp) (PropertyInfo.type prop))
                         && negb (areTypesCompatible (PropertyInfo.type baseProp)
                                                     (PropertyInfo.type prop))
                      then [typeMismatchIssue name baseline current propName baseProp prop]
                      else [])
                     ++ (if negb (Bool.eqb (PropertyInfo.optional baseProp)
                                           (PropertyInfo.optional prop))
                         then [optionalityIssue name baseline current propName baseProp prop]
                         else [])
                 | None => []
                 end) l = []).
  { induction l as [|[k q] l IH]; intros Hl; simpl; [reflexivity|].
    rewrite (In_get m k q Hnd (Hl (k, q) (or_introl eq_refl))).
    rewrite String.eqb_refl, Bool.eqb_reflx. simpl. apply IH.
    intros x Hx. apply Hl. now right. }
  rewrite (H1 m (incl_refl _)), (H2 m (incl_refl _)). reflexivity.
Qed.

Lemma compareDefinitions_agree name definitions :
  (forall d d', In d definitions -> In d' definitions ->
     isInterfaceDefinition d = true -> isInterfaceDefinition d' = true ->
     TypeDefinition.properties (Definition_.type d)
     = TypeDefinition.properties (Definition_.type d')) ->
  compareDefinitions name definitions = [].
Proof.
  intros H. unfold compareDefinitions.
  destruct (List.length definitions <=? 1); [reflexivity|].
  fold isInterfaceDefinition.
  destruct (filter isInterfaceDefinition definitions) as [|baseline [|o others]] eqn:E;
    try reflexivity.
  assert (Hin : forall d, In d (baseline :: o :: others) ->
            In d definitions /\ isInterfaceDefinition d = true)
    by (intros d Hd; rewrite <- E in Hd; now apply filter_In in Hd).
  destruct (Hin baseline (or_introl eq_refl)) as [Hb1 Hb2].
  assert (Hall : forall l, incl l (o :: others) ->
            flat_map (fun current => missingIssues name baseline current
                                     ++ sharedIssues name baseline current) l = []).
  { induction l as [|c l IH]; intros Hl; simpl; [reflexivity|].
    destruct (Hin c (or_intror (Hl c (or_introl eq_refl)))) as [Hc1 Hc2].
    rewrite (same_properties_no_issue name baseline c (H c baseline Hc1 Hb1 Hc2 Hb2)).
    apply IH. intros x Hx. apply Hl. now right. }
  apply Hall, incl_refl.
Qed.

Lemma primitiveDefinitions_entries p n ds :
  In (n, ds) (primitiveDefinitions p) ->
  forall d, In d ds -> In (n, d) (keyedDefinitions [] p).
Proof.
  unfold primitiveDefinitions, keyedDefinitions. simpl. rewrite app_nil_r.
  generalize (SharedPrimitives.filePath p) as f. intros f.
  assert (H : forall l (m : JsMap.t (list Definition_.t)),
            In (n, ds)
               (fold_left (fun m '(name, type) => JsMap.set m name [Definition_.mk type f]) l m) ->
            In (n, ds) m
            \/ exists t, In (n, t) l /\ ds = [Definition_.mk t f]).
  { induction l as [|[k t] l IH]; intros m Hin; simpl in Hin; [now left|].
    apply IH in Hin as [Hin|[t' [Ht' ->]]].
    - apply In_set in Hin as [[-> ->]|Hin]; [right|now left].
      exists t. split; [now left|reflexivity].
    - right. exists t'. split; [now right|reflexivity]. }
  intros Hin d Hd. apply H in Hin as [[]|[t [Ht ->]]].
  destruct Hd as [<-|[]]. apply in_map_iff. now exists (n, t).
Qed.

Lemma typesByName_entries cs p n ds :
  In (n, ds) (typesByName cs p) ->
  forall d, In d ds -> In (n, d) (keyedDefinitions cs p).
Proof.
  rewrite typesByName_flat. unfold keyedDefinitions.
  assert (H : forall l (m : JsMap.t (list Definition_.t)),
            In (n, ds) (fold_left pushDefinition l m) ->
            forall d, In d ds ->
              (exists ds0, In (n, ds0) m /\ In d ds0)
              \/ (In d l /\ TypeDefinition.name (Definition_.type d) = n)).
  { induction l as [|x l IH]; intros m Hin d Hd; simpl in Hin; [left; eauto|].
    destruct (IH _ Hin d Hd) as [[ds0 [H0 Hd0]]|[Hl Hn]]; [|right; split; [now right|exact Hn]].
    unfold pushDefinition in H0.
    destruct (JsMap.get m (TypeDefinition.name (Definition_.type x))) as [old|] eqn:Eg.
    - apply In_set in H0 as [[-> ->]|H0]; [|left; eauto].
      apply in_app_or in Hd0 as [Hd0|[<-|[]]].
      + left. exists old. split; [now apply get_In|exact Hd0].
      + right. split; [now left|reflexivity].
    - apply In_set in H0 as [[-> ->]|H0]; [|left; eauto].
      destruct Hd0 as [<-|[]]. right. split; [now left|reflexivity]. }
  intros Hin d Hd. apply in_or_app.
  destruct (H _ _ Hin d Hd) as [[ds0 [H0 Hd0]]|[Hl Hn]].
  - left. pose proof (primitiveDefinitions_entries p n ds0 H0 d Hd0) as Hk.
    unfold keyedDefinitions in Hk. simpl in Hk. now rewrite app_nil_r in Hk.
  - right. apply in_map_iff. exists d. split; [now rewrite Hn|exact Hl].
Qed.

(** X14.  When the interface definitions filed under each name all list the
    same properties, with the same types and optionality, the comparison of
    shapes raises nothing: the shape check reports the redefined imports and
    no other issue. *)
Theorem agreeing_interfaces_raise_nothing contracts primitives :
  interfacesAgree contracts primitives = true ->
  checkTypeShapeCompatibility contracts primitives
  = flat_map (redefinitionIssues primitives) contracts.
Proof.
  intros Hagree. unfold checkTypeShapeCompatibility.
  assert (H : forall l, incl l (typesByName contracts primitives) ->
            flat_map (fun '(name, definitions) => compareDefinitions name definitions) l
            = []).
  { induction l as [|[n ds] l IH]; intros Hl; simpl; [reflexivity|].
    rewrite IH by (intros x Hx; apply Hl; now right). rewrite app_nil_r.
    apply compareDefinitions_agree. intros d d' Hd Hd' Hi Hi'.
    pose proof (typesByName_entries _ _ n ds (Hl _ (or_introl eq_refl))) as Hk.
    unfold interfacesAgree in Hagree. rewrite forallb_forall in Hagree.
    specialize (Hagree (n, d) (Hk d Hd)). rewrite forallb_forall in Hagree.
    specialize (Hagree (n, d') (Hk d' Hd')). simpl in Hagree.
    rewrite String.eqb_refl, Hi, Hi' in Hagree. simpl in Hagree.
    now apply sameProperties_eq. }
  now rewrite (H _ (incl_refl _)).
Qed.

(** Two contracts with the same [UserRef]. *)
Lemma agreeing_interfaces_raise_nothing_witness :
  interfacesAgree [accountsContract; billingContract] emptyPrimitives = true
  /\ checkTypeShapeCompatibility [accountsContract; billingContract] emptyPrimitives
     = flat_map (redefinitionIssues emptyPrimitives) [accountsContract; billingContract].
Proof.
  split; [reflexivity|].
  apply (agreeing_interfaces_raise_nothing [accountsContract; billingContract] emptyPrimitives).
  reflexivity.
Defined.

(** ** Reference types without entity *)

Lemma matchAt_refSuffix s pos :
  Regex.matchAt refSuffix s pos
  = if list_eq_dec ascii_dec s (Regex.chars "Ref")
    then Some (Regex.mkResult pos (pos + 3) []) else None.
Proof.
  unfold Regex.matchAt, refSuffix.
  change (Regex.seq [Regex.lit "Ref"; Regex.Eol]) with (Regex.Cat (Regex.lit "Ref") Regex.Eol).
  cbn [Regex.run]. rewrite run_lit.
  destruct (list_eq_dec ascii_dec s (Regex.chars "Ref")) as [->|Hne].
  - reflexivity.
  - destruct (dropPrefix (Regex.chars "Ref") s) as [[|x rest]|] eqn:E; try reflexivity.
    apply dropPrefix_nil in E. contradiction.
Qed.

Lemma search_refSuffix x : forall pos,
  Regex.search refSuffix (x ++ Regex.chars "Ref") pos
  = Some (Regex.mkResult (pos + List.length x) (pos + List.length x + 3) []).
Proof.
  induction x as [|c x IH]; intros pos.
  - simpl app. cbn [Regex.search Regex.chars list_ascii_of_string].
    rewrite matchAt_refSuffix.
    destruct (list_eq_dec ascii_dec _ _) as [_|Hne]; [|now contradiction Hne].
    simpl. now rewrite Nat.add_0_r.
  - cbn [app Regex.search]. rewrite matchAt_refSuffix.
    destruct (list_eq_dec ascii_dec _ _) as [E|_].
    + apply (f_equal (@List.length ascii)) in E. simpl in E.
      rewrite length_app in E. simpl in E. lia.
    + rewrite IH. simpl. repeat f_equal; lia.
Qed.

Lemma entityName_append base : entityName (base +++ "Ref") = base.
Proof.
  unfold entityName, Regex.replaceFirst, Regex.exec.
  rewrite chars_append, search_refSuffix. simpl.
  rewrite chars_length, append_length. simpl.
  replace (String.length base + 3 - (String.length base + 3)) with 0 by lia.
  rewrite substring_zero. now rewrite substring_prefix, append_empty_r.
Qed.

Lemma refLoop_flat entries p cs : forall st,
  fold_left
    (fun st contract =>
       fold_left (refStep entries p contract) (ParsedContract.types contract) st)
    cs st
  = fold_left (fun st ct => refStep entries p (fst ct) st (snd ct)) (contractTypes cs) st.
Proof.
  induction cs as [|c cs IH]; intros st; simpl; [reflexivity|].
  unfold contractTypes in *. simpl. rewrite fold_left_app, IH. f_equal.
  generalize (ParsedContract.types c) as ts. clear. intros ts. revert st.
  induction ts as [|t ts IH]; intros st; simpl; [reflexivity|]. apply IH.
Qed.

Lemma refLoop_spec cs p l : forall issues warned seen,
  (forall x, In x warned <-> In x seen) ->
  fst (fold_left (fun st ct => refStep (allTypeNames cs p) p (fst ct) st (snd ct))
                 l (issues, warned))
  = issues
    ++ map (fun ct => orphanRefIssue (fst ct) (snd ct)
                        (entityName (TypeDefinition.name (snd ct))))
           (firstOfEachName seen (filter (fun ct => isOrphanRef cs p (snd ct)) l)).
Proof.
  induction l as [|[c t] l IH]; intros issues warned seen Hseen; cbn [fold_left filter].
  - simpl. now rewrite app_nil_r.
  - cbn [fst snd]. unfold refStep at 2. unfold isOrphanRef, declaredAnywhere.
    fold (entityName (TypeDefinition.name t)).
    destruct (JsString.endsWith (TypeDefinition.name t) "Ref"
              && Kind_eqb (TypeDefinition.kind t) KInterface) eqn:Href;
      cbn [andb]; [|now apply IH].
    assert (Hhas : JsSet.has warned (TypeDefinition.name t)
                   = existsb (String.eqb (TypeDefinition.name t)) seen).
    { destruct (existsb _ seen) eqn:E.
      - apply existsb_exists in E as [x [Hx E]]. apply String.eqb_eq in E. subst x.
        apply set_has. now apply Hseen.
      - apply set_has_false. intros Hin. apply Hseen in Hin.
        assert (existsb (String.eqb (TypeDefinition.name t)) seen = true); [|congruence].
        apply existsb_exists. exists (TypeDefinition.name t).
        split; [exact Hin|apply String.eqb_refl]. }
    rewrite negb_orb.
    destruct (negb (existsb _ (allTypeNames cs p)) && negb (JsMap.has _ _)) eqn:Horphan.
    + cbn [firstOfEachName snd]. rewrite Hhas.
      destruct (existsb (String.eqb (TypeDefinition.name t)) seen) eqn:E; [now apply IH|].
      rewrite (IH _ _ (TypeDefinition.name t :: seen)).
      * cbn [map fst snd]. now rewrite <- app_assoc.
      * intros x. rewrite set_add_In. simpl. split; intros [H|H]; auto;
          right; now apply Hseen.
    + destruct (JsSet.has warned (TypeDefinition.name t)); now apply IH.
Qed.

(** X15.  After the similar-name warnings, the naming check reports the
    interfaces named [...Ref] whose entity (the name without [Ref]) is
    declared neither by a contract nor by the shared vocabulary: one
    warning per such name, placed at its first declaration, in the order of
    the contracts; and nothing else. *)
Theorem orphan_reference_warnings contracts primitives :
  checkNamingConsistency contracts primitives
  = map (similarNamesIssue (allTypeNames contracts primitives))
        (reportedPairs (declaredNames contracts primitives))
    ++ map (fun ct => orphanRefIssue (fst ct) (snd ct)
                        (entityName (TypeDefinition.name (snd ct))))
           (firstOfEachName []
              (filter (fun ct => isOrphanRef contracts primitives (snd ct))
                      (contractTypes contracts)))
  /\ forall base, entityName (base +++ "Ref") = base.
Proof.
  split; [|apply entityName_append].
  unfold checkNamingConsistency. rewrite refLoop_flat.
  apply refLoop_spec. intros x. tauto.
Qed.

(** ** A name declared twice by the shared vocabulary *)

Lemma find_app {A} (f : A -> bool) l1 l2 :
  find f (l1 ++ l2) = match find f l1 with Some x => Some x | None => find f l2 end.
Proof.
  induction l1 as [|x l1 IH]; simpl; [reflexivity|]. now destruct (f x).
Qed.

Lemma get_typesByNameMap_from ts n : forall m : JsMap.t TypeDefinition.t,
  JsMap.get (fold_left (fun m t => JsMap.set m (TypeDefinition.name t) t) ts m) n
  = match find (fun t => String.eqb (TypeDefinition.name t) n) (rev ts) with
    | Some t => Some t
    | None => JsMap.get m n
    end.
Proof.
  induction ts as [|t ts IH]; intros m; simpl; [reflexivity|].
  rewrite IH, find_app, get_set. simpl.
  destruct (find _ (rev ts)); [reflexivity|].
  now destruct (String.eqb (TypeDefinition.name t) n).
Qed.

Lemma get_typesByNameMap ts n :
  JsMap.get (typesByNameMap ts) n
  = find (fun t => String.eqb (TypeDefinition.name t) n) (rev ts).
Proof.
  unfold typesByNameMap. rewrite get_typesByNameMap_from. now destruct (find _ _).
Qed.

(** X16.  The shared vocabulary holds one declaration per name: when the
    file declares a name more than once, the declaration extracted last
    replaces the earlier ones (for a TypeScript source the interfaces are
    extracted first, then the aliases, the enumerations and the constants),
    and a name that is not declared is not found. *)
Theorem vocabulary_keeps_last_declaration fs path p :
  parseSharedPrimitives fs path = Some p ->
  exists content,
    fs path = Some content
    /\ SharedPrimitives.filePath p = path
    /\ NoDup (JsMap.keys (SharedPrimitives.types p))
    /\ forall n,
         JsMap.get (SharedPrimitives.types p) n
         = find (fun t => String.eqb (TypeDefinition.name t) n)
                (rev (vocabularyDeclarations path content)).
Proof.
  intros H. pose proof (parsed_primitives_unique fs path p H) as Hnd.
  unfold parseSharedPrimitives, parseContract, vocabularyDeclarations in *.
  destruct (fs path) as [content|]; [|discriminate]. exists content.
  destruct (JsString.endsWith path ".md"); injection H as <-; simpl;
    repeat split; auto; intros n; apply get_typesByNameMap.
Qed.

(** [Money] is declared as an alias on line 1 and as an interface on line
    2: the interface is extracted first, so the alias is the one kept, in
    the place of the interface. *)
Example money_alias_kept :
  option_map TypeDefinition.kind (JsMap.get (SharedPrimitives.types moneyPrimitives) "Money")
  = Some KType
  /\ JsMap.keys (SharedPrimitives.types moneyPrimitives) = ["Money"; "Currency"].
Proof. split; vm_compute; reflexivity. Qed.

Lemma vocabulary_keeps_last_declaration_witness :
  parseSharedPrimitives moneyFs "money.types.ts" = Some moneyPrimitives
  /\ exists content,
       moneyFs "money.types.ts" = Some content
       /\ SharedPrimitives.filePath moneyPrimitives = "money.types.ts"
       /\ NoDup (JsMap.keys (SharedPrimitives.types moneyPrimitives))
       /\ forall n,
            JsMap.get (SharedPrimitives.types moneyPrimitives) n
            = find (fun t => String.eqb (TypeDefinition.name t) n)
                   (rev (vocabularyDeclarations "money.types.ts" content)).
Proof.
  assert (H : parseSharedPrimitives moneyFs "money.types.ts" = Some moneyPrimitives)
    by reflexivity.
  split; [exact H|].
  exact (vocabulary_keeps_last_declaration moneyFs "money.types.ts" moneyPrimitives H).
Defined.

(** ** API routes *)

Lemma matches_alts_lits ls : forall pos w c,
  matches (Regex.alts (map Regex.lit ls)) pos w c ->
  exists l, In l ls /\ w = Regex.chars l.
Proof.
  induction ls as [|l ls IH]; intros pos w c H.
  - simpl in H. inversion H; subst. discriminate.
  - destruct ls as [|l' ls'].
    + simpl in H. exists l. split; [now left|]. eapply matches_lit; eassumption.
    + change (Regex.alts (map Regex.lit (l :: l' :: ls')))
        with (Regex.Alt (Regex.lit l) (Regex.alts (map Regex.lit (l' :: ls')))) in H.
      inversion H as [| | |? ? ? ? ? HL|? ? ? ? ? HR| | | | | | |]; subst.
      * exists l. split; [now left|]. eapply matches_lit; eassumption.
      * destruct (IH _ _ _ HR) as [x [Hx ->]]. exists x. split; [now right|reflexivity].
Qed.

Lemma exec_anchored r s m :
  Regex.exec (Regex.Cat Regex.Bol r) s = Some m ->
  matchOf (Regex.Cat Regex.Bol r) (Regex.chars s) m /\ Regex.index m = 0.
Proof.
  unfold Regex.exec. intros H.
  pose proof (search_sound _ _ 0 m [] eq_refl H) as [Hm _]. split; [exact Hm|].
  apply search_anchored in H. apply matchAt_sound in H as [w [s' (_ & Hi & _)]].
  exact Hi.
Qed.

Lemma append_assoc' a b c : (a +++ b) +++ c = a +++ (b +++ c).
Proof. induction a as [|x a IH]; simpl; [reflexivity|now rewrite IH]. Qed.

Lemma string_of_chars_lit l : string_of_list_ascii (Regex.chars l) = l.
Proof. apply string_of_list_ascii_of_string. Qed.

Lemma route_line_starts_with_hashes line m :
  Regex.exec MorePatterns.routeRegex line = Some m ->
  JsString.startsWith line "###" = true.
Proof.
  intros E. unfold MorePatterns.routeRegex in E. cbn [Regex.seq] in E.
  apply exec_anchored in E as [Hm Hi].
  apply matchOf_parts in Hm as [pre [w [post (Hcode & _ & _ & Hlen & Hmatch)]]].
  rewrite Hi in Hlen. destruct pre; [|discriminate]. simpl in Hcode.
  rewrite Hcode. clear Hcode.
  inversion Hmatch as [| |? ? ? w1 w2 c1 c2 H1 H2| | | | | | | | |]; subst.
  inversion H1; subst.
  inversion H2 as [| |? ? ? w3 w4 c3 c4 H3 H4| | | | | | | | |]; subst.
  apply (matches_lit "###") in H3. subst w3.
  cbn [app]. rewrite string_of_list_ascii_app, string_of_chars_lit, append_assoc'.
  apply prefix_append.
Qed.

(** X17.  [extractApiRoute] returns a route only for a line that begins
    with [###]; the method of the route is one of GET, POST, PUT, PATCH and
    DELETE, its path is not empty and holds no white space, and its line is
    the number given. *)
Theorem extractApiRoute_shape line lineNum route :
  extractApiRoute line lineNum = Some route ->
  JsString.startsWith line "###" = true
  /\ In (ApiRoute.method route) MorePatterns.httpMethods
  /\ ApiRoute.path route <> ""
  /\ hasNoSpace (ApiRoute.path route) = true
  /\ ApiRoute.line route = lineNum.
Proof.
  unfold extractApiRoute.
  destruct (Regex.exec MorePatterns.routeRegex line) as [m|] eqn:E; [|discriminate].
  intros [= <-]. simpl.
  split; [exact (route_line_starts_with_hashes line m E)|].
  unfold MorePatterns.routeRegex in E. cbn [Regex.seq] in E.
  apply exec_anchored in E as [Hm Hi].
  split; [|split; [|split; [|reflexivity]]].
  - destruct (group_located _ line m 1 Hm) as [body [pos [w [c (Hb & Hw & ->)]]]];
      [simpl; auto|].
    simpl in Hb. destruct Hb as [<-|[]].
    apply (matches_alts_lits MorePatterns.httpMethods) in Hw as [l [Hl ->]].
    now rewrite string_of_chars_lit.
  - destruct (group_located _ line m 2 Hm) as [body [pos [w [c (Hb & Hw & ->)]]]];
      [simpl; auto|].
    simpl in Hb. destruct Hb as [<-|[]].
    apply plus_class_word in Hw as [Hne _]. destruct w; [contradiction|discriminate].
  - destruct (group_located _ line m 2 Hm) as [body [pos [w [c (Hb & Hw & ->)]]]];
      [simpl; auto|].
    simpl in Hb. destruct Hb as [<-|[]].
    apply plus_class_word in Hw as [_ Hall]. unfold hasNoSpace.
    rewrite list_ascii_of_string_of_list_ascii. apply forallb_forall.
    now rewrite Forall_forall in Hall.
Qed.

(** A heading with several blanks after the method and words after the
    path. *)
Lemma extractApiRoute_shape_witness :
  extractApiRoute "### POST   /orders now" 11 = Some (ApiRoute.mk "POST" "/orders" 11)
  /\ (JsString.startsWith "### POST   /orders now" "###" = true
      /\ In "POST" MorePatterns.httpMethods
      /\ "/orders" <> ""
      /\ hasNoSpace "/orders" = true
      /\ 11 = 11).
Proof.
  assert (H : extractApiRoute "### POST   /orders now" 11
              = Some (ApiRoute.mk "POST" "/orders" 11)) by (vm_compute; reflexivity).
  split; [exact H|].
  exact (extractApiRoute_shape "### POST   /orders now" 11 _ H).
Defined.

(** ** The whole loop of [parseContract] *)

Lemma detailLine_block st n line :
  block (detailLine st n line) = parseLine (block st) n line.
Proof.
  unfold detailLine, parseLine.
  destruct (_ || _); [reflexivity|].
  destruct (_ && _); [reflexivity|].
  destruct (inCodeBlock (block st)); reflexivity.
Qed.

Lemma detailLines_block lines : forall st n,
  block (detailLines st n lines) = parseLines (block st) n lines.
Proof.
  induction lines as [|l lines IH]; intros st n; simpl; [reflexivity|].
  now rewrite IH, detailLine_block.
Qed.

Lemma trim_hash r : exists r', JsString.trim (String "#" r) = String "#" r'.
Proof.
  unfold JsString.trim. cbn [JsString.trimStart].
  change (JsString.isSpace "#") with false. cbn iota.
  cbn [JsString.trimEnd]. change (JsString.isSpace "#") with false.
  destruct (JsString.trimEnd r); eauto.
Qed.

Lemma fence_is_no_route line n :
  isOpener line = true \/ isCloser line = true -> extractApiRoute line n = None.
Proof.
  intros Hfence. unfold extractApiRoute.
  destruct (Regex.exec MorePatterns.routeRegex line) as [m|] eqn:E; [exfalso|reflexivity].
  apply route_line_starts_with_hashes in E.
  destruct line as [|c line]; [discriminate|].
  unfold JsString.startsWith in E. cbn [String.prefix] in E.
  destruct (ascii_dec "#" c) as [<-|]; [|discriminate].
  destruct (trim_hash line) as [r' Ht].
  unfold isOpener, isCloser in Hfence. rewrite Ht in Hfence.
  destruct Hfence as [H|H]; discriminate.
Qed.

Lemma detailLine_routes st n line :
  routesAcc (detailLine st n line) = routesAcc st ++ routeOfLine (n, line).
Proof.
  unfold detailLine, routeOfLine. cbn [fst snd].
  fold (isOpener line). fold (isCloser line).
  destruct (isOpener line) eqn:Ho.
  - rewrite (fence_is_no_route line n) by auto. simpl. now rewrite app_nil_r.
  - destruct (isCloser line) eqn:Hc; cbn [andb].
    + rewrite (fence_is_no_route line n) by auto.
      destruct (inCodeBlock (block st)); simpl; now rewrite app_nil_r.
    + simpl. destruct (extractApiRoute line n); [reflexivity|now rewrite app_nil_r].
Qed.

Lemma detailLines_routes lines : forall st n,
  routesAcc (detailLines st n lines)
  = routesAcc st ++ flat_map routeOfLine (combine (List.seq n (List.length lines)) lines).
Proof.
  induction lines as [|l lines IH]; intros st n; simpl; [now rewrite app_nil_r|].
  rewrite IH, detailLine_routes, <- app_assoc. reflexivity.
Qed.

(** X18.  The routes of a contract are those of all its lines, one after
    the other, each with the number of its own line in the document: a
    heading inside a TypeScript block counts like one outside, and the
    imports and types found along the way are those of [parseContract]. *)
Theorem contract_routes_from_every_line filePath content :
  ContractDetails.apiRoutes (parseContractDetails filePath content)
  = flat_map routeOfLine (numberedLines content)
  /\ ContractDetails.imports (parseContractDetails filePath content)
     = ParsedContract.imports (parseContractContent filePath content)
  /\ ContractDetails.types (parseContractDetails filePath content)
     = ParsedContract.types (parseContractContent filePath content).
Proof.
  unfold parseContractDetails, parseContractContent, numberedLines. simpl.
  rewrite detailLines_routes, detailLines_block. auto.
Qed.

(** The routes of the orders contract: the heading of line 3 and the one of
    line 11, which stands inside the block. *)
Example routes_of_orders :
  ContractDetails.apiRoutes (parseContractDetails "ORDERS-CONTRACT.md" routesDocument)
  = [ApiRoute.mk "GET" "/orders/:id" 3; ApiRoute.mk "POST" "/orders" 11].
Proof. vm_compute. reflexivity. Qed.

(** ** Matches, piece by piece *)

Lemma matches_cat r1 r2 pos w c :
  matches (Regex.Cat r1 r2) pos w c ->
  exists w1 w2 c1 c2,
    w = w1 ++ w2 /\ c = c2 ++ c1
    /\ matches r1 pos w1 c1 /\ matches r2 (pos + List.length w1) w2 c2.
Proof. intros H. inversion H; subst. eauto 10. Qed.

Lemma matches_grp n r pos w c :
  matches (Regex.Grp n r) pos w c ->
  exists c', c = (n, (pos, pos + List.length w)) :: c' /\ matches r pos w c'.
Proof. intros H. inversion H; subst. eauto. Qed.

Lemma matches_chr x pos w c : matches (Regex.chr x) pos w c -> w = [x] /\ c = [].
Proof.
  unfold Regex.chr. intros H. inversion H as [|p ? ch Hp| | | | | | | | | |]; subst.
  apply Ascii.eqb_eq in Hp. now subst.
Qed.

(** An expression without group [n] records no capture for [n]. *)
Lemma lookup_no_group r pos w c n :
  matches r pos w c -> groupBodies n r = [] -> Regex.lookup n c = None.
Proof.
  intros Hm Hnone. destruct (Regex.lookup n c) as [[b e]|] eqn:El; [|reflexivity].
  apply lookup_In in El.
  destruct (captures_located _ _ _ _ Hm n b e El) as [body [w1 [w2 [w3 [c' [Hb _]]]]]].
  rewrite Hnone in Hb. destruct Hb.
Qed.

Lemma lookup_app n c2 c1 :
  Regex.lookup n c2 = None -> Regex.lookup n (c2 ++ c1) = Regex.lookup n c1.
Proof.
  induction c2 as [|[k sp] c2 IH]; simpl; [reflexivity|].
  destruct (k =? n); [discriminate|exact IH].
Qed.

(** ** The statement an import comes from *)

Lemma groupFree_caps r pos w c : matches r pos w c -> groupFree r = true -> c = [].
Proof.
  induction 1; simpl; intros Hg; try reflexivity; try discriminate;
    try (apply andb_true_iff in Hg as [Hg1 Hg2]); auto.
  - now rewrite IHmatches1, IHmatches2.
  - now rewrite IHmatches1, IHmatches2.
  - now rewrite IHmatches1, IHmatches2.
Qed.

Lemma matches_quote pos w c :
  matches Patterns.quote pos w c -> exists q, w = [q] /\ isQuote q = true /\ c = [].
Proof.
  unfold Patterns.quote. intros H. inversion H as [|p ? ch Hp| | | | | | | | | |]; subst.
  exists ch. auto.
Qed.

Lemma extractImports_by_statement code startLine :
  extractImports code startLine
  = flat_map
      (fun m => map (fun n => ImportInfo.mk n (Regex.group' code m 2)
                                            (lineOf code startLine m))
                    (importedNames (Regex.group' code m 1)))
      (Regex.execAll Patterns.importRegex code).
Proof.
  unfold extractImports, importedNames.
  induction (Regex.execAll Patterns.importRegex code) as [|m ms IH]; [reflexivity|].
  cbn [flat_map]. rewrite IH. f_equal.
  induction (filter _ _) as [|x l IHl]; [reflexivity|].
  cbn [flat_map]. rewrite map_app, IHl. f_equal.
  now destruct (nonEmpty _ && Regex.test Patterns.identifier _).
Qed.

(** The text of an import statement, piece by piece. *)
Lemma import_match_parts code m :
  matchOf Patterns.importRegex (Regex.chars code) m ->
  exists ws1 ws2 ws3 q1 q2,
    Regex.whole code m
    = "import" +++ ws1 +++ "{" +++ Regex.group' code m 1 +++ "}" +++ ws2
      +++ "from" +++ ws3 +++ String q1 (Regex.group' code m 2 +++ String q2 "")
    /\ isBlank ws1 = true /\ isBlank ws2 = true /\ isBlank ws3 = true
    /\ isQuote q1 = true /\ isQuote q2 = true.
Proof.
  intros [pre [w [post [Hfull [Hi [Hst Hm]]]]]].
  unfold Patterns.importRegex in Hm. cbn [Regex.seq] in Hm.
  remember (Regex.groups m) as caps eqn:Ecaps.
  apply matches_cat in Hm as (wi & ? & ci & ? & -> & -> & Himp & Hm).
  apply matches_cat in Hm as (w1 & ? & c1 & ? & -> & -> & Hs1 & Hm).
  apply matches_cat in Hm as (wl & ? & cl & ? & -> & -> & Hl & Hm).
  apply matches_cat in Hm as (wg1 & ? & cg1 & ? & -> & -> & Hg1 & Hm).
  apply matches_cat in Hm as (wr & ? & cr & ? & -> & -> & Hr & Hm).
  apply matches_cat in Hm as (w2 & ? & c2 & ? & -> & -> & Hs2 & Hm).
  apply matches_cat in Hm as (wf & ? & cf & ? & -> & -> & Hf & Hm).
  apply matches_cat in Hm as (w3 & ? & c3 & ? & -> & -> & Hs3 & Hm).
  apply matches_cat in Hm as (wq1 & ? & cq1 & ? & -> & -> & Hq1 & Hm).
  apply matches_cat in Hm as (wg2 & wq2 & cg2 & cq2 & -> & -> & Hg2 & Hq2).
  apply matches_quote in Hq1 as [q1 (-> & Hq1 & ->)].
  apply matches_quote in Hq2 as [q2 (-> & Hq2 & ->)].
  apply matches_chr in Hl as [-> ->]. apply matches_chr in Hr as [-> ->].
  apply matches_grp in Hg1 as [cg1' [-> Hg1]].
  apply matches_grp in Hg2 as [cg2' [-> Hg2]].
  assert (Ei := matches_lit "import" _ _ _ Himp). subst wi.
  assert (Ef := matches_lit "from" _ _ _ Hf). subst wf.
  rewrite (groupFree_caps _ _ _ _ Hg1 eq_refl) in Ecaps.
  rewrite (groupFree_caps _ _ _ _ Hg2 eq_refl) in Ecaps.
  rewrite (groupFree_caps _ _ _ _ Hs2 eq_refl) in Ecaps.
  rewrite (groupFree_caps _ _ _ _ Hs3 eq_refl) in Ecaps.
  rewrite (groupFree_caps _ _ _ _ Hf eq_refl) in Ecaps.
  simpl in Ecaps.
  exists (string_of_list_ascii w1), (string_of_list_ascii w2), (string_of_list_ascii w3),
         q1, q2.
  assert (Hb1 : isBlank (string_of_list_ascii w1) = true).
  { unfold isBlank. rewrite list_ascii_of_string_of_list_ascii. apply forallb_forall.
    apply star_class_word in Hs1. now rewrite Forall_forall in Hs1. }
  assert (Hb2 : isBlank (string_of_list_ascii w2) = true).
  { unfold isBlank. rewrite list_ascii_of_string_of_list_ascii. apply forallb_forall.
    apply star_class_word in Hs2. now rewrite Forall_forall in Hs2. }
  assert (Hb3 : isBlank (string_of_list_ascii w3) = true).
  { unfold isBlank. rewrite list_ascii_of_string_of_list_ascii. apply forallb_forall.
    apply star_class_word in Hs3. now rewrite Forall_forall in Hs3. }
  split; [|auto 10].
  set (i := Regex.chars "import") in *. set (f := Regex.chars "from") in *.
  assert (G1 : Regex.group' code m 1 = string_of_list_ascii wg1).
  { unfold Regex.group', Regex.group. rewrite <- Ecaps. simpl Regex.lookup. cbv beta iota.
    match goal with
    | |- substring ?b (?e - ?b) code = _ =>
        replace (e - b) with (List.length wg1) by lia;
        replace b with (List.length (pre ++ i ++ w1 ++ ["{"%char]))
          by (rewrite !length_app, Hi; simpl; lia)
    end.
    apply (substring_middle _ _
             (["}"%char] ++ w2 ++ f ++ w3 ++ [q1] ++ wg2 ++ [q2] ++ post)).
    rewrite Hfull, <- !app_assoc. reflexivity. }
  assert (G2 : Regex.group' code m 2 = string_of_list_ascii wg2).
  { unfold Regex.group', Regex.group. rewrite <- Ecaps. simpl Regex.lookup. cbv beta iota.
    match goal with
    | |- substring ?b (?e - ?b) code = _ =>
        replace (e - b) with (List.length wg2) by lia;
        replace b with (List.length (pre ++ i ++ w1 ++ ["{"%char] ++ wg1 ++ ["}"%char]
                                         ++ w2 ++ f ++ w3 ++ [q1]))
          by (rewrite !length_app, Hi; simpl; lia)
    end.
    apply (substring_middle _ _ ([q2] ++ post)).
    rewrite Hfull, <- !app_assoc. reflexivity. }
  rewrite G1, G2. unfold Regex.whole. rewrite Hst, Hi.
  match goal with
  | |- substring _ (_ + List.length ?w - _) code = _ =>
      replace (List.length pre + List.length w - List.length pre) with (List.length w) by lia;
      rewrite (substring_middle pre w post code Hfull)
  end.
  rewrite !string_of_list_ascii_app. unfold i, f. rewrite !string_of_chars_lit.
  reflexivity.
Qed.

(** X7.  Every import that [extractImports] returns from ASCII code has
    for name a JavaScript identifier and a source that is not empty and
    holds no quote, and comes from one statement that the scan of the code
    matched, of the form [import {items} from 'source']: the name is one of
    the names read between the braces of that statement (so an item such as
    [type Foo] is dropped and [Foo as Bar] is recorded as [Foo]), the source
    is the text between its quotes, and the line is that of the keyword
    [import] of that statement: [startLine] plus the number of line feeds
    before it. *)
Theorem extractImports_entries code startLine i :
  isAscii code = true ->
  In i (extractImports code startLine) ->
  isJsIdentifier (ImportInfo.name i) = true
  /\ ImportInfo.source i <> ""
  /\ existsb isQuote (list_ascii_of_string (ImportInfo.source i)) = false
  /\ exists m pre post ws1 items ws2 ws3 q1 q2,
       In m (Regex.execAll Patterns.importRegex code)
       /\ Regex.before code m = pre
       /\ code = pre +++ Regex.whole code m +++ post
       /\ Regex.whole code m
          = "import" +++ ws1 +++ "{" +++ items +++ "}" +++ ws2
            +++ "from" +++ ws3 +++ String q1 (ImportInfo.source i +++ String q2 "")
       /\ isBlank ws1 = true /\ isBlank ws2 = true /\ isBlank ws3 = true
       /\ isQuote q1 = true /\ isQuote q2 = true
       /\ In (ImportInfo.name i) (importedNames items)
       /\ ImportInfo.line i = startLine + JsString.countNewlines pre.
Proof.
  intros _ Hin. rewrite extractImports_by_statement in Hin.
  apply in_flat_map in Hin as [m [Hm Hin]].
  apply in_map_iff in Hin as [n [<- Hn]]. cbn [ImportInfo.name ImportInfo.source ImportInfo.line].
  pose proof (execAll_sound Patterns.importRegex code) as Hall.
  rewrite Forall_forall in Hall. specialize (Hall m Hm).
  split; [|split; [|split]].
  - unfold importedNames in Hn. apply in_flat_map in Hn as [item [_ Hn]].
    destruct (nonEmpty _ && Regex.test Patterns.identifier _) eqn:Hc; [|destruct Hn].
    destruct Hn as [<-|[]]. apply andb_true_iff in Hc as [_ Hid].
    now apply test_identifier.
  - destruct (group_located _ code m 2 Hall) as [body [pos [w [c (Hb & Hw & ->)]]]];
      [simpl; auto|].
    simpl in Hb. destruct Hb as [<-|[]].
    apply plus_class_word in Hw as [Hne _]. destruct w; [contradiction|discriminate].
  - destruct (group_located _ code m 2 Hall) as [body [pos [w [c (Hb & Hw & ->)]]]];
      [simpl; auto|].
    simpl in Hb. destruct Hb as [<-|[]].
    apply plus_class_word in Hw as [_ Hall'].
    rewrite list_ascii_of_string_of_list_ascii.
    destruct (existsb isQuote w) eqn:Ex; [|reflexivity].
    apply existsb_exists in Ex as [x [Hx Hq]]. rewrite Forall_forall in Hall'.
    specialize (Hall' x Hx). unfold isQuote in Hq. simpl in Hall'.
    rewrite Hq in Hall'. discriminate.
  - destruct (import_match_parts code m Hall)
      as [ws1 [ws2 [ws3 [q1 [q2 (Hwhole & Hb1 & Hb2 & Hb3 & Hq1 & Hq2)]]]]].
    assert (Hparts := Hall).
    apply matchOf_parts in Hparts as [pre [w [post (Hcode & Hb & Hw & _ & _)]]].
    exists m, (string_of_list_ascii pre), (string_of_list_ascii post),
           ws1, (Regex.group' code m 1), ws2, ws3, q1, q2.
    split; [exact Hm|]. split; [exact Hb|].
    split; [now rewrite Hw|]. split; [exact Hwhole|].
    repeat (split; [assumption|]). unfold lineOf. now rewrite Hb.
Qed.

(** Two statements from one source: [Currency], renamed by the second, is
    recorded with the line of the second [import], two line feeds into the
    code. *)
Lemma extractImports_entries_witness :
  (isAscii twoImportsCode = true
   /\ In (ImportInfo.mk "Currency" "../shared/types" 7) (extractImports twoImportsCode 5))
  /\ isJsIdentifier "Currency" = true
  /\ "../shared/types" <> ""
  /\ existsb isQuote (list_ascii_of_string "../shared/types") = false
  /\ exists m pre post ws1 items ws2 ws3 q1 q2,
       In m (Regex.execAll Patterns.importRegex twoImportsCode)
       /\ Regex.before twoImportsCode m = pre
       /\ twoImportsCode = pre +++ Regex.whole twoImportsCode m +++ post
       /\ Regex.whole twoImportsCode m
          = "import" +++ ws1 +++ "{" +++ items +++ "}" +++ ws2
            +++ "from" +++ ws3 +++ String q1 ("../shared/types" +++ String q2 "")
       /\ isBlank ws1 = true /\ isBlank ws2 = true /\ isBlank ws3 = true
       /\ isQuote q1 = true /\ isQuote q2 = true
       /\ In "Currency" (importedNames items)
       /\ 7 = 5 + JsString.countNewlines pre.
Proof.
  assert (H : In (ImportInfo.mk "Currency" "../shared/types" 7)
                 (extractImports twoImportsCode 5))
    by (vm_compute; auto).
  split; [split; [reflexivity|exact H]|].
  exact (extractImports_entries twoImportsCode 5 _ eq_refl H).
Defined.

(** ** The interface a service method comes from *)

Lemma class_string p w :
  Forall (fun x => p x = true) w ->
  forallb p (list_ascii_of_string (string_of_list_ascii w)) = true.
Proof.
  intros H. rewrite list_ascii_of_string_of_list_ascii. apply forallb_forall.
  now rewrite Forall_forall in H.
Qed.

Lemma string_of_list_nonempty w : w <> [] -> string_of_list_ascii w <> "".
Proof. destruct w; [contradiction|discriminate]. Qed.

(** The text of a service interface, piece by piece. *)
Lemma service_match_parts code im :
  matchOf MorePatterns.serviceRegex (Regex.chars code) im ->
  exists s1 s2 w s3,
    Regex.whole code im
    = "export" +++ s1 +++ "interface" +++ s2 +++ "I" +++ w +++ "Service" +++ s3
      +++ "{" +++ Regex.group' code im 1 +++ String "010" "}"
    /\ s1 <> "" /\ isBlank s1 = true /\ s2 <> "" /\ isBlank s2 = true
    /\ isWordName w = true /\ isBlank s3 = true.
Proof.
  intros [pre [w [post [Hfull [Hi [Hst Hm]]]]]].
  unfold MorePatterns.serviceRegex in Hm. cbn [Regex.seq] in Hm.
  remember (Regex.groups im) as caps eqn:Ecaps.
  apply matches_cat in Hm as (we & ? & ce & ? & -> & -> & He & Hm).
  apply matches_cat in Hm as (w1 & ? & c1 & ? & -> & -> & H1 & Hm).
  apply matches_cat in Hm as (wi & ? & ci & ? & -> & -> & Hint & Hm).
  apply matches_cat in Hm as (w2 & ? & c2 & ? & -> & -> & H2 & Hm).
  apply matches_cat in Hm as (wI & ? & cI & ? & -> & -> & HI & Hm).
  apply matches_cat in Hm as (ww & ? & cw & ? & -> & -> & Hw & Hm).
  apply matches_cat in Hm as (ws & ? & cs & ? & -> & -> & Hs & Hm).
  apply matches_cat in Hm as (w3 & ? & c3 & ? & -> & -> & H3 & Hm).
  apply matches_cat in Hm as (wo & ? & co & ? & -> & -> & Ho & Hm).
  apply matches_cat in Hm as (wg & ? & cg & ? & -> & -> & Hg & Hm).
  apply matches_cat in Hm as (wn & wb & cn & cb & -> & -> & Hn & Hb).
  apply matches_chr in Hn as [-> ->]. apply matches_chr in Hb as [-> ->].
  apply matches_chr in Ho as [-> ->]. apply matches_chr in HI as [-> ->].
  apply matches_grp in Hg as [cg' [-> Hg]].
  assert (Ee := matches_lit "export" _ _ _ He). subst we.
  assert (Ein := matches_lit "interface" _ _ _ Hint). subst wi.
  assert (Es := matches_lit "Service" _ _ _ Hs). subst ws.
  exists (string_of_list_ascii w1), (string_of_list_ascii w2), (string_of_list_ascii ww),
         (string_of_list_ascii w3).
  apply plus_class_word in H1 as [Hn1 Hc1]. apply plus_class_word in H2 as [Hn2 Hc2].
  apply plus_class_word in Hw as [Hnw Hcw]. apply star_class_word in H3.
  split; [|repeat split; try (now apply string_of_list_nonempty);
            try (now apply class_string)].
  - set (ex := Regex.chars "export") in *. set (itf := Regex.chars "interface") in *.
    set (svc := Regex.chars "Service") in *.
    assert (G : Regex.group' code im 1 = string_of_list_ascii wg).
    { unfold Regex.group', Regex.group. rewrite <- Ecaps. simpl Regex.lookup. cbv beta iota.
      match goal with
      | |- substring ?b (?e - ?b) code = _ =>
          replace (e - b) with (List.length wg) by lia;
          replace b with (List.length (pre ++ ex ++ w1 ++ itf ++ w2 ++ ["I"%char] ++ ww ++ svc
                                           ++ w3 ++ ["{"%char]))
            by (rewrite !length_app, Hi; simpl; lia)
      end.
      apply (substring_middle _ _ (["010"%char] ++ ["}"%char] ++ post)).
      rewrite Hfull, <- !app_assoc. reflexivity. }
    rewrite G. unfold Regex.whole. rewrite Hst, Hi.
    match goal with
    | |- substring _ (_ + List.length ?w - _) code = _ =>
        replace (List.length pre + List.length w - List.length pre) with (List.length w)
          by lia;
        rewrite (substring_middle pre w post code Hfull)
    end.
    rewrite !string_of_list_ascii_app. unfold ex, itf, svc. rewrite !string_of_chars_lit.
    reflexivity.
  - unfold isWordName. apply andb_true_iff. split.
    + unfold nonEmpty. destruct ww; [contradiction|reflexivity].
    + unfold isIdentifierName. now apply class_string.
Qed.

(** The text of a method begins with its name. *)
Lemma method_match_parts body m :
  matchOf MorePatterns.methodRegex (Regex.chars body) m ->
  exists rest, Regex.whole body m = Regex.group' body m 1 +++ rest.
Proof.
  intros [pre [w [post [Hfull [Hi [Hst Hm]]]]]].
  unfold MorePatterns.methodRegex in Hm. cbn [Regex.seq] in Hm.
  remember (Regex.groups m) as caps eqn:Ecaps.
  apply matches_cat in Hm as (wn & wr & cn & cr & -> & -> & Hn & Hr).
  apply matches_grp in Hn as [c' [-> Hn]].
  assert (Hnone : Regex.lookup 1 cr = None)
    by (apply (lookup_no_group _ _ _ _ 1 Hr); reflexivity).
  exists (string_of_list_ascii wr).
  unfold Regex.group', Regex.group, Regex.whole.
  rewrite <- Ecaps, lookup_app by exact Hnone.
  simpl Regex.lookup. cbv beta iota.
  replace (Regex.index m + List.length wn - Regex.index m) with (List.length wn) by lia.
  rewrite Hst, Hi.
  replace (List.length pre + List.length (wn ++ wr) - List.length pre)
    with (List.length (wn ++ wr)) by lia.
  rewrite (substring_middle pre (wn ++ wr) post body Hfull).
  rewrite <- app_assoc in Hfull.
  rewrite (substring_middle pre wn (wr ++ post) body Hfull).
  apply string_of_list_ascii_app.
Qed.

(** X19.  Every service method that [extractServiceMethods] returns from
    ASCII code comes from the first service interface of the code, a text
    of the form [export interface I...Service { body] closed by a brace at
    the start of a line: the method is one of the matches of the method
    pattern in that body, the text of the match begins with the name of the
    method, a non-empty word, and the line of the method is [startLine]
    plus the number of line feeds that stand before the match inside the
    body.  The lines are thus counted from the opening brace of the
    interface, wherever the interface stands in the block. *)
Theorem extractServiceMethods_located code startLine method :
  isAscii code = true ->
  In method (extractServiceMethods code startLine) ->
  exists im m body before after s1 s2 w s3 pre rest post,
    Regex.exec MorePatterns.serviceRegex code = Some im
    /\ Regex.before code im = before
    /\ code = before +++ Regex.whole code im +++ after
    /\ Regex.whole code im
       = "export" +++ s1 +++ "interface" +++ s2 +++ "I" +++ w +++ "Service" +++ s3
         +++ "{" +++ body +++ String "010" "}"
    /\ s1 <> "" /\ isBlank s1 = true /\ s2 <> "" /\ isBlank s2 = true
    /\ isWordName w = true /\ isBlank s3 = true
    /\ In m (Regex.execAll MorePatterns.methodRegex body)
    /\ Regex.before body m = pre
    /\ body = pre +++ Regex.whole body m +++ post
    /\ Regex.whole body m = ServiceMethod.name method +++ rest
    /\ isWordName (ServiceMethod.name method) = true
    /\ ServiceMethod.line method = startLine + JsString.countNewlines pre.
Proof.
  intros _. unfold extractServiceMethods.
  destruct (Regex.exec MorePatterns.serviceRegex code) as [im|] eqn:E; [|intros []].
  intros Hin. apply in_map_iff in Hin as [m [<- Hm]].
  cbn [ServiceMethod.name ServiceMethod.line].
  pose proof (search_sound _ _ 0 im [] eq_refl E) as [Him _]. simpl in Him.
  destruct (service_match_parts code im Him)
    as [s1 [s2 [w [s3 (Hwhole & Hn1 & Hb1 & Hn2 & Hb2 & Hw & Hb3)]]]].
  assert (Hparts := Him).
  apply matchOf_parts in Hparts as [bf [wi [af (Hcode & Hbf & Hwi & _ & _)]]].
  set (body := Regex.group' code im 1) in *.
  pose proof (execAll_sound MorePatterns.methodRegex body) as Hall.
  rewrite Forall_forall in Hall. specialize (Hall m Hm).
  destruct (method_match_parts body m Hall) as [rest Hrest].
  assert (Hmp := Hall).
  apply matchOf_parts in Hmp as [pre [wm [post (Hbody & Hpre & Hwm & _ & _)]]].
  exists im, m, body, (string_of_list_ascii bf), (string_of_list_ascii af),
         s1, s2, w, s3, (string_of_list_ascii pre), rest, (string_of_list_ascii post).
  split; [reflexivity|]. split; [exact Hbf|]. split; [now rewrite Hwi|].
  split; [exact Hwhole|].
  do 6 (split; [assumption|]).
  split; [exact Hm|]. split; [exact Hpre|]. split; [now rewrite Hwm|].
  split; [exact Hrest|]. split.
  - apply (group_word_name MorePatterns.methodRegex); [exact Hall|simpl; auto|].
    simpl. intuition.
  - unfold lineOf. now rewrite Hpre.
Qed.

Lemma extractServiceMethods_located_witness :
  (isAscii serviceBlock = true /\ In listMethod (extractServiceMethods serviceBlock 4))
  /\ exists im m body before after s1 s2 w s3 pre rest post,
       Regex.exec MorePatterns.serviceRegex serviceBlock = Some im
       /\ Regex.before serviceBlock im = before
       /\ serviceBlock = before +++ Regex.whole serviceBlock im +++ after
       /\ Regex.whole serviceBlock im
          = "export" +++ s1 +++ "interface" +++ s2 +++ "I" +++ w +++ "Service" +++ s3
            +++ "{" +++ body +++ String "010" "}"
       /\ s1 <> "" /\ isBlank s1 = true /\ s2 <> "" /\ isBlank s2 = true
       /\ isWordName w = true /\ isBlank s3 = true
       /\ In m (Regex.execAll MorePatterns.methodRegex body)
       /\ Regex.before body m = pre
       /\ body = pre +++ Regex.whole body m +++ post
       /\ Regex.whole body m = ServiceMethod.name listMethod +++ rest
       /\ isWordName (ServiceMethod.name listMethod) = true
       /\ ServiceMethod.line listMethod = 4 + JsString.countNewlines pre.
Proof.
  assert (H : In listMethod (extractServiceMethods serviceBlock 4))
    by (vm_compute; auto).
  split; [split; [reflexivity|exact H]|].
  exact (extractServiceMethods_located serviceBlock 4 listMethod eq_refl H).
Defined.

(** The second method of the service of the orders contract, whose block
    opens on line 4: it stands on line 9 of the document, two line feeds
    into the body of the interface, and is recorded with line 6. *)
Example list_method_line :
  lineAt routesDocument 9 = Some "  list(page?: number, size: number): Order[];"
  /\ In listMethod
        (ContractDetails.serviceMethods
           (parseContractDetails "ORDERS-CONTRACT.md" routesDocument)).
Proof. split; vm_compute; auto. Qed.

(** ** The exit code of the [verify] command *)

(** X20.  The [verify] command exits with 0 or 1.  It exits with 0 exactly
    when the vocabulary file exists, the pattern matched at least one
    contract, every file could be read, and the run passes: no import is
    unresolved, the graph that [checkCircularDependencies] builds on the
    base names of the files has no cycle, and the shape check raises no
    error. *)
Theorem verifyCommand_exit_code existsSync fs now primitivesPath contractPaths :
  (verifyCommand existsSync fs now primitivesPath contractPaths = 0
   \/ verifyCommand existsSync fs now primitivesPath contractPaths = 1)
  /\ (verifyCommand existsSync fs now primitivesPath contractPaths = 0
      <-> existsSync primitivesPath = true
          /\ contractPaths <> []
          /\ exists p cs,
               parseSharedPrimitives fs primitivesPath = Some p
               /\ parseContracts fs contractPaths = Some cs
               /\ checkImportResolution cs p = []
               /\ acyclic (fst (buildGraph cs))
               /\ forallb (fun i => negb (isError i))
                          (checkTypeShapeCompatibility cs p) = true).
Proof.
  unfold verifyCommand, verifyContracts. simpl.
  destruct (existsSync primitivesPath); simpl;
    [|split; [now right|split; [discriminate|intros [H _]; discriminate]]].
  destruct contractPaths as [|path paths]; simpl Nat.eqb; cbv iota;
    [split; [now right|split; [discriminate|intros (_ & H & _); contradiction]]|].
  destruct (parseSharedPrimitives fs primitivesPath) as [p|];
    [|split; [now right|split; [discriminate|intros (_ & _ & p & cs & H & _); discriminate]]].
  destruct (parseContracts fs (path :: paths)) as [cs|];
    [|split; [now right|
              split; [discriminate|intros (_ & _ & p' & cs & _ & H & _); discriminate]]].
  pose proof (runChecks_verdict now p cs) as Hv.
  destruct (VerificationReport.passed (runChecks now p cs)).
  - split; [now left|]. split; [|reflexivity].
    intros _. split; [reflexivity|]. split; [discriminate|].
    exists p, cs. split; [reflexivity|]. split; [reflexivity|]. now apply Hv.
  - split; [now right|]. split; [discriminate|].
    intros (_ & _ & p' & cs' & [= <-] & [= <-] & H). apply Hv in H. discriminate.
Qed.
